(** * Rust Hook Analyzer: the signature parser and the matcher builder

    A shallow embedding of [src/parser.ts] and of the analysis core of
    [src/extension.ts].

    - JavaScript strings are sequences of UTF-16 code units ([list N]).
    - The regular expressions of the source are values of a small regex
      type; [RegExp.compile] reads a pattern text the way [new RegExp] does
      for the fragment the source uses, and a backtracking matcher with
      greedy quantifiers runs them ([exec], [String.match], [String.replace]).
    - Code that can throw or loop lives in the [Outcome] monad. *)

From Stdlib Require Import String Ascii NArith ZArith Lia Bool Arith Sorted List.
Import ListNotations.

Set Implicit Arguments.

(** ** JavaScript strings *)

Module JS.

Definition char : Type := N.
Definition jsstring : Type := list char.

(** A literal of the source, as code units (the literals of the source are
    ASCII). *)
Definition js (s : string) : jsstring :=
  List.map N_of_ascii (list_ascii_of_string s).

Definition TAB : char := 9%N.
Definition LF : char := 10%N.
Definition CR : char := 13%N.
Definition SPACE : char := 32%N.
Definition DQUOTE : char := 34%N.
Definition DOLLAR : char := 36%N.
Definition LPAREN : char := 40%N.
Definition RPAREN : char := 41%N.
Definition STAR : char := 42%N.
Definition PLUS : char := 43%N.
Definition COMMA : char := 44%N.
Definition MINUS : char := 45%N.
Definition DOT : char := 46%N.
Definition LT : char := 60%N.
Definition GT : char := 62%N.
Definition QUESTION : char := 63%N.
Definition LBRACKET : char := 91%N.
Definition BACKSLASH : char := 92%N.
Definition RBRACKET : char := 93%N.
Definition CARET : char := 94%N.
Definition LBRACE : char := 123%N.
Definition BAR : char := 124%N.
Definition RBRACE : char := 125%N.

Local Open Scope N_scope.

Definition inRange (lo hi c : char) : bool := (N.leb lo c && N.leb c hi)%bool.

(** LineTerminator of ECMAScript: LF, CR, LS, PS. *)
Definition isLineTerminator (c : char) : bool :=
  (N.eqb c 10 || N.eqb c 13 || N.eqb c 8232 || N.eqb c 8233)%bool.

(** WhiteSpace and LineTerminator of ECMAScript: what [trim] strips and what
    [\s] matches. *)
Definition isSpace (c : char) : bool :=
  (inRange 9 13 c || N.eqb c 32 || N.eqb c 160 || N.eqb c 5760
   || inRange 8192 8202 c || N.eqb c 8232 || N.eqb c 8233 || N.eqb c 8239
   || N.eqb c 8287 || N.eqb c 12288 || N.eqb c 65279)%bool.

(** [\w]: ASCII letters, digits and the underscore. *)
Definition isWord (c : char) : bool :=
  (inRange 65 90 c || inRange 97 122 c || inRange 48 57 c || N.eqb c 95)%bool.

Local Close Scope N_scope.

Fixpoint dropWhile (p : char -> bool) (s : jsstring) : jsstring :=
  match s with
  | [] => []
  | c :: s' => if p c then dropWhile p s' else s
  end.

Definition trimStart (s : jsstring) : jsstring := dropWhile isSpace s.
Definition trimEnd (s : jsstring) : jsstring := rev (dropWhile isSpace (rev s)).

(** [String.prototype.trim] *)
Definition trim (s : jsstring) : jsstring := trimEnd (trimStart s).

(** [String.prototype.split] with a separator of one code unit: always at
    least one piece, empty pieces are kept. *)
Fixpoint split (sep : char) (s : jsstring) : list jsstring :=
  match s with
  | [] => [[]]
  | c :: s' =>
      if N.eqb c sep then [] :: split sep s'
      else match split sep s' with
           | piece :: rest => (c :: piece) :: rest
           | [] => [[c]]
           end
  end.

(** [Array.prototype.join] *)
Fixpoint join (sep : jsstring) (parts : list jsstring) : jsstring :=
  match parts with
  | [] => []
  | [p] => p
  | p :: rest => p ++ sep ++ join sep rest
  end.

(** [String.prototype.includes] for one code unit *)
Definition includes (c : char) (s : jsstring) : bool := existsb (N.eqb c) s.

(** What running a piece of the program can end in. *)
Inductive Exn : Type :=
| TypeError
| SyntaxError.

Inductive Outcome (A : Type) : Type :=
| Done (a : A)
| Throws (e : Exn)
| Diverges.

Arguments Done {A} a.
Arguments Throws {A} e.
Arguments Diverges {A}.

Definition bind {A B : Type} (m : Outcome A) (k : A -> Outcome B) : Outcome B :=
  match m with
  | Done a => k a
  | Throws e => Throws e
  | Diverges => Diverges
  end.

(** A value that may be [undefined], used where a string is required. *)
Definition defined {A : Type} (o : option A) : Outcome A :=
  match o with
  | Some a => Done a
  | None => Throws TypeError
  end.

End JS.

Import JS.

Notation "x <- m ;; k" := (bind m (fun x => k))
  (at level 61, m at next level, right associativity).

(** ** Regular expressions *)

Module RegExp.

(** One member of a character class. *)
Inductive ClassItem : Type :=
| ILit (c : char)
| ISpace
| IWord.

(** What matches one code unit: [.] or a (possibly negated) class; a literal
    character is the class of that character alone. *)
Inductive Atom : Type :=
| ADot
| ASet (neg : bool) (items : list ClassItem).

Inductive Quant : Type :=
| QOne
| QStar
| QPlus.

(** The terms of a pattern, in order: a quantified atom, the assertions [^]
    and [$], the two ends of a capture group. *)
Inductive Term : Type :=
| TAtom (a : Atom) (q : Quant)
| TBol
| TEol
| TOpen
| TClose.

Definition Regex : Type := list Term.

Definition lit (c : char) : Atom := ASet false [ILit c].
Definition space : Atom := ASet false [ISpace].
Definition word : Atom := ASet false [IWord].
Definition lits (s : jsstring) : Regex := List.map (fun c => TAtom (lit c) QOne) s.

Definition itemMatches (it : ClassItem) (c : char) : bool :=
  match it with
  | ILit d => N.eqb c d
  | ISpace => isSpace c
  | IWord => isWord c
  end.

Definition atomMatches (a : Atom) (c : char) : bool :=
  match a with
  | ADot => negb (isLineTerminator c)
  | ASet neg items => xorb neg (existsb (fun it => itemMatches it c) items)
  end.

(** *** The matcher *)

(** The captures closed so far and where the open group started. *)
Record Caps : Type := mkCaps {
  closed : list jsstring;
  opened : option (nat * jsstring)
}.

Definition noCaps : Caps := mkCaps [] None.

Record Result : Type := mkResult {
  endIndex : nat;
  captures : list jsstring
}.

(** A greedy quantifier over one atom: take as many code units as match,
    and give back one at a time while the rest of the pattern fails. *)
Fixpoint greedy (a : Atom) (k : jsstring -> nat -> option Result)
    (s : jsstring) (i : nat) : option Result :=
  match s with
  | c :: s' =>
      if atomMatches a c then
        match greedy a k s' (S i) with
        | Some r => Some r
        | None => k s i
        end
      else k s i
  | [] => k [] i
  end.

(** [run r caps s i]: match the terms [r] against [s], the text from index
    [i] on. *)
Fixpoint run (r : Regex) (caps : Caps) (s : jsstring) (i : nat) : option Result :=
  match r with
  | [] => Some (mkResult i (closed caps))
  | TBol :: r' => if Nat.eqb i 0 then run r' caps s i else None
  | TEol :: r' => match s with [] => run r' caps s i | _ :: _ => None end
  | TOpen :: r' => run r' (mkCaps (closed caps) (Some (i, s))) s i
  | TClose :: r' =>
      match opened caps with
      | Some (i0, s0) => run r' (mkCaps (closed caps ++ [firstn (i - i0) s0]) None) s i
      | None => None
      end
  | TAtom a QOne :: r' =>
      match s with
      | c :: s' => if atomMatches a c then run r' caps s' (S i) else None
      | [] => None
      end
  | TAtom a QStar :: r' => greedy a (run r' caps) s i
  | TAtom a QPlus :: r' =>
      match s with
      | c :: s' => if atomMatches a c then greedy a (run r' caps) s' (S i) else None
      | [] => None
      end
  end.

(** The match array of [exec]: [index], [m[0]] and the capture groups. *)
Record Match : Type := mkMatch {
  index : nat;
  full : jsstring;
  groups : list jsstring
}.

(** [m[k]] for [k >= 1]; [None] is [undefined]. *)
Definition group (m : Match) (k : nat) : option jsstring :=
  nth_error (groups m) (k - 1).

Definition matchHere (r : Regex) (s : jsstring) (i : nat) : option Match :=
  match run r noCaps s i with
  | Some res => Some (mkMatch i (firstn (endIndex res - i) s) (captures res))
  | None => None
  end.

(** The leftmost match in [s], the text from index [i] on. *)
Fixpoint search (r : Regex) (s : jsstring) (i : nat) : option Match :=
  match matchHere r s i with
  | Some m => Some m
  | None =>
      match s with
      | [] => None
      | _ :: s' => search r s' (S i)
      end
  end.

(** [RegExp.prototype.exec] on [text] with [lastIndex]. *)
Definition exec (r : Regex) (text : jsstring) (lastIndex : nat) : option Match :=
  if Nat.ltb (length text) lastIndex then None
  else search r (skipn lastIndex text) lastIndex.

(** The [lastIndex] a global regex has after [exec] returned [m]. *)
Definition lastIndexAfter (m : Match) : nat := index m + length (full m).

(** [String.prototype.match] with a regex that is not global. *)
Definition stringMatch (r : Regex) (s : jsstring) : option Match := exec r s 0.

(** [String.prototype.replace] with a regex that is not global: the first
    match is replaced. *)
Definition replaceFirst (r : Regex) (repl : Match -> jsstring) (s : jsstring) : jsstring :=
  match exec r s 0 with
  | Some m => firstn (index m) s ++ repl m ++ skipn (lastIndexAfter m) s
  | None => s
  end.

(** [String.prototype.replace] with a global regex: every match is replaced;
    after an empty match the search moves on by one code unit. [skip] counts
    the code units of the last match still to pass. *)
Fixpoint replaceFrom (r : Regex) (repl : Match -> jsstring) (s : jsstring)
    (i skip : nat) : jsstring :=
  match skip, s with
  | S k, _ :: s' => replaceFrom r repl s' (S i) k
  | S _, [] => []
  | O, _ =>
      match matchHere r s i, s with
      | Some m, c :: s' =>
          repl m ++
          match length (full m) with
          | O => c :: replaceFrom r repl s' (S i) 0
          | S k => replaceFrom r repl s' (S i) k
          end
      | Some m, [] => repl m
      | None, c :: s' => c :: replaceFrom r repl s' (S i) 0
      | None, [] => []
      end
  end.

Definition replaceAll (r : Regex) (repl : Match -> jsstring) (s : jsstring) : jsstring :=
  replaceFrom r repl s 0 0.

(** The loop [while ((m = regex.exec(text)) !== null)] of a global regex,
    collecting the matches: each round starts at the end of the last match.
    A round that does not move [lastIndex] forward repeats forever, so
    [length text + 1] rounds are enough whenever the loop ends. *)
Fixpoint execLoop (fuel : nat) (r : Regex) (text : jsstring) (lastIndex : nat)
  : Outcome (list Match) :=
  match fuel with
  | O => Diverges
  | S fuel' =>
      match exec r text lastIndex with
      | None => Done []
      | Some m =>
          ms <- execLoop fuel' r text (lastIndexAfter m) ;;
          Done (m :: ms)
      end
  end.

Definition execAll (r : Regex) (text : jsstring) : Outcome (list Match) :=
  execLoop (S (length text)) r text 0.

(** *** Reading a pattern text

    [new RegExp(pattern)] for the fragment the source needs: literal
    characters, [.], the escapes [\s], [\w] and an escaped syntax character,
    classes of those, the quantifiers [*] and [+] on one atom, [^], [$] and
    capture groups that are not nested. A text outside the fragment is
    refused like a syntax error. The text is read one code unit at a time. *)

Definition syntaxChars : list char :=
  [DOT; STAR; PLUS; QUESTION; CARET; DOLLAR; LBRACE; RBRACE; LPAREN; RPAREN;
   BAR; LBRACKET; RBRACKET; BACKSLASH].

Definition isSyntaxChar (c : char) : bool := existsb (N.eqb c) syntaxChars.

Inductive Mode : Type :=
| MNormal
| MEscape
| MClassStart
| MClass (neg : bool) (items : list ClassItem)
| MClassEscape (neg : bool) (items : list ClassItem).

(** [terms] and the items of a class are kept in reverse; [pending] is the
    last atom read, which a quantifier may still follow. *)
Record PState : Type := mkPState {
  terms : list Term;
  pending : option Atom;
  inGroup : bool;
  mode : Mode
}.

Definition initial : PState := mkPState [] None false MNormal.

Definition flushed (st : PState) : list Term :=
  match pending st with
  | Some a => TAtom a QOne :: terms st
  | None => terms st
  end.

Definition quantify (q : Quant) (st : PState) : option PState :=
  match pending st with
  | Some a => Some (mkPState (TAtom a q :: terms st) None (inGroup st) MNormal)
  | None => None
  end.

Definition escapeItem (c : char) : option ClassItem :=
  if N.eqb c 115 then Some ISpace
  else if N.eqb c 119 then Some IWord
  else if isSyntaxChar c then Some (ILit c)
  else None.

Definition stepNormal (st : PState) (c : char) : option PState :=
  if N.eqb c BACKSLASH then Some (mkPState (flushed st) None (inGroup st) MEscape)
  else if N.eqb c STAR then quantify QStar st
  else if N.eqb c PLUS then quantify QPlus st
  else if N.eqb c LPAREN then
    if inGroup st then None
    else Some (mkPState (TOpen :: flushed st) None true MNormal)
  else if N.eqb c RPAREN then
    if inGroup st then Some (mkPState (TClose :: flushed st) None false MNormal)
    else None
  else if N.eqb c CARET then Some (mkPState (TBol :: flushed st) None (inGroup st) MNormal)
  else if N.eqb c DOLLAR then Some (mkPState (TEol :: flushed st) None (inGroup st) MNormal)
  else if N.eqb c DOT then Some (mkPState (flushed st) (Some ADot) (inGroup st) MNormal)
  else if N.eqb c LBRACKET then Some (mkPState (flushed st) None (inGroup st) MClassStart)
  else if isSyntaxChar c then None
  else Some (mkPState (flushed st) (Some (lit c)) (inGroup st) MNormal).

Definition stepClass (st : PState) (neg : bool) (items : list ClassItem) (c : char)
  : option PState :=
  if N.eqb c RBRACKET then
    Some (mkPState (terms st) (Some (ASet neg (rev items))) (inGroup st) MNormal)
  else if N.eqb c BACKSLASH then
    Some (mkPState (terms st) None (inGroup st) (MClassEscape neg items))
  else if N.eqb c MINUS then None
  else Some (mkPState (terms st) None (inGroup st) (MClass neg (ILit c :: items))).

Definition step (st : PState) (c : char) : option PState :=
  match mode st with
  | MNormal => stepNormal st c
  | MEscape =>
      match escapeItem c with
      | Some it => Some (mkPState (terms st) (Some (ASet false [it])) (inGroup st) MNormal)
      | None => None
      end
  | MClassStart =>
      if N.eqb c CARET then Some (mkPState (terms st) None (inGroup st) (MClass true []))
      else stepClass st false [] c
  | MClass neg items => stepClass st neg items c
  | MClassEscape neg items =>
      match escapeItem c with
      | Some it => Some (mkPState (terms st) None (inGroup st) (MClass neg (it :: items)))
      | None => None
      end
  end.

Definition stepO (st : option PState) (c : char) : option PState :=
  match st with
  | Some st => step st c
  | None => None
  end.

Definition finish (st : option PState) : option Regex :=
  match st with
  | Some st =>
      match mode st, inGroup st with
      | MNormal, false => Some (rev (flushed st))
      | _, _ => None
      end
  | None => None
  end.

Definition compile (pattern : jsstring) : option Regex :=
  finish (fold_left stepO pattern (Some initial)).

(** [new RegExp(pattern, flags)] *)
Definition RegExp_new (pattern : jsstring) : Outcome Regex :=
  match compile pattern with
  | Some r => Done r
  | None => Throws SyntaxError
  end.

End RegExp.

Import RegExp.

(** ** [src/parser.ts] *)

Module Parser.

Record ParsedHook : Type := mkParsedHook {
  name : jsstring;
  parameters : list jsstring;
  namespace : option jsstring
}.

(** [/^void\s+/] *)
Definition voidRe : Regex :=
  TBol :: lits (js "void") ++ [TAtom space QPlus].

(** The regex literal of [methodMatch]: from the start, a group of one or
    more word characters or dots, whitespace, an opening parenthesis, a group
    of any characters but line terminators, a closing parenthesis, the end
    (see [methodRe_source] for its text). *)
Definition methodRe : Regex :=
  [TBol; TOpen; TAtom (ASet false [IWord; ILit DOT]) QPlus; TClose;
   TAtom space QStar; TAtom (lit LPAREN) QOne;
   TOpen; TAtom ADot QStar; TClose; TAtom (lit RPAREN) QOne; TEol].

(** [/\|/g] *)
Definition barRe : Regex := [TAtom (lit BAR) QOne].

(** The body of the loop of [normalizeGenericType] on [depth] and
    [normalized]. *)
Definition normalizeStep (st : Z * jsstring) (c : char) : Z * jsstring :=
  let '(depth, normalized) := st in
  if N.eqb c LT then ((depth + 1)%Z, normalized ++ [c])
  else if N.eqb c GT then ((depth - 1)%Z, normalized ++ [c])
  else if (N.eqb c COMMA && (0 <? depth)%Z)%bool then (depth, normalized ++ [BAR])
  else (depth, normalized ++ [c]).

Definition normalizeGenericType (param : jsstring) : jsstring :=
  let normalized := snd (fold_left normalizeStep param (0%Z, [])) in
  replaceAll barRe (fun _ => [COMMA]) normalized.

(** [hookSignature.trim().replace(/^void\s+/, '')] *)
Definition cleanSignature (hookSignature : jsstring) : jsstring :=
  replaceFirst voidRe (fun _ => []) (trim hookSignature).

Definition parseParameters (paramString : jsstring) : list jsstring :=
  map (fun param => if includes LT param then normalizeGenericType param else param)
    (filter (fun param => 0 <? length param)
       (map trim (split COMMA paramString))).

Definition parseHook (hookSignature : jsstring) : Outcome ParsedHook :=
  let cleanSignature := cleanSignature hookSignature in
  match stringMatch methodRe cleanSignature with
  | None => Done (mkParsedHook cleanSignature [] None)
  | Some methodMatch =>
      fullName <- defined (group methodMatch 1) ;;
      paramString <- defined (group methodMatch 2) ;;
      let nameParts := split DOT fullName in
      let name := last nameParts [] in
      let namespace :=
        if 1 <? length nameParts then Some (join [DOT] (removelast nameParts))
        else None in
      let parameters := parseParameters paramString in
      Done (mkParsedHook name parameters namespace)
  end.

(** *** The signature checks of [parser.ts] *)

Fixpoint stringEq (a b : jsstring) : bool :=
  match a, b with
  | [], [] => true
  | x :: a', y :: b' => (N.eqb x y && stringEq a' b')%bool
  | _, _ => false
  end.

Definition basicTypes : list jsstring :=
  [js "string"; js "int"; js "bool"; js "float"; js "double"; js "decimal";
   js "byte"; js "char"; js "object"; js "dynamic"; js "var"].

(** The test of the regex literal that [isValidType] uses twice: from the
    start one of [A] to [Z], then word characters up to the end. *)
Definition isClassName (s : jsstring) : bool :=
  match s with
  | [] => false
  | c :: rest => (inRange 65%N 90%N c && forallb isWord rest)%bool
  end.

Section Types.

(** [String.prototype.toLowerCase], whose case tables are not part of the
    source. *)
Variable toLowerCase : jsstring -> jsstring.

(** [isValidType] on a type that does not end with ["[]"]. *)
Definition isValidPlainType (type : jsstring) : bool :=
  if includes LT type then
    let baseType := hd [] (split LT type) in
    isClassName baseType
  else
    (existsb (stringEq (toLowerCase type)) basicTypes || isClassName type)%bool.

(** [isValidType] on the reversed text of the type: while the type ends
    with ["[]"] the call goes on with [type.slice(0, -2)]. *)
Fixpoint isValidTypeRev (reversed : jsstring) : bool :=
  match reversed with
  | c1 :: c2 :: rest =>
      if (N.eqb c1 RBRACKET && N.eqb c2 LBRACKET)%bool then isValidTypeRev rest
      else isValidPlainType (rev reversed)
  | _ => isValidPlainType (rev reversed)
  end.

Definition isValidType (type : jsstring) : bool := isValidTypeRev (rev type).

Definition isValidParameter (param : jsstring) : bool :=
  let parts := split SPACE param in
  ((2 <=? length parts) && isValidType (hd [] parts))%bool.

Definition isValidHookSignature (signature : jsstring) : Outcome bool :=
  parsed <- parseHook signature ;;
  Done ((0 <? length (name parsed)) && forallb isValidParameter (parameters parsed))%bool.

End Types.

End Parser.

Import Parser.

(** ** [src/extension.ts]: the matcher builder and the analysis pass *)

Module Extension.

(** The regex literal that finds the regex syntax characters, a class of the
    fourteen of them (see [escapeRe_source] for its text). *)
Definition escapeRe : Regex := [TAtom (ASet false (map ILit syntaxChars)) QOne].

(** [s.replace(escapeRe, '\\$&')]: a backslash before every syntax
    character. *)
Definition escapeRegExp (s : jsstring) : jsstring :=
  replaceAll escapeRe (fun m => BACKSLASH :: full m) s.

(** The tail of the permissive pattern, a group of anything but closing
    parentheses and then a closing parenthesis (written in two pieces so
    that the text does not close a comment). *)
Definition captureTail : jsstring := js "([^)]*" ++ js ")\)".

Definition createRegexFromHook (hook : jsstring) (checkMissingParams : bool)
  : Outcome Regex :=
  parsedHook <- parseHook hook ;;
  let escapedName := escapeRegExp (name parsedHook) in
  let methodStart := js "void\s+" ++ escapedName ++ js "\s*\(" in
  if checkMissingParams then RegExp_new (methodStart ++ captureTail)
  else if 0 <? length (parameters parsedHook) then
    let paramPattern :=
      join (js "\s*,\s*")
        (map (fun param => escapeRegExp (hd [] (split SPACE param)) ++ js "\s+\w+")
           (parameters parsedHook)) in
    RegExp_new (methodStart ++ js "\s*" ++ paramPattern ++ js "\s*\)")
  else RegExp_new (methodStart ++ js "\s*\)").

Inductive DiagnosticSeverity : Type :=
| Error
| Warning
| Information
| Hint.

Record Range (Position : Type) : Type := mkRange {
  rangeStart : Position;
  rangeEnd : Position
}.

Record Diagnostic (Position : Type) : Type := mkDiagnostic {
  range : Range Position;
  message : jsstring;
  severity : DiagnosticSeverity;
  source : jsstring
}.

Record TextDocument : Type := mkTextDocument {
  languageId : jsstring;
  getText : jsstring
}.

Definition analyzerSource : jsstring := js "Rust Hook Analyzer".

(** The message of a deprecated hook; an empty [newHook] is falsy. *)
Definition deprecatedMessage (oldHook newHook : jsstring) : jsstring :=
  js "Hook " ++ [DQUOTE] ++ oldHook ++ [DQUOTE] ++ js " is deprecated." ++ [LF] ++
  (if 0 <? length newHook
   then js "Use " ++ [DQUOTE] ++ newHook ++ [DQUOTE] ++ js " instead."
   else js "No direct replacement available.").

Definition missingMessage (hookName hook : jsstring) : jsstring :=
  js "Hook " ++ [DQUOTE] ++ hookName ++ [DQUOTE] ++ js " has missing parameters." ++
  [LF] ++ js "Expected: " ++ hook.

(** [params ? params.split(',').length : 0] *)
Definition paramCount (params : jsstring) : nat :=
  if 0 <? length params then length (split COMMA params) else 0.

Section Analysis.

(** The host's [document.positionAt]. *)
Variable Position : Type.
Variable positionAt : nat -> Position.

Definition matchRange (m : Match) : Range Position :=
  let startPos := positionAt (index m) in
  let endPos := positionAt (index m + length (full m)) in
  mkRange startPos endPos.

(** The [while] loop over the matches of a deprecated hook. *)
Fixpoint deprecatedLoop (fuel : nat) (regex : Regex) (text oldHook newHook : jsstring)
    (lastIndex : nat) (diagnostics : list (Diagnostic Position))
  : Outcome (list (Diagnostic Position)) :=
  match fuel with
  | O => Diverges
  | S fuel' =>
      match exec regex text lastIndex with
      | None => Done diagnostics
      | Some m =>
          let range := matchRange m in
          let diagnostic :=
            mkDiagnostic range (deprecatedMessage oldHook newHook) Error analyzerSource in
          deprecatedLoop fuel' regex text oldHook newHook (lastIndexAfter m)
            (diagnostics ++ [diagnostic])
      end
  end.

(** The [for] loop over [Object.entries(deprecatedHooks)]. *)
Fixpoint processDeprecated (entries : list (jsstring * jsstring)) (text : jsstring)
    (diagnostics : list (Diagnostic Position))
  : Outcome (list (Diagnostic Position)) :=
  match entries with
  | [] => Done diagnostics
  | (oldHook, newHook) :: rest =>
      regex <- createRegexFromHook oldHook false ;;
      diagnostics' <-
        deprecatedLoop (S (length text)) regex text oldHook newHook 0 diagnostics ;;
      processDeprecated rest text diagnostics'
  end.

(** The state of the second pass: [diagnostics] and [validHookRanges]. *)
Definition Marks : Type := (list (Diagnostic Position) * list (Range Position))%type.

(** The body of the [while] loop over the matches of a valid hook. *)
Definition validBody (parsedHook : ParsedHook) (hook : jsstring) (m : Match)
    (st : Marks) : Outcome Marks :=
  let '(diagnostics, validHookRanges) := st in
  let range := matchRange m in
  captured <- defined (group m 1) ;;
  let params := trim captured in
  let paramCount := paramCount params in
  let diagnostics' :=
    if paramCount <? length (parameters parsedHook) then
      diagnostics ++
      [mkDiagnostic range (missingMessage (name parsedHook) hook) Warning analyzerSource]
    else diagnostics in
  Done (diagnostics', validHookRanges ++ [range]).

Fixpoint validLoop (fuel : nat) (regex : Regex) (text : jsstring)
    (parsedHook : ParsedHook) (hook : jsstring) (lastIndex : nat) (st : Marks)
  : Outcome Marks :=
  match fuel with
  | O => Diverges
  | S fuel' =>
      match exec regex text lastIndex with
      | None => Done st
      | Some m =>
          st' <- validBody parsedHook hook m st ;;
          validLoop fuel' regex text parsedHook hook (lastIndexAfter m) st'
      end
  end.

(** The [for] loop over [validHooks]. *)
Fixpoint processValid (validHooks : list jsstring) (text : jsstring) (st : Marks)
  : Outcome Marks :=
  match validHooks with
  | [] => Done st
  | hook :: rest =>
      parsedHook <- parseHook hook ;;
      regex <- createRegexFromHook hook true ;;
      st' <- validLoop (S (length text)) regex text parsedHook hook 0 st ;;
      processValid rest text st'
  end.

Fixpoint streq (a b : jsstring) : bool :=
  match a, b with
  | [], [] => true
  | x :: a', y :: b' => (N.eqb x y && streq a' b')%bool
  | _, _ => false
  end.

(** [analyzeDocument]; [deprecatedHooks] and [validHooks] are what the two
    loaders return, the first as [Object.entries] lists it. The result is
    what the pass hands to the host: the diagnostics it sets for the document
    and the ranges it decorates; [None] when the document is skipped. *)
Definition analyzeDocument (document : TextDocument)
    (deprecatedHooks : list (jsstring * jsstring)) (validHooks : list jsstring)
  : Outcome (option Marks) :=
  if negb (streq (languageId document) (js "csharp")) then Done None
  else
    let text := getText document in
    diagnostics <- processDeprecated deprecatedHooks text [] ;;
    st <- processValid validHooks text (diagnostics, []) ;;
    Done (Some st).

End Analysis.

End Extension.

Import Extension.

(** ** [src/snippets.ts]: the snippets of the valid hooks *)

Module SnippetsModule.

Record Snippet : Type := mkSnippet {
  prefix : jsstring;
  body : jsstring;
  description : jsstring
}.

(** The object [snippets]: the prototype that an assignment has put in the
    place of [Object.prototype], if any, and the own properties in the order
    in which [Object.entries] and [JSON.stringify] go through them. *)
Record Snippets : Type := mkSnippets {
  prototype : option Snippet;
  properties : list (jsstring * Snippet)
}.

(** The key of the accessor of [Object.prototype] that sets the prototype. *)
Definition protoKey : jsstring := js "__proto__".

Definition isDigit (c : char) : bool := (N.leb 48 c && N.leb c 57)%bool.

Fixpoint decimalValue (acc : N) (s : jsstring) : option N :=
  match s with
  | [] => Some acc
  | c :: s' =>
      if isDigit c then decimalValue (acc * 10 + (c - 48))%N s' else None
  end.

(** An array index: a key that is the canonical decimal text of an integer
    from 0 to 2^32 - 2. *)
Definition arrayIndex (key : jsstring) : option N :=
  match key with
  | [] => None
  | c :: rest =>
      if (N.eqb c 48 && (0 <? length rest))%bool then None
      else
        match decimalValue 0 key with
        | Some n => if N.ltb n 4294967295 then Some n else None
        | None => None
        end
  end.

Definition hasOwn (props : list (jsstring * Snippet)) (key : jsstring) : bool :=
  existsb (fun entry => stringEq (fst entry) key) props.

(** The value of an own property replaced, where the property is. *)
Definition update (props : list (jsstring * Snippet)) (key : jsstring)
    (value : Snippet) : list (jsstring * Snippet) :=
  map (fun entry => if stringEq (fst entry) key then (fst entry, value) else entry)
    props.

(** A new property whose key is the array index [n]: array indices come
    first, in ascending order. *)
Fixpoint insertIndex (n : N) (entry : jsstring * Snippet)
    (props : list (jsstring * Snippet)) : list (jsstring * Snippet) :=
  match props with
  | [] => [entry]
  | first :: rest =>
      match arrayIndex (fst first) with
      | Some m => if N.ltb m n then first :: insertIndex n entry rest
                  else entry :: props
      | None => entry :: props
      end
  end.

(** An own data property set: a property that exists keeps its place, a new
    one comes among the array indices, or after every other key. *)
Definition defineOwn (props : list (jsstring * Snippet)) (key : jsstring)
    (value : Snippet) : list (jsstring * Snippet) :=
  if hasOwn props key then update props key value
  else
    match arrayIndex key with
    | Some n => insertIndex n (key, value) props
    | None => props ++ [(key, value)]
    end.

(** [snippets[key] = value] on an object made by a literal: the key
    [__proto__] reaches the setter of [Object.prototype], which makes the
    value the prototype and creates no property; every other key is an own
    data property. *)
Definition setProp (snippets : Snippets) (key : jsstring) (value : Snippet) : Snippets :=
  if stringEq key protoKey then mkSnippets (Some value) (properties snippets)
  else mkSnippets (prototype snippets) (defineOwn (properties snippets) key value).

Fixpoint digits (u : Decimal.uint) : jsstring :=
  match u with
  | Decimal.Nil => []
  | Decimal.D0 u' => 48%N :: digits u'
  | Decimal.D1 u' => 49%N :: digits u'
  | Decimal.D2 u' => 50%N :: digits u'
  | Decimal.D3 u' => 51%N :: digits u'
  | Decimal.D4 u' => 52%N :: digits u'
  | Decimal.D5 u' => 53%N :: digits u'
  | Decimal.D6 u' => 54%N :: digits u'
  | Decimal.D7 u' => 55%N :: digits u'
  | Decimal.D8 u' => 56%N :: digits u'
  | Decimal.D9 u' => 57%N :: digits u'
  end.

(** A count in a template string: its decimal digits. *)
Definition numberToString (n : nat) : jsstring := digits (Nat.to_uint n).

(** [parameters.map((param, index) => ...)] from [index] on. *)
Fixpoint namedParameters (index : nat) (parameters : list jsstring) : list jsstring :=
  match parameters with
  | [] => []
  | param :: rest =>
      (param ++ js " param" ++ numberToString (index + 1))
      :: namedParameters (S index) rest
  end.

Definition paramsListOf (parsedHook : ParsedHook) : jsstring :=
  join (js ", ") (namedParameters 0 (parameters parsedHook)).

(** The snippet that the loop of [generateSnippets] builds for a hook. *)
Definition snippetOf (parsedHook : ParsedHook) : Snippet :=
  let paramsList := paramsListOf parsedHook in
  let hookName := name parsedHook in
  mkSnippet hookName
    (js "void " ++ hookName ++ [LPAREN] ++ paramsList ++ [RPAREN] ++ [LF] ++
     js "{" ++ [LF] ++ js "    // Hook logic here" ++ [LF] ++ js "}")
    (js "Hook with parameters " ++ paramsList).

(** The [for] loop of [generateSnippets] on the object built so far. *)
Fixpoint generateLoop (hooks : list jsstring) (snippets : Snippets) : Outcome Snippets :=
  match hooks with
  | [] => Done snippets
  | hook :: rest =>
      parsedHook <- parseHook hook ;;
      generateLoop rest (setProp snippets hook (snippetOf parsedHook))
  end.

Definition generateSnippets (hooks : list jsstring) : Outcome Snippets :=
  generateLoop hooks (mkSnippets None []).

End SnippetsModule.

Import SnippetsModule.

(** ** The specification's notions *)

Module Spec.

(** A cleaned signature of the shape <dotted-identifier>(<parameter-list>):
    the identifier is a non-empty run of word characters and dots, whitespace
    may follow it, and the parameter list, which holds no line terminator,
    runs up to the closing parenthesis that ends the text. *)
Definition MethodShape (clean fullName ws paramString : jsstring) : Prop :=
  clean = fullName ++ ws ++ [LPAREN] ++ paramString ++ [RPAREN] /\
  fullName <> [] /\
  Forall (fun c => isWord c = true \/ c = DOT) fullName /\
  Forall (fun c => isSpace c = true) ws /\
  Forall (fun c => isLineTerminator c = false) paramString.

(** The pieces between top-level commas: a comma inside an open angle
    bracket pair does not separate; an unmatched [>] leaves the depth at 0. *)
Fixpoint splitTopLevel (depth : nat) (s : jsstring) : list jsstring :=
  match s with
  | [] => [[]]
  | c :: s' =>
      if (N.eqb c COMMA && Nat.eqb depth 0)%bool then [] :: splitTopLevel depth s'
      else
        let depth' :=
          if N.eqb c LT then S depth
          else if N.eqb c GT then pred depth
          else depth in
        match splitTopLevel depth' s' with
        | piece :: rest => (c :: piece) :: rest
        | [] => [[c]]
        end
  end.

(** The parameter count of §4.3: split the captured text on top-level
    commas, trim, count the non-empty pieces. *)
Definition topLevelCount (captured : jsstring) : nat :=
  length (filter (fun piece => 0 <? length piece)
            (map trim (splitTopLevel 0 captured))).

(** The count on every comma: no piece for a text that is empty once
    trimmed, and otherwise one piece more than the trimmed text has commas,
    wherever they stand. *)
Definition everyCommaCount (captured : jsstring) : nat :=
  match trim captured with
  | [] => 0
  | _ :: _ => S (count_occ N.eq_dec (trim captured) COMMA)
  end.

(** [stripPrefix p s]: what follows [p] in [s], when [s] starts with [p]. *)
Fixpoint stripPrefix (p s : jsstring) : option jsstring :=
  match p, s with
  | [], _ => Some s
  | a :: p', c :: s' => if N.eqb c a then stripPrefix p' s' else None
  | _ :: _, [] => None
  end.

(** One leading [void] stripped with the whitespace after it, when there is
    some; a text that does not start that way is left as it is. *)
Definition stripVoid (s : jsstring) : jsstring :=
  match stripPrefix (js "void") s with
  | Some (c :: rest) => if isSpace c then dropWhile isSpace rest else s
  | _ => s
  end.

(** The cleaned signature of §4.1: the surrounding whitespace trimmed, then
    a single leading [void] stripped with the whitespace that follows it. *)
Definition cleaned (signature : jsstring) : jsstring := stripVoid (trim signature).


(** [|] put back as [,]. *)
Definition barsToCommas (s : jsstring) : jsstring :=
  map (fun c => if N.eqb c BAR then COMMA else c) s.

End Spec.

Import Spec.

(** ** Notions of the statements and of the proofs *)

(** A regex whose every match holds at least one code unit. *)
Definition consuming (r : Regex) : Prop :=
  forall caps s i res, run r caps s i = Some res -> i < endIndex res.

(** The class of the dotted identifier. *)
Definition wordOrDot : Atom := ASet false [IWord; ILit DOT].

(** [reads p ts]: read in a pattern after any atom and outside a group, the
    text [p] adds the terms [ts], and whatever follows it is again read that
    way. *)
Definition reads (p : jsstring) (ts : Regex) : Prop :=
  forall T pd, exists T' pd',
    fold_left stepO p (Some (mkPState T pd false MNormal)) =
      Some (mkPState T' pd' false MNormal) /\
    flushed (mkPState T' pd' false MNormal) =
      rev ts ++ flushed (mkPState T pd false MNormal).

(** The terms of texts joined with a separator. *)
Fixpoint joinTerms (tsep : Regex) (parts : list Regex) : Regex :=
  match parts with
  | [] => []
  | [t] => t
  | t :: rest => t ++ tsep ++ joinTerms tsep rest
  end.

(** The regexes of [createRegexFromHook], term by term. *)
Definition methodStartTerms (name : jsstring) : Regex :=
  (lits (js "void") ++ [TAtom space QPlus]) ++ lits name ++
  [TAtom space QStar; TAtom (lit LPAREN) QOne].

Definition permissiveRegex (name : jsstring) : Regex :=
  methodStartTerms name ++
  [TOpen; TAtom (ASet true [ILit RPAREN]) QStar; TClose; TAtom (lit RPAREN) QOne].

Definition paramTerms (param : jsstring) : Regex :=
  lits (hd [] (split SPACE param)) ++ [TAtom space QPlus; TAtom word QPlus].

Definition commaTerms : Regex :=
  [TAtom space QStar; TAtom (lit COMMA) QOne; TAtom space QStar].

Definition strictRegex (name : jsstring) (parameters : list jsstring) : Regex :=
  match parameters with
  | [] => methodStartTerms name ++ [TAtom space QStar; TAtom (lit RPAREN) QOne]
  | _ :: _ =>
      methodStartTerms name ++ [TAtom space QStar] ++
      joinTerms commaTerms (map paramTerms parameters) ++
      [TAtom space QStar; TAtom (lit RPAREN) QOne]
  end.

(** The occurrences of a hook in a text: the matches that the loop over
    [exec] collects with the regex built for the hook. *)
Definition occurrences (hook : jsstring) (checkMissingParams : bool)
    (text : jsstring) (ms : list Match) : Prop :=
  exists regex,
    createRegexFromHook hook checkMissingParams = Done regex /\
    execAll regex text = Done ms.

(** What a permissive occurrence of the hook [name] in [text] is: at its
    index the text reads [void], whitespace, the name, optional whitespace,
    an opening parenthesis, the captured text, which holds no closing
    parenthesis, and a closing parenthesis. *)
Definition PermissiveOccurrence (name text : jsstring) (m : Match) : Prop :=
  exists ws1 ws2 captured rest,
    skipn (index m) text = full m ++ rest /\
    full m = js "void" ++ ws1 ++ name ++ ws2 ++ [LPAREN] ++ captured ++ [RPAREN] /\
    groups m = [captured] /\
    ws1 <> [] /\
    Forall (fun c => isSpace c = true) ws1 /\
    Forall (fun c => isSpace c = true) ws2 /\
    ~ In RPAREN captured.

Section Emitted.

Variable Position : Type.
Variable positionAt : nat -> Position.

(** The diagnostic of one occurrence of a deprecated hook. *)
Definition deprecatedDiagnostic (oldHook newHook : jsstring) (m : Match)
  : Diagnostic Position :=
  mkDiagnostic (matchRange positionAt m) (deprecatedMessage oldHook newHook)
    Error analyzerSource.

(** The warning of one occurrence of a valid hook. *)
Definition missingDiagnostic (parsedHook : ParsedHook) (hook : jsstring) (m : Match)
  : Diagnostic Position :=
  mkDiagnostic (matchRange positionAt m) (missingMessage (name parsedHook) hook)
    Warning analyzerSource.

(** What the pass emits for an occurrence with [actual] parameters. *)
Definition missingDiagnostics (parsedHook : ParsedHook) (hook : jsstring)
    (m : Match) (actual : nat) : list (Diagnostic Position) :=
  if actual <? length (parameters parsedHook)
  then [missingDiagnostic parsedHook hook m]
  else [].

(** The count that the pass uses for an occurrence. *)
Definition actualCount (m : Match) : nat :=
  match group m 1 with
  | Some captured => paramCount (trim captured)
  | None => 0
  end.

End Emitted.

(** The type token of a parameter: its text up to the first space. *)
Definition typeToken (param : jsstring) : jsstring := hd [] (split SPACE param).

(** The text of one parameter as the strict regex wants it: the type token
    of the parsed parameter, whitespace, an identifier. *)
Definition ParamText (param text : jsstring) : Prop :=
  exists ws identifier,
    text = typeToken param ++ ws ++ identifier /\
    ws <> [] /\ Forall (fun c => isSpace c = true) ws /\
    identifier <> [] /\ Forall (fun c => isWord c = true) identifier.

(** A comma with optional whitespace around it. *)
Definition CommaText (text : jsstring) : Prop :=
  exists ws1 ws2,
    text = ws1 ++ [COMMA] ++ ws2 /\
    Forall (fun c => isSpace c = true) ws1 /\
    Forall (fun c => isSpace c = true) ws2.

(** The text of the parameters, one after the other. *)
Fixpoint ParamsText (parameters : list jsstring) (text : jsstring) : Prop :=
  match parameters with
  | [] => text = []
  | param :: rest =>
      match rest with
      | [] => ParamText param text
      | _ :: _ =>
          exists first comma others,
            text = first ++ comma ++ others /\
            ParamText param first /\ CommaText comma /\ ParamsText rest others
      end
  end.

(** What a strict occurrence of a parsed hook in [text] is: at its index
    the text reads [void], whitespace, the name, an opening parenthesis,
    the parameters with the type tokens of the hook, a closing parenthesis,
    with optional whitespace around the parentheses. *)
Definition StrictOccurrence (parsedHook : ParsedHook) (text : jsstring) (m : Match)
  : Prop :=
  exists ws1 ws2 ws3 args ws4 rest,
    skipn (index m) text = full m ++ rest /\
    full m = js "void" ++ ws1 ++ name parsedHook ++ ws2 ++ [LPAREN] ++
             ws3 ++ args ++ ws4 ++ [RPAREN] /\
    groups m = [] /\
    ws1 <> [] /\
    Forall (fun c => isSpace c = true) ws1 /\
    Forall (fun c => isSpace c = true) ws2 /\
    Forall (fun c => isSpace c = true) ws3 /\
    Forall (fun c => isSpace c = true) ws4 /\
    ParamsText (parameters parsedHook) args.

(** A key that names a property and is no array index. *)
Definition isNamedKey (key : jsstring) : bool :=
  match arrayIndex key with
  | Some _ => false
  | None => negb (stringEq key protoKey)
  end.

(** The texts of a list, each once, in the order of their first
    occurrences. *)
Definition firstOccurrences (l : list jsstring) : list jsstring :=
  rev (nodup (list_eq_dec N.eq_dec) (rev l)).

(** Two array indices, the first below the second. *)
Definition indexBefore (a b : jsstring) : Prop :=
  match arrayIndex a, arrayIndex b with
  | Some m, Some n => (m < n)%N
  | _, _ => False
  end.

(** The snippet that the hook [__proto__] gets. *)
Definition protoSnippet : Snippet := snippetOf (mkParsedHook protoKey [] None).

(** The object that the hooks of a list leave: its keys are the hooks that
    are array indices, in ascending order, and then the other hooks but
    [__proto__], in the order of their first occurrences; every property
    holds the snippet of its key; the hook [__proto__] only sets the
    prototype. *)
Definition SnippetsOf (hooks : list jsstring) (snippets : Snippets) : Prop :=
  exists indexKeys,
    map fst (properties snippets) =
      indexKeys ++ firstOccurrences (filter isNamedKey hooks) /\
    (forall key, In key indexKeys <-> In key hooks /\ arrayIndex key <> None) /\
    StronglySorted indexBefore indexKeys /\
    (forall key value,
        In (key, value) (properties snippets) ->
        exists parsedHook,
          parseHook key = Done parsedHook /\ value = snippetOf parsedHook) /\
    prototype snippets =
      (if existsb (stringEq protoKey) hooks then Some protoSnippet else None).

(** [toLowerCase] on the letters [A] to [Z]. *)
Definition asciiToLowerCase (s : jsstring) : jsstring :=
  map (fun c => if inRange 65%N 90%N c then (c + 32)%N else c) s.

(** Matches in the order of the text, from index [from] on: each one is a
    non-empty piece of the text at its index, inside the text, and starts
    where the one before ends or later. *)
Fixpoint inOrderFrom (text : jsstring) (from : nat) (ms : list Match) : Prop :=
  match ms with
  | [] => True
  | m :: rest =>
      from <= index m /\
      0 < length (full m) /\
      index m + length (full m) <= length text /\
      firstn (length (full m)) (skipn (index m) text) = full m /\
      inOrderFrom text (index m + length (full m)) rest
  end.

(** * Properties *)

(** ** Strings *)

Lemma split_nonempty (sep : char) (s : jsstring) : split sep s <> [].
Proof.
  destruct s as [|c s]; simpl; [discriminate|].
  destruct (N.eqb c sep); [discriminate|].
  destruct (split sep s); discriminate.
Qed.

Lemma split_length (sep : char) (s : jsstring) :
  length (split sep s) = S (count_occ N.eq_dec s sep).
Proof.
  induction s as [|c s IH]; simpl; [reflexivity|].
  destruct (N.eqb_spec c sep) as [E|E].
  - destruct (N.eq_dec c sep); [|contradiction]. simpl. now rewrite IH.
  - destruct (N.eq_dec c sep); [contradiction|].
    destruct (split sep s) eqn:Es; [now apply split_nonempty in Es|].
    simpl in *. exact IH.
Qed.

(** No piece of a split holds the separator. *)
Lemma split_no_sep (sep : char) (s : jsstring) :
  Forall (fun piece => ~ In sep piece) (split sep s).
Proof.
  induction s as [|c s IH]; simpl.
  - constructor; [intros []|constructor].
  - destruct (N.eqb_spec c sep) as [E|E].
    + constructor; [intros []|exact IH].
    + destruct (split sep s) as [|piece rest].
      * constructor; [|constructor]. intros [H|[]]. congruence.
      * inversion IH; subst. constructor; [|assumption].
        intros [H|H]; [congruence|contradiction].
Qed.

Lemma split_without_sep (sep : char) (s : jsstring) :
  ~ In sep s -> split sep s = [s].
Proof.
  induction s as [|c s IH]; simpl; intros H; [reflexivity|].
  destruct (N.eqb_spec c sep) as [E|E]; [exfalso; auto|].
  rewrite IH; auto.
Qed.

Lemma split_app_sep (sep : char) (a b : jsstring) :
  ~ In sep b -> split sep (a ++ sep :: b) = split sep a ++ [b].
Proof.
  intros Hb. induction a as [|c a IH]; simpl.
  - rewrite N.eqb_refl. now rewrite split_without_sep.
  - destruct (N.eqb_spec c sep) as [E|E].
    + now rewrite IH.
    + rewrite IH. destruct (split sep a) eqn:Ea; [now apply split_nonempty in Ea|].
      reflexivity.
Qed.

Lemma join_split (sep : char) (s : jsstring) : join [sep] (split sep s) = s.
Proof.
  induction s as [|c s IH]; simpl; [reflexivity|].
  destruct (N.eqb_spec c sep) as [E|E].
  - subst c. destruct (split sep s) eqn:Es; [now apply split_nonempty in Es|].
    simpl in *. now rewrite IH.
  - destruct (split sep s) as [|piece rest] eqn:Es; [now apply split_nonempty in Es|].
    destruct rest; simpl in *; now rewrite <- IH.
Qed.

Lemma dropWhile_incl (p : char -> bool) (s : jsstring) (c : char) :
  In c (dropWhile p s) -> In c s.
Proof.
  induction s as [|d s IH]; simpl; [auto|].
  destruct (p d); simpl; auto.
Qed.

Lemma trim_incl (s : jsstring) (c : char) : In c (trim s) -> In c s.
Proof.
  unfold trim, trimEnd, trimStart. intros H.
  apply in_rev in H. apply dropWhile_incl in H. apply in_rev in H.
  now apply dropWhile_incl in H.
Qed.

Lemma firstn_exact (A : Type) (l r : list A) (n : nat) :
  n = length l -> firstn n (l ++ r) = l.
Proof.
  intros ->. induction l; simpl; [now destruct r|now f_equal].
Qed.

Lemma skipn_exact (A : Type) (l r : list A) (n : nat) :
  n = length l -> skipn n (l ++ r) = r.
Proof.
  intros ->. induction l; simpl; auto.
Qed.

(** ** The matcher *)

Section Greedy.

Variable a : Atom.
Variable k : jsstring -> nat -> option Result.

Lemma greedy_stop (s : jsstring) (i : nat) :
  match s with [] => True | c :: _ => atomMatches a c = false end ->
  greedy a k s i = k s i.
Proof.
  destruct s as [|c s]; simpl; [reflexivity|]. now intros ->.
Qed.

(** What the quantifier finds after the longest run is what it returns. *)
Lemma greedy_take (pre s : jsstring) (i : nat) (r : Result) :
  Forall (fun c => atomMatches a c = true) pre ->
  greedy a k s (length pre + i) = Some r ->
  greedy a k (pre ++ s) i = Some r.
Proof.
  intros Hpre. revert i.
  induction Hpre as [|c pre Hc _ IH]; intros i H; simpl in *; [exact H|].
  rewrite Hc, (IH (S i)); [reflexivity|].
  now rewrite Nat.add_succ_r.
Qed.

(** One code unit given back: the run reaches the end of the text, the rest
    of the pattern fails there and succeeds one code unit earlier. *)
Lemma greedy_last (pre : jsstring) (c : char) (i : nat) (r : Result) :
  Forall (fun c => atomMatches a c = true) pre ->
  atomMatches a c = true ->
  k [] (S (length pre + i)) = None ->
  k [c] (length pre + i) = Some r ->
  greedy a k (pre ++ [c]) i = Some r.
Proof.
  intros Hpre Hc. revert i.
  induction Hpre as [|d pre Hd _ IH]; intros i Hnone Hsome; simpl in *.
  - now rewrite Hc, Hnone.
  - rewrite Hd, (IH (S i)); [reflexivity| |]; now rewrite Nat.add_succ_r.
Qed.

(** A success of the quantifier is a success of the rest of the pattern
    after some run of matching code units. *)
Lemma greedy_inv (s : jsstring) (i : nat) (r : Result) :
  greedy a k s i = Some r ->
  exists pre rest,
    s = pre ++ rest /\
    Forall (fun c => atomMatches a c = true) pre /\
    k rest (length pre + i) = Some r.
Proof.
  revert i. induction s as [|c s IH]; intros i H; simpl in H.
  - exists [], []. auto.
  - destruct (atomMatches a c) eqn:Hc.
    + destruct (greedy a k s (S i)) as [r'|] eqn:Hg.
      * injection H as <-. destruct (IH _ Hg) as (pre & rest & -> & Hpre & Hk).
        exists (c :: pre), rest. repeat split; [now constructor|].
        simpl. now rewrite Nat.add_succ_r in Hk.
      * exists [], (c :: s). auto.
    + exists [], (c :: s). auto.
Qed.

End Greedy.

(** A match ends inside the text, at or after its start. *)
Lemma run_bounds (r : Regex) :
  forall caps s i res,
    run r caps s i = Some res ->
    i <= endIndex res <= i + length s.
Proof.
  induction r as [|t r IH]; intros caps s i res H; simpl in H.
  - injection H as <-. simpl. lia.
  - destruct t as [a [| |]| | | |].
    + destruct s as [|c s]; [discriminate|].
      destruct (atomMatches a c); [|discriminate].
      apply IH in H. simpl. lia.
    + apply greedy_inv in H. destruct H as (pre & rest & -> & _ & H).
      apply IH in H. rewrite length_app. lia.
    + destruct s as [|c s]; [discriminate|].
      destruct (atomMatches a c); [|discriminate].
      apply greedy_inv in H. destruct H as (pre & rest & -> & _ & H).
      apply IH in H. simpl. rewrite length_app. lia.
    + destruct (Nat.eqb i 0); [|discriminate]. eauto.
    + destruct s; [|discriminate]. eauto.
    + eauto.
    + destruct (opened caps) as [[i0 s0]|]; [|discriminate]. eauto.
Qed.

Lemma consuming_atom (a : Atom) (r : Regex) : consuming (TAtom a QOne :: r).
Proof.
  intros caps s i res H. simpl in H.
  destruct s as [|c s]; [discriminate|].
  destruct (atomMatches a c); [|discriminate].
  apply run_bounds in H. lia.
Qed.

Lemma matchHere_index (r : Regex) (s : jsstring) (i : nat) (m : Match) :
  matchHere r s i = Some m -> index m = i.
Proof.
  unfold matchHere. destruct (run r noCaps s i); [|discriminate].
  now intros [= <-].
Qed.

Lemma matchHere_end (r : Regex) (s : jsstring) (i : nat) (m : Match) :
  matchHere r s i = Some m ->
  exists res, run r noCaps s i = Some res /\
    lastIndexAfter m = endIndex res /\ groups m = captures res.
Proof.
  unfold matchHere. destruct (run r noCaps s i) as [res|] eqn:H; [|discriminate].
  intros [= <-]. exists res. split; [reflexivity|].
  apply run_bounds in H. unfold lastIndexAfter. simpl.
  rewrite length_firstn. split; [lia|reflexivity].
Qed.

(** What [search] returns is a match at some index of the text. *)
Lemma search_inv (r : Regex) (s : jsstring) :
  forall i m, search r s i = Some m ->
    exists pre rest, s = pre ++ rest /\ matchHere r rest (length pre + i) = Some m.
Proof.
  induction s as [|c s IH]; intros i m H; simpl in H.
  - destruct (matchHere r [] i) eqn:Hm; [|discriminate].
    injection H as <-. exists [], []. auto.
  - destruct (matchHere r (c :: s) i) eqn:Hm.
    + injection H as <-. exists [], (c :: s). auto.
    + apply IH in H. destruct H as (pre & rest & -> & H).
      exists (c :: pre), rest. split; [reflexivity|].
      simpl. now rewrite Nat.add_succ_r in H.
Qed.

Lemma exec_inv (r : Regex) (text : jsstring) (lastIndex : nat) (m : Match) :
  exec r text lastIndex = Some m ->
  exists rest, matchHere r rest (index m) = Some m /\
    lastIndex <= index m /\ index m + length rest = length text /\
    rest = skipn (index m) text.
Proof.
  unfold exec. destruct (Nat.ltb_spec (length text) lastIndex) as [Hlt|Hle]; [discriminate|].
  intros H. apply search_inv in H. destruct H as (pre & rest & E & H).
  pose proof (matchHere_index _ _ _ H) as Hi. rewrite <- Hi in H.
  exists rest. split; [exact H|].
  assert (length (skipn lastIndex text) = length pre + length rest)
    by (now rewrite E, length_app).
  rewrite length_skipn in *.
  repeat split; [lia|lia|].
  rewrite Hi, <- skipn_skipn, E. symmetry. now apply skipn_exact.
Qed.

Lemma search_here (r : Regex) (s : jsstring) (i : nat) (m : Match) :
  matchHere r s i = Some m -> search r s i = Some m.
Proof.
  intros H. destruct s; simpl; now rewrite H.
Qed.

(** Every match an [exec] loop collects has a property that every match of
    the regex in the text has. *)
Lemma execLoop_Forall (P : Match -> Prop) (r : Regex) (text : jsstring) :
  (forall m, matchHere r (skipn (index m) text) (index m) = Some m -> P m) ->
  forall fuel lastIndex ms,
    execLoop fuel r text lastIndex = Done ms -> Forall P ms.
Proof.
  intros HP. induction fuel as [|fuel IH]; intros lastIndex ms H; simpl in H.
  - discriminate.
  - destruct (exec r text lastIndex) as [m|] eqn:He.
    + destruct (execLoop fuel r text (lastIndexAfter m)) as [ms'| |] eqn:Hl;
        simpl in H; try discriminate.
      injection H as <-. constructor; [|eauto].
      apply exec_inv in He. destruct He as (rest & He & _ & _ & ->). eauto.
    + injection H as <-. constructor.
Qed.

(** The [exec] loop of a consuming regex ends: each round moves [lastIndex]
    forward, and never past the end of the text. *)
Lemma execLoop_total (r : Regex) (text : jsstring) :
  consuming r ->
  forall fuel lastIndex,
    lastIndex <= length text < fuel + lastIndex ->
    exists ms, execLoop fuel r text lastIndex = Done ms.
Proof.
  intros Hr. induction fuel as [|fuel IH]; intros lastIndex Hlen; simpl.
  - lia.
  - destruct (exec r text lastIndex) as [m|] eqn:He; [|eauto].
    pose proof (exec_inv _ _ _ He) as (rest & Hm & Hge & Hrest).
    apply matchHere_end in Hm. destruct Hm as (res & Hrun & Hend & _).
    pose proof (run_bounds _ _ _ _ Hrun) as Hb.
    apply Hr in Hrun.
    destruct (IH (lastIndexAfter m)) as [ms Hms]; [lia|].
    rewrite Hms. simpl. eauto.
Qed.

Lemma execAll_total (r : Regex) (text : jsstring) :
  consuming r -> exists ms, execAll r text = Done ms.
Proof.
  intros Hr. apply execLoop_total; [exact Hr|lia].
Qed.

(** More rounds than the loop needs change nothing. *)
Lemma execLoop_more_fuel (r : Regex) (text : jsstring) :
  forall fuel fuel' lastIndex ms,
    execLoop fuel r text lastIndex = Done ms ->
    fuel <= fuel' ->
    execLoop fuel' r text lastIndex = Done ms.
Proof.
  induction fuel as [|fuel IH]; intros fuel' lastIndex ms H Hle; simpl in H.
  - discriminate.
  - destruct fuel' as [|fuel']; [lia|]. simpl.
    destruct (exec r text lastIndex) as [m|]; [|exact H].
    destruct (execLoop fuel r text (lastIndexAfter m)) as [ms'| |] eqn:Hl;
      simpl in H; try discriminate.
    rewrite (IH fuel' _ _ Hl) by lia. exact H.
Qed.

(** [exec] finds a match again from the index of the match. *)
Lemma exec_again (r : Regex) (text : jsstring) (lastIndex : nat) (m : Match) :
  exec r text lastIndex = Some m -> exec r text (index m) = Some m.
Proof.
  intros H. apply exec_inv in H. destruct H as (rest & Hm & _ & Hlen & ->).
  unfold exec. destruct (Nat.ltb_spec (length text) (index m)) as [Hlt|_]; [lia|].
  now apply search_here.
Qed.

(** A round that leaves [lastIndex] where it was is repeated for ever. *)
Lemma empty_match_diverges (r : Regex) (text : jsstring) (lastIndex : nat) (m : Match) :
  exec r text lastIndex = Some m ->
  lastIndexAfter m = lastIndex ->
  forall fuel, execLoop fuel r text lastIndex = Diverges.
Proof.
  intros He Hend. induction fuel as [|fuel IH]; simpl; [reflexivity|].
  now rewrite He, Hend, IH.
Qed.

(** The rounds that [execAll] allows are enough: a loop that ends with any
    number of rounds ends within [length text + 1 - lastIndex] rounds. *)
Lemma execLoop_fuel_enough (r : Regex) (text : jsstring) :
  forall fuel lastIndex ms,
    execLoop fuel r text lastIndex = Done ms ->
    lastIndex <= length text ->
    execLoop (S (length text) - lastIndex) r text lastIndex = Done ms.
Proof.
  induction fuel as [|fuel IH]; intros lastIndex ms H Hle; [discriminate|].
  pose proof H as Hall. simpl in H.
  replace (S (length text) - lastIndex) with (S (length text - lastIndex)) by lia.
  simpl.
  destruct (exec r text lastIndex) as [m|] eqn:He; [|exact H].
  destruct (execLoop fuel r text (lastIndexAfter m)) as [ms'| |] eqn:Hl;
    simpl in H; try discriminate.
  pose proof (exec_inv _ _ _ He) as (rest & Hm & Hge & Hlen & _).
  apply matchHere_end in Hm. destruct Hm as (res & Hrun & Hend & _).
  apply run_bounds in Hrun.
  assert (Hmove : lastIndex < lastIndexAfter m).
  { destruct (Nat.eq_dec (lastIndexAfter m) lastIndex) as [E|E]; [|lia].
    rewrite (empty_match_diverges _ _ He E) in Hall. discriminate. }
  apply IH in Hl; [|lia].
  rewrite (execLoop_more_fuel _ _ _ Hl) by lia. exact H.
Qed.

Lemma execAll_complete (r : Regex) (text : jsstring) (fuel : nat) (ms : list Match) :
  execLoop fuel r text 0 = Done ms -> execAll r text = Done ms.
Proof.
  intros H. apply execLoop_fuel_enough in H; [|lia].
  now rewrite Nat.sub_0_r in H.
Qed.

(** A regex that starts with [^] matches at index 0 or nowhere. *)
Lemma stringMatch_anchored (r : Regex) (s : jsstring) :
  stringMatch (TBol :: r) s = matchHere (TBol :: r) s 0.
Proof.
  unfold stringMatch, exec. simpl Nat.ltb. cbv iota. rewrite skipn_O.
  destruct (matchHere (TBol :: r) s 0) as [m|] eqn:H0.
  - now apply search_here.
  - destruct (search (TBol :: r) s 0) as [m|] eqn:Hs; [|reflexivity].
    apply search_inv in Hs. destruct Hs as (pre & rest & -> & Hm).
    destruct pre as [|c pre]; [simpl in Hm, H0; congruence|].
    unfold matchHere in Hm. simpl in Hm. discriminate.
Qed.

(** A global replace with a regex of one atom rewrites the matching code
    units one by one. *)
Lemma replaceAll_atom (a : Atom) (repl : Match -> jsstring)
    (g : jsstring -> jsstring) (s : jsstring) :
  (forall m, repl m = g (full m)) ->
  replaceAll [TAtom a QOne] repl s =
  flat_map (fun c => if atomMatches a c then g [c] else [c]) s.
Proof.
  intros Hrepl. unfold replaceAll.
  enough (forall i, replaceFrom [TAtom a QOne] repl s i 0 =
            flat_map (fun c => if atomMatches a c then g [c] else [c]) s) by auto.
  induction s as [|c s IH]; intros i.
  - reflexivity.
  - simpl. unfold matchHere. simpl.
    destruct (atomMatches a c).
    + rewrite Hrepl. simpl.
      replace (match i with 0 => S i | S l => i - l end) with 1 by (destruct i; lia).
      simpl. now rewrite IH.
    + simpl. now rewrite IH.
Qed.

(** ** The regex literals of the source

    Each regex value above is what its literal in the source reads as. (The
    text of [methodRe] is written in two pieces so that it does not close a
    comment.) *)

Lemma voidRe_source : compile (js "^void\s+") = Some voidRe.
Proof. reflexivity. Qed.

Lemma methodRe_source :
  compile (js "^([\w.]+)\s*\((.*" ++ js ")\)$") = Some methodRe.
Proof. reflexivity. Qed.

Lemma barRe_source : compile (js "\|") = Some barRe.
Proof. reflexivity. Qed.

Lemma escapeRe_source : compile (js "[.*+?^${}()|[\]\\]") = Some escapeRe.
Proof. reflexivity. Qed.

(** ** The shape of a signature *)

Lemma wordOrDot_spec (c : char) :
  atomMatches wordOrDot c = true <-> isWord c = true \/ c = DOT.
Proof.
  unfold wordOrDot. simpl. rewrite orb_false_r, orb_true_iff, N.eqb_eq. tauto.
Qed.

Lemma space_spec (c : char) : atomMatches space c = isSpace c.
Proof. unfold space. simpl. now rewrite orb_false_r. Qed.

Lemma space_not_wordOrDot (c : char) :
  isSpace c = true -> atomMatches wordOrDot c = false.
Proof.
  intros H. destruct (atomMatches wordOrDot c) eqn:E; [|reflexivity].
  apply wordOrDot_spec in E. exfalso.
  destruct E as [E| ->]; [|discriminate].
  unfold isSpace, isWord, inRange in *.
  repeat rewrite ?orb_true_iff, ?andb_true_iff, ?N.leb_le, ?N.eqb_eq in *.
  lia.
Qed.

(** A text of the shape is matched, and the two groups are the identifier
    and the parameter list. *)
Lemma methodRe_complete (clean fullName ws paramString : jsstring) :
  MethodShape clean fullName ws paramString ->
  stringMatch methodRe clean = Some (mkMatch 0 clean [fullName; paramString]).
Proof.
  intros (-> & Hne & Hname & Hws & Hparams).
  unfold methodRe. rewrite stringMatch_anchored. fold methodRe.
  enough (exists res,
    run methodRe noCaps (fullName ++ ws ++ [LPAREN] ++ paramString ++ [RPAREN]) 0 = Some res /\
    captures res = [fullName; paramString] /\
    endIndex res = length (fullName ++ ws ++ [LPAREN] ++ paramString ++ [RPAREN]))
    as (res & Hrun & Hcap & Hend).
  { unfold matchHere. rewrite Hrun, Hcap, Hend, Nat.sub_0_r, firstn_all. reflexivity. }
  destruct fullName as [|ch pre]; [contradiction|].
  inversion Hname as [|? ? Hch Hpre]; subst.
  apply wordOrDot_spec in Hch.
  eexists. split.
  - unfold methodRe. cbn [run Nat.eqb app closed opened noCaps].
    fold wordOrDot. rewrite Hch.
    apply greedy_take.
    { eapply Forall_impl; [|exact Hpre]. intros c. apply wordOrDot_spec. }
    rewrite greedy_stop.
    2:{ destruct ws as [|w ws']; simpl app; cbv iota.
        - reflexivity.
        - inversion Hws; subst. now apply space_not_wordOrDot. }
    cbv beta. apply greedy_take.
    { eapply Forall_impl; [|exact Hws]. intros c Hc. now rewrite space_spec. }
    rewrite greedy_stop by reflexivity.
    cbv beta. change (atomMatches (lit LPAREN) LPAREN) with true. cbv iota.
    apply greedy_last.
    { eapply Forall_impl; [|exact Hparams]. intros c Hc. simpl. now rewrite Hc. }
    { reflexivity. }
    { reflexivity. }
    cbv beta iota. change (atomMatches (lit RPAREN) RPAREN) with true. cbv iota.
    reflexivity.
  - cbn [captures endIndex]. split.
    + f_equal; [|f_equal].
      * change (ch :: pre ++ ws ++ LPAREN :: paramString ++ [RPAREN])
          with ((ch :: pre) ++ ws ++ LPAREN :: paramString ++ [RPAREN]).
        apply firstn_exact. simpl. lia.
      * apply firstn_exact. lia.
    + simpl. rewrite !length_app. simpl. rewrite !length_app. simpl. lia.
Qed.

(** A match is a text of the shape. *)
Lemma methodRe_sound (clean : jsstring) (m : Match) :
  stringMatch methodRe clean = Some m ->
  exists fullName ws paramString,
    MethodShape clean fullName ws paramString /\
    m = mkMatch 0 clean [fullName; paramString].
Proof.
  intros H.
  enough (exists fullName ws paramString, MethodShape clean fullName ws paramString)
    as (fullName & ws & paramString & Hshape).
  { exists fullName, ws, paramString. split; [exact Hshape|].
    apply methodRe_complete in Hshape. congruence. }
  unfold methodRe in H. rewrite stringMatch_anchored in H. fold methodRe in H.
  unfold matchHere in H.
  destruct (run methodRe noCaps clean 0) as [res|] eqn:Hrun; [clear H|discriminate].
  unfold methodRe in Hrun. cbn [run Nat.eqb closed opened noCaps] in Hrun.
  fold wordOrDot in Hrun.
  destruct clean as [|ch s]; [discriminate|].
  destruct (atomMatches wordOrDot ch) eqn:Hch; [|discriminate].
  apply greedy_inv in Hrun. destruct Hrun as (pre & s1 & -> & Hpre & Hrun).
  apply greedy_inv in Hrun. destruct Hrun as (ws & s2 & -> & Hws & Hrun).
  destruct s2 as [|c2 s2]; [discriminate|].
  destruct (atomMatches (lit LPAREN) c2) eqn:Hc2; [|discriminate].
  apply greedy_inv in Hrun. destruct Hrun as (ps & s3 & -> & Hps & Hrun).
  destruct s3 as [|c3 s3]; [discriminate|].
  destruct (atomMatches (lit RPAREN) c3) eqn:Hc3; [|discriminate].
  destruct s3; [|discriminate].
  simpl in Hc2, Hc3. rewrite orb_false_r, N.eqb_eq in Hc2, Hc3. subst c2 c3.
  exists (ch :: pre), ws, ps. repeat split.
  - discriminate.
  - constructor; [now apply wordOrDot_spec|].
    eapply Forall_impl; [|exact Hpre]. intros c. apply wordOrDot_spec.
  - eapply Forall_impl; [|exact Hws]. intros c Hc. now rewrite <- space_spec.
  - eapply Forall_impl; [|exact Hps]. intros c Hc. simpl in Hc.
    now destruct (isLineTerminator c).
Qed.

(** ** [parseHook] *)

Lemma parseHook_of_shape (hookSignature fullName ws paramString : jsstring) :
  MethodShape (cleanSignature hookSignature) fullName ws paramString ->
  parseHook hookSignature =
  Done (mkParsedHook
          (last (split DOT fullName) [])
          (parseParameters paramString)
          (if 1 <? length (split DOT fullName)
           then Some (join [DOT] (removelast (split DOT fullName)))
           else None)).
Proof.
  intros H. unfold parseHook. now rewrite (methodRe_complete H).
Qed.

Lemma parseHook_degraded (hookSignature : jsstring) :
  (forall fullName ws paramString,
      ~ MethodShape (cleanSignature hookSignature) fullName ws paramString) ->
  parseHook hookSignature = Done (mkParsedHook (cleanSignature hookSignature) [] None).
Proof.
  intros H. unfold parseHook.
  destruct (stringMatch methodRe (cleanSignature hookSignature)) as [m|] eqn:Hm;
    [|reflexivity].
  apply methodRe_sound in Hm. destruct Hm as (f & w & p & Hshape & _).
  now apply H in Hshape.
Qed.

Lemma parseHook_total (hookSignature : jsstring) :
  exists parsed, parseHook hookSignature = Done parsed.
Proof.
  unfold parseHook.
  destruct (stringMatch methodRe (cleanSignature hookSignature)) as [m|] eqn:Hm;
    [|eauto].
  apply methodRe_sound in Hm. destruct Hm as (f & w & p & _ & ->).
  simpl. eauto.
Qed.

(** The loop of [normalizeGenericType] copies a text without commas. *)
Lemma normalize_loop_no_comma (param : jsstring) :
  ~ In COMMA param ->
  forall depth normalized,
    snd (fold_left normalizeStep param (depth, normalized)) = normalized ++ param.
Proof.
  induction param as [|c param IH]; intros Hc depth normalized; simpl.
  - now rewrite app_nil_r.
  - assert (Hne : N.eqb c COMMA = false) by (apply N.eqb_neq; intros ->; simpl in Hc; auto).
    assert (Hrest : ~ In COMMA param) by (simpl in Hc; auto).
    rewrite Hne. simpl.
    destruct (N.eqb c LT); [|destruct (N.eqb c GT)];
      rewrite IH by assumption; now rewrite <- app_assoc.
Qed.

Lemma replace_bars (s : jsstring) :
  replaceAll barRe (fun _ => [COMMA]) s = barsToCommas s.
Proof.
  unfold barRe. rewrite replaceAll_atom with (g := fun _ => [COMMA]) by reflexivity.
  unfold barsToCommas. induction s as [|c s IH]; [reflexivity|].
  cbn [flat_map map]. rewrite IH. simpl. rewrite orb_false_r.
  now destruct (N.eqb c BAR).
Qed.

(** On a text without commas, all that [normalizeGenericType] does is turn
    every [|] into a comma. *)
Lemma normalizeGenericType_no_comma (param : jsstring) :
  ~ In COMMA param -> normalizeGenericType param = barsToCommas param.
Proof.
  intros H. unfold normalizeGenericType.
  now rewrite normalize_loop_no_comma, replace_bars.
Qed.

Lemma parseParameters_pieces (paramString : jsstring) :
  parseParameters paramString =
  map (fun piece => if includes LT piece then barsToCommas piece else piece)
    (filter (fun piece => 0 <? length piece) (map trim (split COMMA paramString))).
Proof.
  unfold parseParameters. apply map_ext_in. intros piece Hin.
  destruct (includes LT piece); [|reflexivity].
  apply normalizeGenericType_no_comma.
  apply filter_In in Hin. destruct Hin as [Hin _].
  apply in_map_iff in Hin. destruct Hin as (raw & <- & Hraw).
  intros Hc. apply trim_incl in Hc.
  pose proof (split_no_sep COMMA paramString) as Hall.
  rewrite Forall_forall in Hall. exact (Hall _ Hraw Hc).
Qed.

(** A text holds no separator, or it has a last one. *)
Lemma last_separator (sep : char) (s : jsstring) :
  ~ In sep s \/
  exists before after, s = before ++ sep :: after /\ ~ In sep after.
Proof.
  induction s as [|c s IH]; [left; intros []|].
  destruct IH as [Hno|(before & after & -> & Hno)].
  - destruct (N.eq_dec c sep) as [->|Hne].
    + right. exists [], s. auto.
    + left. intros [H|H]; auto.
  - right. exists (c :: before), after. auto.
Qed.

(** The last piece of a split is the text after the last separator. *)
Lemma last_split (sep : char) (s : jsstring) :
  exists pre,
    s = pre ++ last (split sep s) [] /\
    ~ In sep (last (split sep s) []) /\
    (pre = [] \/ exists before, pre = before ++ [sep]).
Proof.
  destruct (last_separator sep s) as [Hno|(before & after & -> & Hno)].
  - exists []. rewrite split_without_sep by assumption. simpl. auto.
  - exists (before ++ [sep]).
    rewrite split_app_sep, last_last by assumption.
    repeat split; [now rewrite <- app_assoc|assumption|eauto].
Qed.

Ltac concrete_Forall :=
  repeat first
    [ apply Forall_nil
    | apply Forall_cons; [first [reflexivity | left; reflexivity | right; reflexivity]|] ].

Ltac concrete_shape :=
  unfold MethodShape;
  split; [reflexivity|];
  split; [discriminate|];
  split; [concrete_Forall|];
  split; concrete_Forall.

(** C1 (the code departs from the claim). The parameter list is split on
    every comma before the generic normalization runs on the pieces, so the
    comma inside the angle brackets separates: the signature of the claim
    yields three parameters, while its parameter list has two top-level
    segments. *)
Theorem parseHook_generic_commas :
  parseHook (js "void Foo(Dictionary<string, int> a, bool b)") =
    Done (mkParsedHook (js "Foo")
            [js "Dictionary<string"; js "int> a"; js "bool b"] None) /\
  splitTopLevel 0 (js "Dictionary<string, int> a, bool b") =
    [js "Dictionary<string, int> a"; js " bool b"].
Proof.
  split; reflexivity.
Qed.

(** C8. When the cleaned signature is of the shape
    <dotted-identifier>(<parameter-list>), the dotted identifier is split on
    [.]; the last segment is the name, and the namespace is the segments
    before it joined by [.] when there is more than one segment, and absent
    otherwise. *)
Theorem parseHook_name_and_namespace :
  (forall hookSignature fullName ws paramString,
      MethodShape (cleanSignature hookSignature) fullName ws paramString ->
      exists parsed,
        parseHook hookSignature = Done parsed /\
        name parsed = last (split DOT fullName) [] /\
        namespace parsed =
          (if 1 <? length (split DOT fullName)
           then Some (join [DOT] (removelast (split DOT fullName)))
           else None)) /\
  parseHook (js "void NS.Sub.Baz(int x)") =
    Done (mkParsedHook (js "Baz") [js "int x"] (Some (js "NS.Sub"))).
Proof.
  split; [|reflexivity].
  intros hookSignature fullName ws paramString H.
  eexists. split; [exact (parseHook_of_shape _ H)|]. split; reflexivity.
Qed.

Lemma parseHook_name_and_namespace_witness :
  exists parsed,
    parseHook (js "void NS.Sub.Baz (int x)") = Done parsed /\
    name parsed = js "Baz" /\ namespace parsed = Some (js "NS.Sub").
Proof.
  apply (proj1 parseHook_name_and_namespace
           (js "void NS.Sub.Baz (int x)") (js "NS.Sub.Baz") (js " ") (js "int x")).
  concrete_shape.
Defined.

(** The name and the namespace as the parts of the dotted identifier around
    its last dot. *)
Lemma parseHook_qualified (hookSignature ns nm ws paramString : jsstring) :
  MethodShape (cleanSignature hookSignature) (ns ++ DOT :: nm) ws paramString ->
  ~ In DOT nm ->
  exists parameters, parseHook hookSignature = Done (mkParsedHook nm parameters (Some ns)).
Proof.
  intros H Hnm. rewrite (parseHook_of_shape _ H).
  rewrite split_app_sep by assumption.
  rewrite last_last, removelast_last, join_split.
  rewrite length_app. simpl.
  pose proof (split_nonempty DOT ns) as Hne.
  destruct (split DOT ns); [contradiction|]. simpl.
  replace (length l + 1) with (S (length l)) by lia. eauto.
Qed.

Lemma parseHook_unqualified (hookSignature nm ws paramString : jsstring) :
  MethodShape (cleanSignature hookSignature) nm ws paramString ->
  ~ In DOT nm ->
  exists parameters, parseHook hookSignature = Done (mkParsedHook nm parameters None).
Proof.
  intros H Hnm. rewrite (parseHook_of_shape _ H).
  rewrite split_without_sep by assumption. simpl. eauto.
Qed.




(** C10. When the cleaned signature is of the shape, the parameters are the
    trimmed non-empty pieces of the comma-split parameter list, where a piece
    that contains [<] has every [|] turned into a comma and a piece without
    [<] is unchanged. *)
Theorem parseHook_parameters_bars :
  forall hookSignature fullName ws paramString,
    MethodShape (cleanSignature hookSignature) fullName ws paramString ->
    exists parsed,
      parseHook hookSignature = Done parsed /\
      parameters parsed =
      map (fun piece => if includes LT piece then barsToCommas piece else piece)
        (filter (fun piece => 0 <? length piece)
           (map trim (split COMMA paramString))).
Proof.
  intros hookSignature fullName ws paramString H.
  eexists. split; [exact (parseHook_of_shape _ H)|].
  simpl. apply parseParameters_pieces.
Qed.

Lemma parseHook_parameters_bars_witness :
  exists parsed,
    parseHook (js "void F(List<A|B> m, int|x , )") = Done parsed /\
    parameters parsed = [js "List<A,B> m"; js "int|x"].
Proof.
  apply (parseHook_parameters_bars
           (js "void F(List<A|B> m, int|x , )") (fullName := js "F")
           (ws := []) (paramString := js "List<A|B> m, int|x , ")).
  concrete_shape.
Defined.

(** ** Reading the patterns that [createRegexFromHook] builds *)

Lemma escapeRegExp_spec (s : jsstring) :
  escapeRegExp s =
  flat_map (fun c => if isSyntaxChar c then [BACKSLASH; c] else [c]) s.
Proof.
  unfold escapeRegExp, escapeRe.
  now rewrite replaceAll_atom with (g := fun f => BACKSLASH :: f).
Qed.

Lemma reads_nil : reads [] [].
Proof. intros T pd. now exists T, pd. Qed.

Lemma reads_app (p1 p2 : jsstring) (t1 t2 : Regex) :
  reads p1 t1 -> reads p2 t2 -> reads (p1 ++ p2) (t1 ++ t2).
Proof.
  intros H1 H2 T pd.
  destruct (H1 T pd) as (T1 & pd1 & E1 & F1).
  destruct (H2 T1 pd1) as (T2 & pd2 & E2 & F2).
  exists T2, pd2. split.
  - now rewrite fold_left_app, E1.
  - now rewrite F2, F1, rev_app_distr, app_assoc.
Qed.

Lemma reads_compile (p : jsstring) (ts : Regex) :
  reads p ts -> compile p = Some ts.
Proof.
  intros H. destruct (H [] None) as (T' & pd' & E & F).
  unfold compile, initial. rewrite E. unfold finish. cbn [mode inGroup].
  rewrite F. simpl. now rewrite app_nil_r, rev_involutive.
Qed.

Lemma not_syntax_char (c : char) :
  isSyntaxChar c = false -> ~ In c syntaxChars.
Proof.
  intros H Hin. unfold isSyntaxChar in H.
  assert (existsb (N.eqb c) syntaxChars = true); [|congruence].
  apply existsb_exists. exists c. split; [exact Hin|apply N.eqb_refl].
Qed.

(** A character that is not a syntax character stands for itself. *)
Lemma step_plain (c : char) (T : list Term) (pd : option Atom) (g : bool) :
  isSyntaxChar c = false ->
  step (mkPState T pd g MNormal) c =
  Some (mkPState (flushed (mkPState T pd g MNormal)) (Some (lit c)) g MNormal).
Proof.
  intros H. pose proof (not_syntax_char H) as Hn.
  unfold step, stepNormal. cbn [mode]. rewrite H.
  assert (Hne : forall d, In d syntaxChars -> N.eqb c d = false).
  { intros d Hd. apply N.eqb_neq. intros ->. contradiction. }
  rewrite !Hne by (simpl; tauto). reflexivity.
Qed.

(** A syntax character after a backslash stands for itself. *)
Lemma step_escaped (c : char) (T : list Term) (pd : option Atom) (g : bool) :
  isSyntaxChar c = true ->
  fold_left stepO [BACKSLASH; c] (Some (mkPState T pd g MNormal)) =
  Some (mkPState (flushed (mkPState T pd g MNormal)) (Some (lit c)) g MNormal).
Proof.
  intros H. unfold isSyntaxChar in H. apply existsb_exists in H.
  destruct H as (d & Hin & Heq). apply N.eqb_eq in Heq. subst d.
  simpl in Hin.
  repeat (destruct Hin as [<-|Hin]; [reflexivity|]). contradiction.
Qed.

(** An escaped text is read as the literal text. *)
Lemma reads_escaped (n : jsstring) : reads (escapeRegExp n) (lits n).
Proof.
  rewrite escapeRegExp_spec.
  induction n as [|c n IH]; intros T pd; [now exists T, pd|].
  cbn [flat_map]. rewrite fold_left_app.
  assert (E : fold_left stepO (if isSyntaxChar c then [BACKSLASH; c] else [c])
                (Some (mkPState T pd false MNormal)) =
              Some (mkPState (flushed (mkPState T pd false MNormal))
                      (Some (lit c)) false MNormal)).
  { destruct (isSyntaxChar c) eqn:Hc; [now apply step_escaped|].
    cbn [fold_left stepO]. now apply step_plain. }
  rewrite E.
  destruct (IH (flushed (mkPState T pd false MNormal)) (Some (lit c)))
    as (T' & pd' & E' & F').
  exists T', pd'. split; [exact E'|].
  rewrite F'. cbn [lits map rev]. now rewrite <- app_assoc.
Qed.

Ltac reads_concrete :=
  intros ? [?|]; do 2 eexists; split; reflexivity.

Lemma reads_void : reads (js "void\s+") (lits (js "void") ++ [TAtom space QPlus]).
Proof. reads_concrete. Qed.

Lemma reads_open : reads (js "\s*\(") [TAtom space QStar; TAtom (lit LPAREN) QOne].
Proof. reads_concrete. Qed.

Lemma reads_spaces : reads (js "\s*") [TAtom space QStar].
Proof. reads_concrete. Qed.

Lemma reads_close : reads (js "\s*\)") [TAtom space QStar; TAtom (lit RPAREN) QOne].
Proof. reads_concrete. Qed.

Lemma reads_identifier : reads (js "\s+\w+") [TAtom space QPlus; TAtom word QPlus].
Proof. reads_concrete. Qed.

Lemma reads_comma :
  reads (js "\s*,\s*") [TAtom space QStar; TAtom (lit COMMA) QOne; TAtom space QStar].
Proof. reads_concrete. Qed.

Lemma reads_capture :
  reads captureTail
    [TOpen; TAtom (ASet true [ILit RPAREN]) QStar; TClose; TAtom (lit RPAREN) QOne].
Proof. reads_concrete. Qed.

Lemma reads_join (sep : jsstring) (tsep : Regex) (A : Type)
    (f : A -> jsstring) (ft : A -> Regex) (l : list A) :
  reads sep tsep ->
  (forall x, reads (f x) (ft x)) ->
  reads (join sep (map f l)) (joinTerms tsep (map ft l)).
Proof.
  intros Hsep Hf. induction l as [|x l IH]; [apply reads_nil|].
  destruct l as [|y l]; [apply Hf|].
  change (join sep (map f (x :: y :: l)))
    with (f x ++ sep ++ join sep (map f (y :: l))).
  change (joinTerms tsep (map ft (x :: y :: l)))
    with (ft x ++ tsep ++ joinTerms tsep (map ft (y :: l))).
  apply reads_app; [apply Hf|]. apply reads_app; [exact Hsep|exact IH].
Qed.

Lemma reads_methodStart (name : jsstring) :
  reads (js "void\s+" ++ escapeRegExp name ++ js "\s*\(") (methodStartTerms name).
Proof.
  unfold methodStartTerms.
  apply reads_app; [apply reads_void|].
  apply reads_app; [apply reads_escaped|apply reads_open].
Qed.

Lemma createRegexFromHook_permissive (hook : jsstring) (parsed : ParsedHook) :
  parseHook hook = Done parsed ->
  createRegexFromHook hook true = Done (permissiveRegex (name parsed)).
Proof.
  intros H. unfold createRegexFromHook. rewrite H. cbn [bind].
  unfold RegExp_new. erewrite reads_compile; [reflexivity|].
  apply reads_app; [apply reads_methodStart|apply reads_capture].
Qed.

Lemma createRegexFromHook_strict (hook : jsstring) (parsed : ParsedHook) :
  parseHook hook = Done parsed ->
  createRegexFromHook hook false =
  Done (strictRegex (name parsed) (parameters parsed)).
Proof.
  intros H. unfold createRegexFromHook. rewrite H. cbn [bind].
  unfold RegExp_new, strictRegex.
  destruct (parameters parsed) as [|param rest] eqn:Hp.
  - cbn [length Nat.ltb Nat.leb]. erewrite reads_compile; [reflexivity|].
    apply reads_app; [apply reads_methodStart|apply reads_close].
  - cbn [length Nat.ltb Nat.leb]. erewrite reads_compile; [reflexivity|].
    apply reads_app; [apply reads_methodStart|].
    apply reads_app; [apply reads_spaces|].
    apply reads_app; [|apply reads_close].
    apply reads_join; [apply reads_comma|].
    intros x. apply reads_app; [apply reads_escaped|apply reads_identifier].
Qed.

Lemma createRegexFromHook_total (hook : jsstring) (checkMissingParams : bool) :
  exists regex, createRegexFromHook hook checkMissingParams = Done regex.
Proof.
  destruct (parseHook_total hook) as [parsed H].
  destruct checkMissingParams.
  - rewrite (createRegexFromHook_permissive _ H). eauto.
  - rewrite (createRegexFromHook_strict _ H). eauto.
Qed.

Lemma consuming_methodStart (name : jsstring) (rest : Regex) :
  consuming (methodStartTerms name ++ rest).
Proof. apply consuming_atom. Qed.

Lemma consuming_permissive (name : jsstring) : consuming (permissiveRegex name).
Proof. apply consuming_methodStart. Qed.

Lemma consuming_strict (name : jsstring) (parameters : list jsstring) :
  consuming (strictRegex name parameters).
Proof. destruct parameters; apply consuming_methodStart. Qed.

(** ** What a permissive match looks like *)

Lemma lit_spec (a c : char) : atomMatches (lit a) c = true <-> c = a.
Proof. simpl. now rewrite orb_false_r, N.eqb_eq. Qed.

(** Literal terms consume their text. *)
Lemma run_lits_inv (p : jsstring) (r : Regex) :
  forall caps s i res,
    run (lits p ++ r) caps s i = Some res ->
    exists s', s = p ++ s' /\ run r caps s' (length p + i) = Some res.
Proof.
  induction p as [|a p IH]; intros caps s i res H.
  - exists s. auto.
  - cbn [lits map app run] in H. destruct s as [|c s]; [discriminate|].
    destruct (atomMatches (lit a) c) eqn:Hc; [|discriminate].
    apply lit_spec in Hc. subst c.
    apply IH in H. destruct H as (s' & -> & H).
    exists s'. split; [reflexivity|].
    simpl. now rewrite Nat.add_succ_r in H.
Qed.

Lemma spaces_spec (s : jsstring) :
  Forall (fun c => atomMatches space c = true) s ->
  Forall (fun c => isSpace c = true) s.
Proof.
  apply Forall_impl. intros c Hc. now rewrite space_spec in Hc.
Qed.

(** A permissive match: [void], whitespace, the name, optional whitespace,
    an opening parenthesis, the captured text, which holds no closing
    parenthesis, and the closing parenthesis that follows it. *)
Lemma permissive_match (name s : jsstring) (i : nat) (m : Match) :
  matchHere (permissiveRegex name) s i = Some m ->
  exists ws1 ws2 captured rest,
    s = (js "void" ++ ws1 ++ name ++ ws2 ++ [LPAREN] ++ captured ++ [RPAREN]) ++ rest /\
    m = mkMatch i (js "void" ++ ws1 ++ name ++ ws2 ++ [LPAREN] ++ captured ++ [RPAREN])
          [captured] /\
    ws1 <> [] /\
    Forall (fun c => isSpace c = true) ws1 /\
    Forall (fun c => isSpace c = true) ws2 /\
    ~ In RPAREN captured.
Proof.
  unfold matchHere.
  destruct (run (permissiveRegex name) noCaps s i) as [res|] eqn:H; [|discriminate].
  intros [= <-].
  unfold permissiveRegex, methodStartTerms in H. rewrite <- !app_assoc in H.
  apply run_lits_inv in H. destruct H as (s1 & -> & H).
  cbn [app run] in H.
  destruct s1 as [|c1 s1]; [discriminate|].
  destruct (atomMatches space c1) eqn:Hc1; [|discriminate].
  apply greedy_inv in H. destruct H as (pre & s2 & -> & Hpre & H).
  apply run_lits_inv in H. destruct H as (s3 & -> & H).
  cbn [app run closed opened noCaps] in H.
  apply greedy_inv in H. destruct H as (ws2 & s4 & -> & Hws2 & H).
  destruct s4 as [|c4 s5]; [discriminate|].
  destruct (atomMatches (lit LPAREN) c4) eqn:Hc4; [|discriminate].
  apply greedy_inv in H. destruct H as (captured & s6 & -> & Hcap & H).
  destruct s6 as [|c6 rest]; [discriminate|].
  destruct (atomMatches (lit RPAREN) c6) eqn:Hc6; [|discriminate].
  injection H as <-.
  apply lit_spec in Hc4, Hc6. subst c4 c6.
  exists (c1 :: pre), ws2, captured, rest.
  assert (Es : js "void" ++ (c1 :: pre ++ name ++ ws2 ++ LPAREN :: captured ++ RPAREN :: rest) =
               (js "void" ++ (c1 :: pre) ++ name ++ ws2 ++ [LPAREN] ++ captured ++ [RPAREN])
               ++ rest).
  { rewrite <- ?app_assoc. cbn [app]. rewrite <- ?app_assoc. reflexivity. }
  rewrite Es.
  split; [reflexivity|]. split; [|split; [discriminate|split; [|split]]].
  - cbn [endIndex captures app]. f_equal.
    + apply firstn_exact. repeat (rewrite length_app; cbn [length]).
      change (length (js "void")) with 4. lia.
    + f_equal. apply firstn_exact. lia.
  - apply spaces_spec. constructor; assumption.
  - now apply spaces_spec.
  - intros Hin. rewrite Forall_forall in Hcap. apply Hcap in Hin. discriminate.
Qed.

(** ** The analysis pass *)

Lemma occurrences_total (hook : jsstring) (checkMissingParams : bool) (text : jsstring) :
  exists ms, occurrences hook checkMissingParams text ms.
Proof.
  destruct (parseHook_total hook) as [parsed H].
  unfold occurrences. destruct checkMissingParams.
  - destruct (execAll_total text (consuming_permissive (name parsed))) as [ms Hms].
    exists ms, (permissiveRegex (name parsed)).
    split; [exact (createRegexFromHook_permissive _ H)|exact Hms].
  - destruct (execAll_total text (consuming_strict (name parsed) (parameters parsed)))
      as [ms Hms].
    exists ms, (strictRegex (name parsed) (parameters parsed)).
    split; [exact (createRegexFromHook_strict _ H)|exact Hms].
Qed.

(** Every occurrence that the permissive regex of a hook finds is a
    permissive occurrence of the name of the parsed hook. *)
Lemma permissive_occurrences (hook text : jsstring) (ms : list Match)
    (parsedHook : ParsedHook) :
  parseHook hook = Done parsedHook ->
  occurrences hook true text ms ->
  Forall (PermissiveOccurrence (name parsedHook) text) ms.
Proof.
  intros H (regex & Hre & Hms).
  rewrite (createRegexFromHook_permissive _ H) in Hre. injection Hre as <-.
  eapply execLoop_Forall; [|exact Hms].
  intros m Hm. apply permissive_match in Hm.
  destruct Hm as (ws1 & ws2 & captured & rest & Hs & Hm & Hne & Hws1 & Hws2 & Hno).
  exists ws1, ws2, captured, rest.
  rewrite Hm in *. cbn [index full groups] in *. auto 10.
Qed.

Lemma permissive_group (name text : jsstring) (m : Match) :
  PermissiveOccurrence name text m ->
  exists captured, groups m = [captured] /\ ~ In RPAREN captured.
Proof.
  intros (ws1 & ws2 & captured & rest & _ & _ & Hg & _ & _ & _ & Hno).
  now exists captured.
Qed.

Section AnalysisFacts.

Variable Position : Type.
Variable positionAt : nat -> Position.

Lemma deprecatedLoop_spec (regex : Regex) (text oldHook newHook : jsstring) :
  forall fuel lastIndex ms diagnostics,
    execLoop fuel regex text lastIndex = Done ms ->
    deprecatedLoop positionAt fuel regex text oldHook newHook lastIndex diagnostics =
    Done (diagnostics ++ map (deprecatedDiagnostic positionAt oldHook newHook) ms).
Proof.
  induction fuel as [|fuel IH]; intros lastIndex ms diagnostics H; simpl in *.
  - discriminate.
  - destruct (exec regex text lastIndex) as [m|].
    + destruct (execLoop fuel regex text (lastIndexAfter m)) as [ms'| |] eqn:Hl;
        simpl in H; try discriminate.
      injection H as <-. rewrite (IH _ _ _ Hl). simpl.
      now rewrite <- app_assoc.
    + injection H as <-. simpl. now rewrite app_nil_r.
Qed.

Lemma validLoop_spec (regex : Regex) (text : jsstring) (parsedHook : ParsedHook)
    (hook : jsstring) :
  forall fuel lastIndex ms diagnostics validHookRanges,
    execLoop fuel regex text lastIndex = Done ms ->
    Forall (fun m => exists captured, groups m = [captured]) ms ->
    validLoop positionAt fuel regex text parsedHook hook lastIndex
      (diagnostics, validHookRanges) =
    Done (diagnostics ++
            flat_map (fun m => missingDiagnostics positionAt parsedHook hook m (actualCount m)) ms,
          validHookRanges ++ map (matchRange positionAt) ms).
Proof.
  induction fuel as [|fuel IH];
    intros lastIndex ms diagnostics validHookRanges H Hcap; simpl in *.
  - discriminate.
  - destruct (exec regex text lastIndex) as [m|].
    + destruct (execLoop fuel regex text (lastIndexAfter m)) as [ms'| |] eqn:Hl;
        simpl in H; try discriminate.
      injection H as <-. inversion Hcap as [|? ? (captured & Hm) Hrest]; subst.
      unfold validBody, missingDiagnostics, missingDiagnostic, actualCount, group.
      rewrite Hm. cbn [nth_error Nat.sub defined bind].
      rewrite (IH _ _ _ _ Hl Hrest). cbn [flat_map map]. unfold group.
      rewrite Hm. cbn [nth_error Nat.sub].
      destruct (paramCount (trim captured) <? length (parameters parsedHook));
        now rewrite <- !app_assoc.
    + injection H as <-. simpl. now rewrite !app_nil_r.
Qed.

(** The first pass: for every entry, one diagnostic for each occurrence
    that the strict regex of the old hook finds. *)
Lemma processDeprecated_spec (text : jsstring) :
  forall entries diagnostics,
  exists found,
    Forall2 (fun entry ms => occurrences (fst entry) false text ms) entries found /\
    processDeprecated positionAt entries text diagnostics =
    Done (diagnostics ++
            flat_map (fun '((oldHook, newHook), ms) =>
                        map (deprecatedDiagnostic positionAt oldHook newHook) ms)
              (combine entries found)).
Proof.
  induction entries as [|[oldHook newHook] entries IH]; intros diagnostics.
  - exists []. split; [constructor|]. simpl. now rewrite app_nil_r.
  - destruct (occurrences_total oldHook false text) as (ms & regex & Hre & Hms).
    destruct (IH (diagnostics ++ map (deprecatedDiagnostic positionAt oldHook newHook) ms))
      as (found & Hfound & Hrest).
    exists (ms :: found). split.
    + constructor; [|exact Hfound]. exists regex. auto.
    + cbn [processDeprecated]. rewrite Hre. cbn [bind].
      rewrite deprecatedLoop_spec with (ms := ms) by exact Hms. cbn [bind].
      rewrite Hrest. cbn [combine flat_map]. now rewrite <- app_assoc.
Qed.

(** The second pass: for every valid hook, a range for each occurrence that
    the permissive regex finds, and a warning for those with fewer
    parameters than the hook has. *)
Lemma processValid_spec (text : jsstring) :
  forall validHooks diagnostics validHookRanges,
  exists found,
    Forall2 (fun hook pm =>
               parseHook hook = Done (fst pm) /\ occurrences hook true text (snd pm))
      validHooks found /\
    processValid positionAt validHooks text (diagnostics, validHookRanges) =
    Done (diagnostics ++
            flat_map (fun '(hook, (parsedHook, ms)) =>
                        flat_map (fun m =>
                                    missingDiagnostics positionAt parsedHook hook m (actualCount m))
                          ms)
              (combine validHooks found),
          validHookRanges ++
            flat_map (fun pm => map (matchRange positionAt) (snd pm)) found).
Proof.
  induction validHooks as [|hook validHooks IH]; intros diagnostics validHookRanges.
  - exists []. split; [constructor|]. simpl. now rewrite !app_nil_r.
  - destruct (parseHook_total hook) as [parsedHook Hparsed].
    destruct (occurrences_total hook true text) as (ms & Hocc).
    pose proof (permissive_occurrences Hparsed Hocc) as Hcap.
    destruct Hocc as (regex & Hre & Hms).
    destruct (IH (diagnostics ++
                    flat_map (fun m => missingDiagnostics positionAt parsedHook hook m (actualCount m)) ms)
                 (validHookRanges ++ map (matchRange positionAt) ms))
      as (found & Hfound & Hrest).
    exists ((parsedHook, ms) :: found). split.
    + constructor; [|exact Hfound]. split; [exact Hparsed|]. exists regex. auto.
    + cbn [processValid]. rewrite Hparsed, Hre. cbn [bind].
      rewrite validLoop_spec with (ms := ms); [|exact Hms|].
      * cbn [bind]. rewrite Hrest. cbn [combine flat_map snd].
        now rewrite <- !app_assoc.
      * eapply Forall_impl; [|exact Hcap].
        intros m Hm. apply permissive_group in Hm.
        destruct Hm as (captured & Hg & _). now exists captured.
Qed.

End AnalysisFacts.

Ltac occurrences_concrete :=
  match goal with
  | |- occurrences ?hook ?mode ?text ?ms =>
      let built := eval vm_compute in (createRegexFromHook hook mode) in
      match built with
      | Done ?regex => exists regex; split; vm_compute; reflexivity
      end
  end.

(** [analyzeDocument] ends for every document and every catalog, without
    throwing. *)
Lemma analyzeDocument_total (Position : Type) (positionAt : nat -> Position)
    (document : TextDocument) (deprecatedHooks : list (jsstring * jsstring))
    (validHooks : list jsstring) :
  exists result,
    analyzeDocument positionAt document deprecatedHooks validHooks = Done result.
Proof.
  unfold analyzeDocument.
  destruct (negb (streq (languageId document) (js "csharp"))); [eexists; reflexivity|].
  destruct (processDeprecated_spec positionAt (getText document) deprecatedHooks [])
    as (found & _ & ->).
  cbn [bind].
  match goal with
  | |- context [processValid _ _ _ (?d, ?r)] =>
      destruct (processValid_spec positionAt (getText document) validHooks d r)
        as (found' & _ & ->)
  end.
  cbn [bind]. eexists. reflexivity.
Qed.

Lemma streq_spec (a b : jsstring) : streq a b = true <-> a = b.
Proof.
  revert b. induction a as [|x a IH]; intros [|y b]; simpl;
    try (split; [discriminate|discriminate]); [tauto|].
  rewrite andb_true_iff, N.eqb_eq, IH. split.
  - now intros [-> ->].
  - now intros [= -> ->].
Qed.

(** A document that is not C# is skipped. *)
Lemma analyzeDocument_skips (Position : Type) (positionAt : nat -> Position)
    (document : TextDocument) (deprecatedHooks : list (jsstring * jsstring))
    (validHooks : list jsstring) :
  languageId document <> js "csharp" ->
  analyzeDocument positionAt document deprecatedHooks validHooks = Done None.
Proof.
  intros H. unfold analyzeDocument.
  destruct (streq (languageId document) (js "csharp")) eqn:E; [|reflexivity].
  apply streq_spec in E. contradiction.
Qed.

(** The whole pass on a C# document: the diagnostics of the deprecated
    hooks, then those of the valid hooks, and the ranges of the valid
    hooks. *)
Lemma analyzeDocument_spec (Position : Type) (positionAt : nat -> Position)
    (text : jsstring) (deprecatedHooks : list (jsstring * jsstring))
    (validHooks : list jsstring) :
  exists foundDeprecated foundValid,
    Forall2 (fun entry ms => occurrences (fst entry) false text ms)
      deprecatedHooks foundDeprecated /\
    Forall2 (fun hook pm =>
               parseHook hook = Done (fst pm) /\ occurrences hook true text (snd pm))
      validHooks foundValid /\
    analyzeDocument positionAt (mkTextDocument (js "csharp") text)
      deprecatedHooks validHooks =
    Done (Some
            (flat_map (fun '((oldHook, newHook), ms) =>
                         map (deprecatedDiagnostic positionAt oldHook newHook) ms)
               (combine deprecatedHooks foundDeprecated) ++
             flat_map (fun '(hook, (parsedHook, ms)) =>
                         flat_map (fun m =>
                                     missingDiagnostics positionAt parsedHook hook m
                                       (actualCount m)) ms)
               (combine validHooks foundValid),
             flat_map (fun pm => map (matchRange positionAt) (snd pm)) foundValid)).
Proof.
  destruct (processDeprecated_spec positionAt text deprecatedHooks [])
    as (foundDeprecated & Hd & Ed).
  match type of Ed with
  | _ = Done ?d =>
      destruct (processValid_spec positionAt text validHooks d [])
        as (foundValid & Hv & Ev)
  end.
  exists foundDeprecated, foundValid. split; [exact Hd|]. split; [exact Hv|].
  unfold analyzeDocument. cbn [languageId getText].
  replace (streq (js "csharp") (js "csharp")) with true by reflexivity.
  cbn [negb]. rewrite Ed. cbn [bind]. rewrite Ev. reflexivity.
Qed.

(** C2 (as the code has it). For every entry of the deprecated catalog the
    pass finds the occurrences with the strict regex of the old signature,
    and for each occurrence it emits one diagnostic of severity error whose
    message names the old signature and then says to use the replacement
    when it is not empty, and that there is no direct replacement when it is
    empty. *)
Theorem deprecated_pass_strict :
  (forall (Position : Type) (positionAt : nat -> Position)
          (deprecatedHooks : list (jsstring * jsstring))
          (text : jsstring) (diagnostics : list (Diagnostic Position)),
      exists found,
        Forall2 (fun entry ms => occurrences (fst entry) false text ms)
          deprecatedHooks found /\
        processDeprecated positionAt deprecatedHooks text diagnostics =
        Done (diagnostics ++
                flat_map (fun '((oldHook, newHook), ms) =>
                            map (fun m =>
                                   mkDiagnostic (matchRange positionAt m)
                                     (deprecatedMessage oldHook newHook)
                                     Error analyzerSource) ms)
                  (combine deprecatedHooks found))) /\
  (forall oldHook c newHook,
      deprecatedMessage oldHook (c :: newHook) =
      js "Hook " ++ [DQUOTE] ++ oldHook ++ [DQUOTE] ++ js " is deprecated." ++ [LF] ++
      js "Use " ++ [DQUOTE] ++ (c :: newHook) ++ [DQUOTE] ++ js " instead.") /\
  (forall oldHook,
      deprecatedMessage oldHook [] =
      js "Hook " ++ [DQUOTE] ++ oldHook ++ [DQUOTE] ++ js " is deprecated." ++ [LF] ++
      js "No direct replacement available.").
Proof.
  split; [|split; reflexivity].
  intros Position positionAt deprecatedHooks text diagnostics.
  apply processDeprecated_spec.
Qed.

(** C2 (the claim fails). The permissive regex of the deprecated signature
    finds an occurrence with another parameter type, and the pass emits no
    diagnostic for it. *)
Lemma deprecated_pass_not_permissive :
  occurrences (js "void Foo(int x)") true (js "void Foo(string a)")
    [mkMatch 0 (js "void Foo(string a)") [js "string a"]] /\
  analyzeDocument (fun n => n)
    (mkTextDocument (js "csharp") (js "void Foo(string a)"))
    [(js "void Foo(int x)", js "void Bar(int x)")] [] =
  Done (Some ([], [])).
Proof.
  split; [occurrences_concrete|vm_compute; reflexivity].
Qed.

(** C3 (as the code has it). For every occurrence of a valid hook that the
    permissive regex finds, the parameter count that the pass compares is 0
    when the trimmed captured text is empty, and otherwise the number of
    pieces of the trimmed captured text split on every comma: one more than
    the number of its commas, nested in angle brackets or not, empty pieces
    counted. *)
Theorem actual_count_every_comma :
  forall (Position : Type) (positionAt : nat -> Position)
         (hook text : jsstring) (ms : list Match),
    occurrences hook true text ms ->
    Forall (fun m =>
              exists captured,
                group m 1 = Some captured /\
                let actual :=
                  match trim captured with
                  | [] => 0
                  | _ :: _ => S (count_occ N.eq_dec (trim captured) COMMA)
                  end in
                forall parsedHook diagnostics validHookRanges,
                  validBody positionAt parsedHook hook m (diagnostics, validHookRanges) =
                  Done (diagnostics ++
                          (if actual <? length (parameters parsedHook)
                           then [missingDiagnostic positionAt parsedHook hook m]
                           else []),
                        validHookRanges ++ [matchRange positionAt m])) ms.
Proof.
  intros Position positionAt hook text ms Hocc.
  destruct (parseHook_total hook) as [parsed Hparsed].
  eapply Forall_impl; [|exact (permissive_occurrences Hparsed Hocc)].
  intros m Hm. apply permissive_group in Hm. destruct Hm as (captured & Hg & _).
  exists captured. unfold group. rewrite Hg. split; [reflexivity|].
  intros parsedHook diagnostics validHookRanges.
  unfold validBody, group. rewrite Hg. cbn [nth_error Nat.sub defined bind].
  assert (E : paramCount (trim captured) =
              match trim captured with
              | [] => 0
              | _ :: _ => S (count_occ N.eq_dec (trim captured) COMMA)
              end).
  { unfold paramCount. destruct (trim captured) as [|c t] eqn:Ht; [reflexivity|].
    cbn [length Nat.ltb Nat.leb]. apply split_length. }
  rewrite E.
  destruct (_ <? length (parameters parsedHook)); [|now rewrite app_nil_r].
  reflexivity.
Qed.

Lemma actual_count_every_comma_witness :
  Forall (fun m =>
            exists captured,
              group m 1 = Some captured /\
              let actual :=
                match trim captured with
                | [] => 0
                | _ :: _ => S (count_occ N.eq_dec (trim captured) COMMA)
                end in
              forall parsedHook diagnostics validHookRanges,
                validBody (fun n => n) parsedHook (js "void Foo(int x)") m
                  (diagnostics, validHookRanges) =
                Done (diagnostics ++
                        (if actual <? length (parameters parsedHook)
                         then [missingDiagnostic (fun n => n) parsedHook
                                 (js "void Foo(int x)") m]
                         else []),
                      validHookRanges ++ [matchRange (fun n => n) m]))
    [mkMatch 0 (js "void Foo(a,)") [js "a,"]].
Proof.
  apply (actual_count_every_comma (fun n => n)
           (hook := js "void Foo(int x)") (text := js "void Foo(a,)")).
  occurrences_concrete.
Defined.

(** C3 (the claim fails). The captured texts of the claim count as two
    parameters each, where the top-level pieces that are not empty are one;
    so ["void Foo(a,)"] is not flagged against a hook of two parameters. *)
Lemma actual_count_not_top_level :
  paramCount (trim (js "a,")) = 2 /\
  topLevelCount (js "a,") = 1 /\
  paramCount (trim (js "Dictionary<string, int> map")) = 2 /\
  topLevelCount (js "Dictionary<string, int> map") = 1 /\
  analyzeDocument (fun n => n)
    (mkTextDocument (js "csharp") (js "void Foo(a,)"))
    [] [js "void Foo(int x, int y)"] =
  Done (Some ([], [mkRange 0 12])).
Proof.
  repeat split; vm_compute; reflexivity.
Qed.

(** C6. The strict regex of ["void Foo(int x)"] finds ["void Foo(int a)"]
    and finds nothing in ["void Foo(string a)"]. In general the strict regex
    is the opening, then for each parsed parameter its first word as literal
    text, whitespace and an identifier, the parameters joined by a comma with
    optional whitespace around it, then the closing parenthesis. *)
Theorem strict_matcher_types :
  occurrences (js "void Foo(int x)") false (js "void Foo(int a)")
    [mkMatch 0 (js "void Foo(int a)") []] /\
  occurrences (js "void Foo(int x)") false (js "void Foo(string a)") [] /\
  (forall hook,
      exists parsedHook,
        parseHook hook = Done parsedHook /\
        createRegexFromHook hook false =
        Done (strictRegex (name parsedHook) (parameters parsedHook))).
Proof.
  split; [|split].
  - occurrences_concrete.
  - occurrences_concrete.
  - intros hook. destruct (parseHook_total hook) as [parsedHook H].
    exists parsedHook. split; [exact H|now apply createRegexFromHook_strict].
Qed.

(** C7. The permissive regex of ["void Foo(int x)"] finds exactly one
    occurrence in ["void Foo(int a, int b) { }"], with the captured text
    ["int a, int b"]. In general what the permissive regex of a hook finds
    are permissive occurrences of its name: whatever stands between the
    opening parenthesis and the next closing parenthesis is the one captured
    group. *)
Theorem permissive_matcher_capture :
  occurrences (js "void Foo(int x)") true (js "void Foo(int a, int b) { }")
    [mkMatch 0 (js "void Foo(int a, int b)") [js "int a, int b"]] /\
  (forall hook text ms parsedHook,
      parseHook hook = Done parsedHook ->
      occurrences hook true text ms ->
      Forall (PermissiveOccurrence (name parsedHook) text) ms).
Proof.
  split.
  - occurrences_concrete.
  - intros hook text ms parsedHook. apply permissive_occurrences.
Qed.

Lemma permissive_matcher_capture_witness :
  Forall (PermissiveOccurrence (js "Foo") (js "x; void Foo(List<(int, int)> a)"))
    [mkMatch 3 (js "void Foo(List<(int, int)")  [js "List<(int, int"]].
Proof.
  apply (proj2 permissive_matcher_capture
           (js "void Foo(int x)") (js "x; void Foo(List<(int, int)> a)") _
           (mkParsedHook (js "Foo") [js "int x"] None)).
  - reflexivity.
  - occurrences_concrete.
Defined.

(** * Further properties of the code *)

(** ** [normalizeGenericType] *)

Lemma barsToCommas_app (a b : jsstring) :
  barsToCommas (a ++ b) = barsToCommas a ++ barsToCommas b.
Proof. apply map_app. Qed.

Lemma normalizeStep_appends (depth : Z) (normalized : jsstring) (c : char) :
  exists depth' c',
    normalizeStep (depth, normalized) c = (depth', normalized ++ [c']) /\
    barsToCommas [c'] = barsToCommas [c].
Proof.
  unfold normalizeStep.
  destruct (N.eqb c LT); [now eexists _, c|].
  destruct (N.eqb c GT); [now eexists _, c|].
  destruct (N.eqb_spec c COMMA) as [->|Hc]; simpl andb.
  - destruct (0 <? depth)%Z; [now eexists _, BAR|now eexists _, COMMA].
  - now eexists _, c.
Qed.

Lemma normalize_loop_bars (param : jsstring) :
  forall depth normalized,
    barsToCommas (snd (fold_left normalizeStep param (depth, normalized))) =
    barsToCommas normalized ++ barsToCommas param.
Proof.
  induction param as [|c param IH]; intros depth normalized; cbn [fold_left].
  - simpl. now rewrite app_nil_r.
  - destruct (normalizeStep_appends depth normalized c) as (depth' & c' & -> & Hc).
    rewrite IH, barsToCommas_app, <- app_assoc, Hc. reflexivity.
Qed.

(** Whatever the brackets of its argument, [normalizeGenericType] only turns
    every [|] into a comma: the commas it sets aside inside angle brackets
    come back as commas. So the result has the length of the argument, and
    an argument without [|] is returned as it is. *)
Theorem normalizeGenericType_bars :
  forall param,
    normalizeGenericType param = barsToCommas param /\
    length (normalizeGenericType param) = length param /\
    (~ In BAR param -> normalizeGenericType param = param).
Proof.
  intros param.
  assert (E : normalizeGenericType param = barsToCommas param).
  { unfold normalizeGenericType. rewrite replace_bars.
    now rewrite normalize_loop_bars. }
  rewrite E. split; [reflexivity|]. split.
  - apply length_map.
  - intros Hno. unfold barsToCommas. rewrite <- (map_id param) at 2.
    apply map_ext_in. intros c Hc.
    destruct (N.eqb_spec c BAR) as [->|_]; [contradiction|reflexivity].
Qed.

Lemma normalizeGenericType_bars_witness :
  normalizeGenericType (js "List<Dictionary<string, List<int>>> m") =
  js "List<Dictionary<string, List<int>>> m".
Proof.
  apply (proj2 (proj2 (normalizeGenericType_bars
                         (js "List<Dictionary<string, List<int>>> m")))).
  vm_compute. intuition discriminate.
Defined.

(** ** [trim] and the cleaning of a signature *)

Lemma dropWhile_app (p : char -> bool) (a b : jsstring) :
  dropWhile p (a ++ b) =
  if forallb p a then dropWhile p b else dropWhile p a ++ b.
Proof.
  induction a as [|c a IH]; simpl; [reflexivity|].
  destruct (p c); simpl; [exact IH|reflexivity].
Qed.

Lemma forallb_spaces (ws : jsstring) :
  Forall (fun c => isSpace c = true) ws -> forallb isSpace ws = true.
Proof.
  intros H. apply forallb_forall. now apply Forall_forall.
Qed.

Lemma dropWhile_all (p : char -> bool) (s : jsstring) :
  forallb p s = true -> dropWhile p s = [].
Proof.
  induction s as [|c s IH]; simpl; [reflexivity|].
  destruct (p c); [exact IH|discriminate].
Qed.

Lemma trimEnd_pad (s ws : jsstring) :
  Forall (fun c => isSpace c = true) ws -> trimEnd (s ++ ws) = trimEnd s.
Proof.
  intros H. unfold trimEnd. rewrite rev_app_distr, dropWhile_app.
  rewrite forallb_spaces; [reflexivity|]. now apply Forall_rev.
Qed.

(** Whitespace around a text does not change what [trim] returns. *)
Lemma trim_pad (ws1 s ws2 : jsstring) :
  Forall (fun c => isSpace c = true) ws1 ->
  Forall (fun c => isSpace c = true) ws2 ->
  trim (ws1 ++ s ++ ws2) = trim s.
Proof.
  intros H1 H2. unfold trim, trimStart.
  rewrite dropWhile_app, (forallb_spaces H1), dropWhile_app.
  destruct (forallb isSpace s) eqn:Hs.
  - rewrite (dropWhile_all _ _ (forallb_spaces H2)), (dropWhile_all _ _ Hs).
    reflexivity.
  - now apply trimEnd_pad.
Qed.

(** [parseHook] does not see the whitespace around a signature. *)
Theorem parseHook_ignores_padding :
  forall ws1 hookSignature ws2,
    Forall (fun c => isSpace c = true) ws1 ->
    Forall (fun c => isSpace c = true) ws2 ->
    parseHook (ws1 ++ hookSignature ++ ws2) = parseHook hookSignature.
Proof.
  intros ws1 hookSignature ws2 H1 H2.
  unfold parseHook, cleanSignature. now rewrite trim_pad.
Qed.

Lemma parseHook_ignores_padding_witness :
  parseHook ([TAB; SPACE] ++ js "void Foo(int x)" ++ [LF]) =
  parseHook (js "void Foo(int x)").
Proof.
  apply parseHook_ignores_padding; concrete_Forall.
Defined.

Lemma dropWhile_prefix (p : char -> bool) (s : jsstring) :
  exists dropped, s = dropped ++ dropWhile p s /\ forallb p dropped = true.
Proof.
  induction s as [|c s (dropped & IH & Hall)]; simpl.
  - now exists [].
  - destruct (p c) eqn:Hc.
    + exists (c :: dropped). simpl. rewrite Hc, Hall. split; [now f_equal|reflexivity].
    + now exists [].
Qed.

Lemma dropWhile_head (p : char -> bool) (s : jsstring) :
  match dropWhile p s with [] => True | c :: _ => p c = false end.
Proof.
  induction s as [|c s IH]; simpl; [exact I|].
  destruct (p c) eqn:Hc; [exact IH|exact Hc].
Qed.

Lemma dropWhile_fixed (p : char -> bool) (s : jsstring) :
  match s with [] => True | c :: _ => p c = false end -> dropWhile p s = s.
Proof.
  destruct s as [|c s]; simpl; [reflexivity|]. now intros ->.
Qed.

Lemma dropWhile_idem (p : char -> bool) (s : jsstring) :
  dropWhile p (dropWhile p s) = dropWhile p s.
Proof. apply dropWhile_fixed, dropWhile_head. Qed.

Lemma dropWhile_length (p : char -> bool) (s : jsstring) :
  length (dropWhile p s) <= length s.
Proof.
  induction s as [|c s IH]; simpl; [lia|].
  destruct (p c); simpl; lia.
Qed.

Lemma dropWhile_same_length (p : char -> bool) (s : jsstring) :
  length (dropWhile p s) = length s -> dropWhile p s = s.
Proof.
  destruct s as [|c s]; simpl; [reflexivity|].
  destruct (p c); [|reflexivity].
  pose proof (dropWhile_length p s). lia.
Qed.

(** A text that [trim] returns has no whitespace at either end. *)
Lemma trimmed_inv (s : jsstring) :
  trim s = s -> trimStart s = s /\ trimEnd s = s.
Proof.
  intros H.
  assert (Hs : trimStart s = s).
  { apply dropWhile_same_length.
    pose proof (dropWhile_length isSpace s) as H1.
    pose proof (dropWhile_length isSpace (rev (trimStart s))) as H2.
    apply (f_equal (@length char)) in H. unfold trim, trimEnd in H.
    rewrite length_rev in H. rewrite length_rev in H2. unfold trimStart in *. lia. }
  split; [exact Hs|]. unfold trim in H. now rewrite Hs in H.
Qed.

Lemma trimStart_trimEnd (t : jsstring) :
  trimStart t = t -> trimStart (trimEnd t) = trimEnd t.
Proof.
  intros Ht. unfold trimStart in *. apply dropWhile_fixed.
  destruct (dropWhile_prefix isSpace (rev t)) as (dropped & E & _).
  apply (f_equal (@rev char)) in E. rewrite rev_involutive, rev_app_distr in E.
  fold (trimEnd t) in E.
  destruct (trimEnd t) as [|c u]; [exact I|].
  pose proof (dropWhile_head isSpace t) as Hh. rewrite Ht, E in Hh. exact Hh.
Qed.

Lemma trim_idem (s : jsstring) : trim (trim s) = trim s.
Proof.
  unfold trim. rewrite trimStart_trimEnd with (t := trimStart s).
  - unfold trimEnd. now rewrite rev_involutive, dropWhile_idem.
  - apply dropWhile_idem.
Qed.

Lemma dropWhile_map (p : char -> bool) (f : char -> char) (s : jsstring) :
  (forall c, p (f c) = p c) ->
  dropWhile p (map f s) = map f (dropWhile p s).
Proof.
  intros Hf. induction s as [|c s IH]; simpl; [reflexivity|].
  rewrite Hf. now destruct (p c).
Qed.

Lemma trim_barsToCommas (s : jsstring) :
  trim (barsToCommas s) = barsToCommas (trim s).
Proof.
  assert (Hf : forall c, isSpace (if N.eqb c BAR then COMMA else c) = isSpace c).
  { intros c. destruct (N.eqb_spec c BAR) as [->|_]; reflexivity. }
  unfold trim, trimEnd, trimStart, barsToCommas.
  rewrite dropWhile_map by exact Hf.
  rewrite <- map_rev, dropWhile_map by exact Hf.
  now rewrite map_rev.
Qed.

Lemma parseParameters_trimmed (paramString : jsstring) :
  Forall (fun param => param <> [] /\ trim param = param)
    (parseParameters paramString).
Proof.
  rewrite parseParameters_pieces. apply Forall_forall. intros param Hin.
  apply in_map_iff in Hin. destruct Hin as (piece & <- & Hin).
  apply filter_In in Hin. destruct Hin as [Hin Hne].
  apply in_map_iff in Hin. destruct Hin as (raw & <- & _).
  assert (Hnil : trim raw <> []) by (intros E; rewrite E in Hne; discriminate).
  destruct (includes LT (trim raw)).
  - split.
    + intros E. apply Hnil. unfold barsToCommas in E. now apply map_eq_nil in E.
    + now rewrite trim_barsToCommas, trim_idem.
  - split; [exact Hnil|apply trim_idem].
Qed.

(** A signature is of the shape, or [parseHook] gives the cleaned text back
    as the name. *)
Lemma parseHook_cases (hookSignature : jsstring) :
  (exists fullName ws paramString,
      MethodShape (cleanSignature hookSignature) fullName ws paramString) \/
  ((forall fullName ws paramString,
       ~ MethodShape (cleanSignature hookSignature) fullName ws paramString) /\
   parseHook hookSignature = Done (mkParsedHook (cleanSignature hookSignature) [] None)).
Proof.
  destruct (stringMatch methodRe (cleanSignature hookSignature)) as [m|] eqn:Hm.
  - left. apply methodRe_sound in Hm. destruct Hm as (f & w & p & H & _). eauto.
  - right. split.
    + intros f w p H. apply methodRe_complete in H. congruence.
    + unfold parseHook. now rewrite Hm.
Qed.

(** Every parameter that [parseHook] returns is a non-empty text without
    whitespace at either end. *)
Theorem parseHook_parameters_trimmed :
  forall hookSignature,
  exists parsed,
    parseHook hookSignature = Done parsed /\
    Forall (fun param => param <> [] /\ trim param = param) (parameters parsed).
Proof.
  intros hookSignature.
  destruct (parseHook_cases hookSignature) as [(f & w & p & H)|[_ H]].
  - eexists. split; [exact (parseHook_of_shape _ H)|].
    apply parseParameters_trimmed.
  - eexists. split; [exact H|]. constructor.
Qed.

(** The name and the namespace put the dotted identifier together again:
    the name holds no dot, and the identifier is the name, after the
    namespace and a dot when there is a namespace. *)
Theorem parseHook_identifier_roundtrip :
  forall hookSignature fullName ws paramString,
    MethodShape (cleanSignature hookSignature) fullName ws paramString ->
    exists parsed,
      parseHook hookSignature = Done parsed /\
      ~ In DOT (name parsed) /\
      fullName =
      match namespace parsed with
      | Some ns => ns ++ [DOT] ++ name parsed
      | None => name parsed
      end.
Proof.
  intros hookSignature fullName ws paramString H.
  destruct (last_separator DOT fullName) as [Hno|(before & after & -> & Hno)].
  - destruct (parseHook_unqualified _ H Hno) as (params & E).
    eexists. split; [exact E|]. split; [exact Hno|reflexivity].
  - destruct (parseHook_qualified hookSignature before after H Hno) as (params & E).
    eexists. split; [exact E|]. split; [exact Hno|reflexivity].
Qed.

Lemma parseHook_identifier_roundtrip_witness :
  exists parsed,
    parseHook (js "void Oxide.Core.OnTick()") = Done parsed /\
    ~ In DOT (name parsed) /\
    js "Oxide.Core.OnTick" =
    match namespace parsed with
    | Some ns => ns ++ [DOT] ++ name parsed
    | None => name parsed
    end.
Proof.
  apply (parseHook_identifier_roundtrip
           (js "void Oxide.Core.OnTick()") (fullName := js "Oxide.Core.OnTick")
           (ws := []) (paramString := [])).
  concrete_shape.
Defined.

Lemma run_lits (p : jsstring) (r : Regex) :
  forall caps s i,
    run (lits p ++ r) caps (p ++ s) i = run r caps s (length p + i).
Proof.
  induction p as [|a p IH]; intros caps s i; [reflexivity|].
  cbn [lits map app run].
  replace (atomMatches (lit a) a) with true by (symmetry; now apply lit_spec).
  fold (lits p). rewrite IH. simpl. now rewrite Nat.add_succ_r.
Qed.

(** A replace with a regex that starts with [^] acts at index 0 or not at
    all. *)
Lemma replaceFirst_anchored (r : Regex) (repl : Match -> jsstring) (s : jsstring) :
  replaceFirst (TBol :: r) repl s =
  match matchHere (TBol :: r) s 0 with
  | Some m => repl m ++ skipn (length (full m)) s
  | None => s
  end.
Proof.
  unfold replaceFirst. fold (stringMatch (TBol :: r) s).
  rewrite stringMatch_anchored.
  destruct (matchHere (TBol :: r) s 0) as [m|] eqn:Hm; [|reflexivity].
  unfold lastIndexAfter. rewrite (matchHere_index _ _ _ Hm). reflexivity.
Qed.

Lemma trimmed_head (s : jsstring) :
  trimStart s = s -> match s with [] => True | c :: _ => isSpace c = false end.
Proof.
  intros H. rewrite <- H. apply dropWhile_head.
Qed.

(** The cleaning strips the whitespace around a signature and then one
    leading [void] with the whitespace after it. *)
Theorem cleanSignature_strips_void :
  forall ws1 ws2 body ws3,
    Forall (fun c => isSpace c = true) ws1 ->
    ws2 <> [] ->
    Forall (fun c => isSpace c = true) ws2 ->
    Forall (fun c => isSpace c = true) ws3 ->
    body <> [] ->
    trim body = body ->
    cleanSignature (ws1 ++ js "void" ++ ws2 ++ body ++ ws3) = body.
Proof.
  intros ws1 ws2 body ws3 H1 Hne2 H2 H3 Hne Hbody.
  destruct (@trimmed_inv body Hbody) as [Hstart Hend].
  pose proof (@trimmed_head body Hstart) as Hhead.
  unfold cleanSignature.
  replace (ws1 ++ js "void" ++ ws2 ++ body ++ ws3)
    with (ws1 ++ (js "void" ++ ws2 ++ body) ++ ws3)
    by (now rewrite <- !app_assoc).
  rewrite trim_pad by assumption.
  assert (Htrim : trim (js "void" ++ ws2 ++ body) = js "void" ++ ws2 ++ body).
  { unfold trim. change (trimStart (js "void" ++ ws2 ++ body))
      with (js "void" ++ ws2 ++ body).
    unfold trimEnd. rewrite !rev_app_distr, <- app_assoc, dropWhile_app.
    destruct (forallb isSpace (rev body)) eqn:Hall.
    - exfalso. apply Hne. unfold trimEnd in Hend.
      rewrite (dropWhile_all _ _ Hall) in Hend. now rewrite <- Hend.
    - unfold trimEnd in Hend. apply (f_equal (@rev char)) in Hend.
      rewrite rev_involutive in Hend. rewrite Hend.
      now rewrite !rev_app_distr, !rev_involutive, <- app_assoc. }
  rewrite Htrim. unfold voidRe. rewrite replaceFirst_anchored.
  destruct ws2 as [|w ws2]; [contradiction|].
  inversion H2 as [|? ? Hw Hws2]; subst.
  assert (Hrun : run (TBol :: lits (js "void") ++ [TAtom space QPlus]) noCaps
                   (js "void" ++ (w :: ws2) ++ body) 0 =
                 Some (mkResult (length (js "void" ++ w :: ws2)) [])).
  { cbn [run Nat.eqb]. rewrite run_lits. cbn [app run].
    rewrite space_spec, Hw.
    erewrite greedy_take.
    - reflexivity.
    - eapply Forall_impl; [|exact Hws2]. intros c Hc. now rewrite space_spec.
    - rewrite greedy_stop.
      + cbn [run closed noCaps]. do 2 f_equal.
        rewrite !length_app. simpl. lia.
      + destruct body as [|b body]; [exact I|]. now rewrite space_spec. }
  unfold matchHere. rewrite Hrun. cbn [endIndex full app].
  rewrite Nat.sub_0_r.
  replace (js "void" ++ w :: ws2 ++ body) with ((js "void" ++ w :: ws2) ++ body)
    by (now rewrite <- app_assoc).
  rewrite firstn_exact by reflexivity.
  now rewrite skipn_exact.
Qed.

Lemma cleanSignature_strips_void_witness :
  cleanSignature ([SPACE] ++ js "void" ++ [SPACE; TAB] ++ js "On Tick ( )" ++ [LF]) =
  js "On Tick ( )".
Proof.
  apply cleanSignature_strips_void;
    try concrete_Forall; try discriminate; reflexivity.
Defined.

(** ** The parser's count against the count of the pass *)

Lemma dropWhile_count (c : char) (s : jsstring) :
  isSpace c = false ->
  count_occ N.eq_dec (dropWhile isSpace s) c = count_occ N.eq_dec s c.
Proof.
  intros Hc. induction s as [|d s IH]; simpl; [reflexivity|].
  destruct (isSpace d) eqn:Hd; [|reflexivity].
  destruct (N.eq_dec d c) as [->|_]; [congruence|exact IH].
Qed.

Lemma trim_count (c : char) (s : jsstring) :
  isSpace c = false ->
  count_occ N.eq_dec (trim s) c = count_occ N.eq_dec s c.
Proof.
  intros Hc. unfold trim, trimEnd, trimStart.
  now rewrite count_occ_rev, dropWhile_count, count_occ_rev, dropWhile_count.
Qed.

(** The pass never counts fewer parameters in a text than the parser reads
    in it. *)
Lemma parseParameters_le_paramCount (s : jsstring) :
  length (parseParameters s) <= paramCount (trim s).
Proof.
  rewrite parseParameters_pieces, length_map.
  pose proof (@trim_count COMMA s eq_refl) as Hcount.
  unfold paramCount. destruct (trim s) as [|c t] eqn:Ht.
  - simpl in Hcount. symmetry in Hcount.
    apply (count_occ_not_In N.eq_dec) in Hcount.
    rewrite split_without_sep by assumption. simpl. now rewrite Ht.
  - cbn [length Nat.ltb Nat.leb]. rewrite split_length, Hcount, <- split_length.
    etransitivity; [apply filter_length_le|]. now rewrite length_map.
Qed.

(** An occurrence in whose captured text the parser reads at least as many
    parameters as the hook has is not flagged: the pass adds its range and
    no diagnostic. *)
Theorem enough_parameters_not_flagged :
  forall (Position : Type) (positionAt : nat -> Position)
         (parsedHook : ParsedHook) (hook : jsstring) (m : Match)
         (captured : jsstring) diagnostics validHookRanges,
    group m 1 = Some captured ->
    length (parameters parsedHook) <= length (parseParameters captured) ->
    validBody positionAt parsedHook hook m (diagnostics, validHookRanges) =
    Done (diagnostics, validHookRanges ++ [matchRange positionAt m]).
Proof.
  intros Position positionAt parsedHook hook m captured diagnostics validHookRanges
    Hg Hle.
  unfold validBody. rewrite Hg. cbn [defined bind].
  pose proof (parseParameters_le_paramCount captured) as Hcount.
  destruct (Nat.ltb_spec (paramCount (trim captured)) (length (parameters parsedHook)));
    [lia|reflexivity].
Qed.

Lemma enough_parameters_not_flagged_witness :
  validBody (fun n => n)
    (mkParsedHook (js "Foo") [js "int x"; js "List<T> y"] None)
    (js "void Foo(int x, List<T> y)")
    (mkMatch 0 (js "void Foo( BasePlayer player , Item item )")
       [js " BasePlayer player , Item item "])
    ([], []) =
  Done ([], [mkRange 0 41]).
Proof.
  apply enough_parameters_not_flagged
    with (captured := js " BasePlayer player , Item item ").
  - reflexivity.
  - vm_compute. lia.
Defined.

(** ** What the loops over [exec] find *)

Lemma createRegexFromHook_consuming (hook : jsstring) (checkMissingParams : bool)
    (regex : Regex) :
  createRegexFromHook hook checkMissingParams = Done regex -> consuming regex.
Proof.
  destruct (parseHook_total hook) as [parsed H]. destruct checkMissingParams.
  - rewrite (createRegexFromHook_permissive _ H). intros [= <-].
    apply consuming_permissive.
  - rewrite (createRegexFromHook_strict _ H). intros [= <-].
    apply consuming_strict.
Qed.

Lemma execLoop_in_order (r : Regex) (text : jsstring) :
  consuming r ->
  forall fuel lastIndex ms,
    execLoop fuel r text lastIndex = Done ms ->
    inOrderFrom text lastIndex ms.
Proof.
  intros Hr. induction fuel as [|fuel IH]; intros lastIndex ms H; simpl in H.
  - discriminate.
  - destruct (exec r text lastIndex) as [m|] eqn:He.
    + destruct (execLoop fuel r text (lastIndexAfter m)) as [ms'| |] eqn:Hl;
        simpl in H; try discriminate.
      injection H as <-. apply IH in Hl.
      apply exec_inv in He. destruct He as (rest & Hm & Hge & Hlen & Hrest).
      unfold matchHere in Hm.
      destruct (run r noCaps rest (index m)) as [res|] eqn:Hrun; [|discriminate].
      pose proof (run_bounds _ _ _ _ Hrun) as Hb. apply Hr in Hrun.
      assert (Hfull : full m = firstn (endIndex res - index m) rest)
        by (injection Hm as <-; reflexivity).
      assert (Hlenfull : length (full m) = endIndex res - index m)
        by (rewrite Hfull, length_firstn; lia).
      cbn [inOrderFrom]. rewrite <- Hrest.
      repeat split; try lia.
      * now rewrite Hlenfull, <- Hfull.
      * exact Hl.
    + injection H as <-. exact I.
Qed.

(** The occurrences of a hook, in either mode, come in the order of the
    text and do not overlap; each is a non-empty piece of the text at its
    index and ends inside the text. *)
Theorem occurrences_in_order :
  forall hook checkMissingParams text ms,
    occurrences hook checkMissingParams text ms ->
    inOrderFrom text 0 ms.
Proof.
  intros hook checkMissingParams text ms (regex & Hre & Hms).
  apply createRegexFromHook_consuming in Hre.
  eapply execLoop_in_order; [exact Hre|exact Hms].
Qed.

Lemma occurrences_in_order_witness :
  inOrderFrom (js "void Foo(a) x void Foo ( b, c )") 0
    [mkMatch 0 (js "void Foo(a)") [js "a"];
     mkMatch 14 (js "void Foo ( b, c )") [js " b, c "]].
Proof.
  apply (occurrences_in_order (hook := js "void Foo(int x)")
           (checkMissingParams := true)).
  occurrences_concrete.
Defined.

(** [createRegexFromHook] never throws, whatever the hook text holds, and
    the regex it builds never matches the empty text. *)
Theorem createRegexFromHook_never_throws :
  forall hook checkMissingParams,
  exists regex,
    createRegexFromHook hook checkMissingParams = Done regex /\ consuming regex.
Proof.
  intros hook checkMissingParams.
  destruct (createRegexFromHook_total hook checkMissingParams) as [regex H].
  exists regex. split; [exact H|]. now apply createRegexFromHook_consuming in H.
Qed.

(** The escaping of a text and the reading of a pattern undo each other: the
    escaped text reads as the literal text, which matches that text and
    nothing else. *)
Theorem escapeRegExp_literal :
  forall n,
    compile (escapeRegExp n) = Some (lits n) /\
    forall text i m,
      matchHere (lits n) text i = Some m <->
      m = mkMatch i n [] /\ exists rest, text = n ++ rest.
Proof.
  intros n. split; [apply reads_compile, reads_escaped|].
  intros text i m. unfold matchHere. split.
  - destruct (run (lits n) noCaps text i) as [res|] eqn:H; [|discriminate].
    intros [= <-]. rewrite <- (app_nil_r (lits n)) in H.
    apply run_lits_inv in H. destruct H as (rest & -> & H).
    cbn [run] in H. injection H as <-. cbn [endIndex captures closed noCaps].
    split; [|now exists rest].
    f_equal. apply firstn_exact. lia.
  - intros (-> & rest & ->).
    rewrite <- (app_nil_r (lits n)), run_lits. cbn [run endIndex captures closed noCaps].
    do 2 f_equal. apply firstn_exact. lia.
Qed.

Lemma escapeRegExp_literal_witness :
  mkMatch 2 (js "a.b") [] = mkMatch 2 (js "a.b") [] /\
  exists rest, js "a.b(c)" = js "a.b" ++ rest.
Proof.
  apply (proj1 (proj2 (escapeRegExp_literal (js "a.b")) (js "a.b(c)") 2
                  (mkMatch 2 (js "a.b") []))).
  reflexivity.
Defined.

(** ** The whole pass *)

(** The pass ends for every document and every pair of catalogs, without
    throwing; it skips the document exactly when its language is not
    [csharp]. *)
Theorem analyzeDocument_result :
  forall (Position : Type) (positionAt : nat -> Position)
         (document : TextDocument) (deprecatedHooks : list (jsstring * jsstring))
         (validHooks : list jsstring),
  exists result,
    analyzeDocument positionAt document deprecatedHooks validHooks = Done result /\
    (result = None <-> languageId document <> js "csharp").
Proof.
  intros Position positionAt document deprecatedHooks validHooks.
  destruct (streq (languageId document) (js "csharp")) eqn:E.
  - apply streq_spec in E. destruct document as [lang text]. simpl in E. subst lang.
    destruct (analyzeDocument_spec positionAt text deprecatedHooks validHooks)
      as (fd & fv & _ & _ & H).
    eexists. split; [exact H|]. split; [discriminate|]. intros Hne. now elim Hne.
  - assert (Hne : languageId document <> js "csharp").
    { intros H. apply streq_spec in H. congruence. }
    exists None. split; [now apply analyzeDocument_skips|]. tauto.
Qed.

Lemma analyzeDocument_result_witness :
  exists result,
    analyzeDocument (fun n => n) (mkTextDocument (js "rust") (js "void Foo()"))
      [] [js "void Foo()"] = Done result /\
    result = None.
Proof.
  destruct (analyzeDocument_result (fun n => n)
              (mkTextDocument (js "rust") (js "void Foo()")) [] [js "void Foo()"])
    as (result & H & Hnone).
  exists result. split; [exact H|]. apply Hnone. discriminate.
Defined.

Lemma Forall2_combine_In (A B : Type) (R : A -> B -> Prop) (l1 : list A) (l2 : list B) :
  Forall2 R l1 l2 -> forall a b, In (a, b) (combine l1 l2) -> R a b.
Proof.
  induction 1 as [|x y l1 l2 Hxy _ IH]; intros a b Hin; simpl in Hin; [contradiction|].
  destruct Hin as [[= <- <-]|Hin]; [exact Hxy|now apply IH].
Qed.

Lemma Forall2_In_right (A B : Type) (R : A -> B -> Prop) (l1 : list A) (l2 : list B) :
  Forall2 R l1 l2 -> forall b, In b l2 -> exists a, In a l1 /\ R a b.
Proof.
  induction 1 as [|x y l1 l2 Hxy _ IH]; intros b Hin; simpl in Hin; [contradiction|].
  destruct Hin as [<-|Hin].
  - exists x. split; [now left|exact Hxy].
  - destruct (IH _ Hin) as (a & Ha & HR). exists a. split; [now right|exact HR].
Qed.

(** What the pass hands over: the diagnostics of the deprecated hooks come
    first and are errors, those of the valid hooks follow and are warnings;
    all carry the source name of the analyzer, and the range of every
    warning is one of the highlighted ranges. *)
Theorem analyzeDocument_diagnostics :
  forall (Position : Type) (positionAt : nat -> Position)
         (document : TextDocument) (deprecatedHooks : list (jsstring * jsstring))
         (validHooks : list jsstring) diagnostics validHookRanges,
    analyzeDocument positionAt document deprecatedHooks validHooks =
      Done (Some (diagnostics, validHookRanges)) ->
    exists errors warnings,
      diagnostics = errors ++ warnings /\
      Forall (fun d => severity d = Error /\ source d = analyzerSource) errors /\
      Forall (fun d => severity d = Warning /\ source d = analyzerSource /\
                       In (range d) validHookRanges) warnings.
Proof.
  intros Position positionAt document deprecatedHooks validHooks diagnostics
    validHookRanges H.
  destruct (streq (languageId document) (js "csharp")) eqn:E.
  2:{ unfold analyzeDocument in H. rewrite E in H. discriminate. }
  apply streq_spec in E. destruct document as [lang text]. simpl in E. subst lang.
  destruct (analyzeDocument_spec positionAt text deprecatedHooks validHooks)
    as (fd & fv & _ & Hfv & Hspec).
  rewrite Hspec in H. injection H as <- <-.
  eexists _, _. split; [reflexivity|]. split.
  - apply Forall_flat_map, Forall_forall. intros [[oldHook newHook] ms] _.
    apply Forall_forall. intros d Hd. apply in_map_iff in Hd.
    destruct Hd as (m & <- & _). split; reflexivity.
  - apply Forall_flat_map, Forall_forall. intros [hook [parsedHook ms]] Hin.
    apply in_combine_r in Hin.
    apply Forall_flat_map, Forall_forall. intros m Hm.
    unfold missingDiagnostics.
    destruct (actualCount m <? length (parameters parsedHook)); [|constructor].
    constructor; [|constructor]. repeat split.
    cbn [range missingDiagnostic]. apply in_flat_map.
    exists (parsedHook, ms). split; [exact Hin|]. cbn [snd]. now apply in_map.
Qed.

Lemma analyzeDocument_diagnostics_witness :
  exists errors warnings,
    [mkDiagnostic (mkRange 11 26) (deprecatedMessage (js "void Old(int x)") [])
       Error analyzerSource;
     mkDiagnostic (mkRange 0 10) (missingMessage (js "Foo") (js "void Foo(int x)"))
       Warning analyzerSource] = errors ++ warnings /\
    Forall (fun d => severity d = Error /\ source d = analyzerSource) errors /\
    Forall (fun d => severity d = Warning /\ source d = analyzerSource /\
                     In (range d) [mkRange 0 10]) warnings.
Proof.
  apply (analyzeDocument_diagnostics (fun n => n)
           (mkTextDocument (js "csharp") (js "void Foo() void Old(int q)"))
           [(js "void Old(int x)", [])] [js "void Foo(int x)"]).
  vm_compute. reflexivity.
Defined.

(** A regex that starts with a literal finds nothing in a text without that
    code unit. *)
Lemma search_no_first (a : Atom) (r : Regex) (s : jsstring) :
  (forall c, In c s -> atomMatches a c = false) ->
  forall i, search (TAtom a QOne :: r) s i = None.
Proof.
  induction s as [|c s IH]; intros Hs i; [reflexivity|].
  cbn [search]. unfold matchHere. cbn [run].
  rewrite (Hs c) by now left.
  apply IH. intros d Hd. apply Hs. now right.
Qed.

Lemma exec_no_first (a : Atom) (r : Regex) (text : jsstring) (lastIndex : nat) :
  (forall c, In c text -> atomMatches a c = false) ->
  exec (TAtom a QOne :: r) text lastIndex = None.
Proof.
  intros H. unfold exec. destruct (length text <? lastIndex); [reflexivity|].
  apply search_no_first. intros c Hc. apply H.
  rewrite <- (firstn_skipn lastIndex text). apply in_or_app. now right.
Qed.

Lemma occurrences_without_v (hook : jsstring) (checkMissingParams : bool)
    (text : jsstring) (ms : list Match) :
  ~ In 118%N text ->
  occurrences hook checkMissingParams text ms -> ms = [].
Proof.
  intros Hv (regex & Hre & Hms).
  destruct (parseHook_total hook) as [parsed H].
  assert (Hstart : exists r, regex = TAtom (lit 118%N) QOne :: r).
  { destruct checkMissingParams.
    - rewrite (createRegexFromHook_permissive _ H) in Hre. injection Hre as <-.
      eexists. reflexivity.
    - rewrite (createRegexFromHook_strict _ H) in Hre. injection Hre as <-.
      destruct (parameters parsed); eexists; reflexivity. }
  destruct Hstart as (r & ->).
  unfold execAll in Hms. cbn [execLoop] in Hms.
  rewrite exec_no_first in Hms; [now injection Hms|].
  intros c Hc. destruct (atomMatches (lit 118%N) c) eqn:E; [|reflexivity].
  apply lit_spec in E. now subst c.
Qed.

Lemma flat_map_nil (A B : Type) (f : A -> list B) (l : list A) :
  (forall x, In x l -> f x = []) -> flat_map f l = [].
Proof.
  induction l as [|x l IH]; intros H; simpl; [reflexivity|].
  rewrite (H x) by now left. apply IH. intros y Hy. apply H. now right.
Qed.

(** A document that does not hold the letter [v], the empty document among
    them, gets no diagnostic and no highlighted range, whatever the
    catalogs. *)
Theorem analyzeDocument_without_v :
  forall (Position : Type) (positionAt : nat -> Position) (text : jsstring)
         (deprecatedHooks : list (jsstring * jsstring)) (validHooks : list jsstring),
    ~ In 118%N text ->
    analyzeDocument positionAt (mkTextDocument (js "csharp") text)
      deprecatedHooks validHooks =
    Done (Some ([], [])).
Proof.
  intros Position positionAt text deprecatedHooks validHooks Hv.
  destruct (analyzeDocument_spec positionAt text deprecatedHooks validHooks)
    as (fd & fv & Hfd & Hfv & ->).
  do 3 f_equal.
  - rewrite !flat_map_nil; [reflexivity| |].
    + intros [hook [parsedHook ms]] Hin.
      apply (Forall2_combine_In Hfv) in Hin. cbn [fst snd] in Hin.
      destruct Hin as [_ Hocc]. now rewrite (occurrences_without_v Hv Hocc).
    + intros [[oldHook newHook] ms] Hin.
      apply (Forall2_combine_In Hfd) in Hin. cbn [fst] in Hin.
      now rewrite (occurrences_without_v Hv Hin).
  - apply flat_map_nil. intros [parsedHook ms] Hin.
    destruct (Forall2_In_right Hfv _ Hin) as (hook & _ & _ & Hocc). cbn [snd] in *.
    now rewrite (occurrences_without_v Hv Hocc).
Qed.

Lemma analyzeDocument_without_v_witness :
  analyzeDocument (fun n => n)
    (mkTextDocument (js "csharp") (js "class Plugin { int OnTick() { } }"))
    [(js "void OnTick()", [])] [js "void OnTick()"] =
  Done (Some ([], [])).
Proof.
  apply analyzeDocument_without_v.
  vm_compute. intuition discriminate.
Defined.

(** A hook whose parsed form has no parameters, as every hook text that is
    not of the shape has, is highlighted wherever the permissive regex finds
    it and never flagged. *)
Theorem no_parameters_never_flagged :
  forall (Position : Type) (positionAt : nat -> Position)
         (hook : jsstring) (parsedHook : ParsedHook) (text : jsstring)
         diagnostics validHookRanges,
    parseHook hook = Done parsedHook ->
    parameters parsedHook = [] ->
    exists ms,
      occurrences hook true text ms /\
      processValid positionAt [hook] text (diagnostics, validHookRanges) =
      Done (diagnostics, validHookRanges ++ map (matchRange positionAt) ms).
Proof.
  intros Position positionAt hook parsedHook text diagnostics validHookRanges H Hp.
  destruct (processValid_spec positionAt text [hook] diagnostics validHookRanges)
    as (found & Hfound & ->).
  inversion Hfound as [|? [parsed' ms] ? ? [Hparsed Hocc] Hnil]; subst.
  inversion Hnil; subst. cbn [fst snd] in *.
  assert (parsed' = parsedHook) as -> by congruence.
  exists ms. split; [exact Hocc|].
  cbn [combine flat_map snd]. rewrite !app_nil_r.
  rewrite flat_map_nil; [now rewrite app_nil_r|].
  intros m _. unfold missingDiagnostics. now rewrite Hp.
Qed.

Lemma no_parameters_never_flagged_witness :
  exists ms,
    occurrences (js "OnServerInitialized") true (js "void OnServerInitialized(bool x)") ms /\
    processValid (fun n => n) [js "OnServerInitialized"]
      (js "void OnServerInitialized(bool x)") ([], []) =
    Done ([], [] ++ map (matchRange (fun n => n)) ms).
Proof.
  apply no_parameters_never_flagged
    with (parsedHook := mkParsedHook (js "OnServerInitialized") [] None);
    reflexivity.
Defined.

(** ** The signature checks *)

Section TypeChecks.

Variable toLowerCase : jsstring -> jsstring.

Lemma split_first (sep : char) (a b : jsstring) :
  ~ In sep a -> split sep (a ++ sep :: b) = a :: split sep b.
Proof.
  induction a as [|c a IH]; intros Ha; simpl.
  - now rewrite N.eqb_refl.
  - destruct (N.eqb_spec c sep) as [->|_]; [exfalso; apply Ha; now left|].
    rewrite IH; [reflexivity|]. intros H. apply Ha. now right.
Qed.

Lemma includes_spec (c : char) (s : jsstring) : includes c s = true <-> In c s.
Proof.
  unfold includes. rewrite existsb_exists. split.
  - intros (d & Hd & E). apply N.eqb_eq in E. now subst d.
  - intros H. exists c. split; [exact H|apply N.eqb_refl].
Qed.

(** [isValidType] judges an array type by its element type, and a generic
    type by the name before its first [<] alone: the type arguments are not
    looked at. *)
Theorem isValidType_arrays_and_generics :
  (forall type,
      isValidType toLowerCase (type ++ js "[]") = isValidType toLowerCase type) /\
  (forall baseType args,
      ~ In LT baseType ->
      (forall element, baseType ++ LT :: args <> element ++ js "[]") ->
      isValidType toLowerCase (baseType ++ LT :: args) = isClassName baseType).
Proof.
  split.
  - intros type. unfold isValidType. rewrite rev_app_distr. reflexivity.
  - intros baseType args Hbase Hnot. unfold isValidType.
    assert (Hplain : isValidTypeRev toLowerCase (rev (baseType ++ LT :: args)) =
                     isValidPlainType toLowerCase (baseType ++ LT :: args)).
    { rewrite <- (rev_involutive (baseType ++ LT :: args)) at 2.
      destruct (rev (baseType ++ LT :: args)) as [|c1 [|c2 rest]] eqn:E;
        [reflexivity|reflexivity|].
      cbn [isValidTypeRev].
      destruct (N.eqb_spec c1 RBRACKET) as [->|_];
        [destruct (N.eqb_spec c2 LBRACKET) as [->|_]|]; try reflexivity.
      exfalso. apply (Hnot (rev rest)).
      apply (f_equal (@rev char)) in E. rewrite rev_involutive in E.
      rewrite E. simpl. now rewrite <- app_assoc. }
    rewrite Hplain. unfold isValidPlainType.
    replace (includes LT (baseType ++ LT :: args)) with true
      by (symmetry; apply includes_spec, in_or_app; right; now left).
    now rewrite split_first.
Qed.

(** [isValidHookSignature] accepts every text that is not of the shape of a
    signature, unless nothing is left of it after the cleaning; and it
    rejects a signature with a parameter that holds no space. *)
Theorem isValidHookSignature_edges :
  (forall signature,
      (forall fullName ws paramString,
          ~ MethodShape (cleanSignature signature) fullName ws paramString) ->
      isValidHookSignature toLowerCase signature =
      Done (0 <? length (cleanSignature signature))) /\
  (forall signature parsed param,
      parseHook signature = Done parsed ->
      In param (parameters parsed) ->
      ~ In SPACE param ->
      isValidHookSignature toLowerCase signature = Done false).
Proof.
  split.
  - intros signature H. unfold isValidHookSignature.
    rewrite (parseHook_degraded _ H). cbn [bind name parameters forallb].
    now rewrite andb_true_r.
  - intros signature parsed param H Hin Hsp. unfold isValidHookSignature.
    rewrite H. cbn [bind].
    assert (E : forallb (isValidParameter toLowerCase) (parameters parsed) = false).
    { destruct (forallb (isValidParameter toLowerCase) (parameters parsed)) eqn:E;
        [|reflexivity].
      rewrite forallb_forall in E. specialize (E _ Hin).
      unfold isValidParameter in E. rewrite split_without_sep in E by assumption.
      discriminate. }
    rewrite E. now rewrite andb_false_r.
Qed.

End TypeChecks.

Lemma isValidType_arrays_and_generics_witness :
  isValidType asciiToLowerCase (js "Dictionary<string, int>") =
  isClassName (js "Dictionary").
Proof.
  apply (proj2 (isValidType_arrays_and_generics asciiToLowerCase) (js "Dictionary") (js "string, int>")).
  - vm_compute. intuition discriminate.
  - intros element H. apply (f_equal (@rev char)) in H.
    rewrite !rev_app_distr in H. simpl in H. discriminate.
Defined.

Lemma isValidHookSignature_edges_witness :
  isValidHookSignature asciiToLowerCase (js "void Foo(Dictionary<string, int> a)") =
  Done false.
Proof.
  apply (proj2 (isValidHookSignature_edges asciiToLowerCase)
           (js "void Foo(Dictionary<string, int> a)")
           (mkParsedHook (js "Foo") [js "Dictionary<string"; js "int> a"] None)
           (js "Dictionary<string")).
  - reflexivity.
  - now left.
  - vm_compute. intuition discriminate.
Defined.

(** ** [generateSnippets] *)

Lemma stringEq_spec (a b : jsstring) : stringEq a b = true <-> a = b.
Proof.
  revert b. induction a as [|x a IH]; intros [|y b]; simpl;
    try (split; [discriminate|discriminate]); [tauto|].
  rewrite andb_true_iff, N.eqb_eq, IH. split.
  - now intros [-> ->].
  - now intros [= -> ->].
Qed.

Lemma stringEq_refl (a : jsstring) : stringEq a a = true.
Proof. now apply stringEq_spec. Qed.

Lemma stringEq_false (a b : jsstring) : stringEq a b = false <-> a <> b.
Proof.
  destruct (stringEq a b) eqn:E.
  - apply stringEq_spec in E. split; [discriminate|contradiction].
  - split; [|reflexivity]. intros _ H. apply stringEq_spec in H. congruence.
Qed.

(** *** Array indices *)

Lemma decimalValue_snoc (s : jsstring) (d : char) :
  forall acc,
    decimalValue acc (s ++ [d]) =
    match decimalValue acc s with
    | Some v => if isDigit d then Some (v * 10 + (d - 48))%N else None
    | None => None
    end.
Proof.
  induction s as [|c s IH]; intros acc; simpl.
  - now destruct (isDigit d).
  - destruct (isDigit c); [apply IH|reflexivity].
Qed.

Lemma isDigit_range (d : char) : isDigit d = true -> (48 <= d <= 57)%N.
Proof.
  unfold isDigit. rewrite andb_true_iff, !N.leb_le. tauto.
Qed.

Lemma decimalValue_digits (s : jsstring) :
  forall acc v, decimalValue acc s = Some v -> Forall (fun c => isDigit c = true) s.
Proof.
  induction s as [|c s IH]; intros acc v H; simpl in H; [constructor|].
  destruct (isDigit c) eqn:Hc; [|discriminate].
  constructor; [exact Hc|eauto].
Qed.

(** A decimal text of value 0 holds zeros only. *)
Lemma decimalValue_zero (s : jsstring) :
  decimalValue 0 s = Some 0%N -> Forall (fun c => c = 48%N) s.
Proof.
  induction s as [|d s IH] using rev_ind; intros H; [constructor|].
  rewrite decimalValue_snoc in H.
  destruct (decimalValue 0 s) as [v|]; [|discriminate].
  destruct (isDigit d) eqn:Hd; [|discriminate].
  apply isDigit_range in Hd. injection H as H.
  apply Forall_app. split.
  - apply IH. f_equal. lia.
  - constructor; [lia|constructor].
Qed.

(** Decimal texts without a leading zero are the same when their values
    are. *)
Lemma decimalValue_inj (s1 : jsstring) :
  forall s2 v,
    decimalValue 0 s1 = Some v ->
    decimalValue 0 s2 = Some v ->
    hd_error s1 <> Some 48%N ->
    hd_error s2 <> Some 48%N ->
    s1 = s2.
Proof.
  assert (Hnil : forall s, decimalValue 0 s = Some 0%N -> hd_error s <> Some 48%N ->
                           s = []).
  { intros s Hs Hh. apply decimalValue_zero in Hs.
    destruct s as [|c s]; [reflexivity|].
    inversion Hs; subst. now elim Hh. }
  induction s1 as [|d1 t1 IH] using rev_ind; intros s2 v H1 H2 Hh1 Hh2.
  - simpl in H1. injection H1 as <-. symmetry. now apply Hnil.
  - destruct s2 as [|d2 t2 _] using rev_ind.
    + simpl in H2. injection H2 as <-. now apply Hnil.
    + rewrite decimalValue_snoc in H1, H2.
      destruct (decimalValue 0 t1) as [v1|] eqn:E1; [|discriminate].
      destruct (decimalValue 0 t2) as [v2|] eqn:E2; [|discriminate].
      destruct (isDigit d1) eqn:Hd1; [|discriminate].
      destruct (isDigit d2) eqn:Hd2; [|discriminate].
      apply isDigit_range in Hd1, Hd2.
      injection H1 as H1. injection H2 as H2.
      assert (v1 = v2 /\ d1 = d2) as [-> ->] by lia.
      f_equal. apply (IH t2 v2); [reflexivity|exact E2| |].
      * destruct t1; [discriminate|exact Hh1].
      * destruct t2; [discriminate|exact Hh2].
Qed.

(** The index is the whole of an array index: two keys of the same index
    are the same key. *)
Lemma arrayIndex_inj (a b : jsstring) (n : N) :
  arrayIndex a = Some n -> arrayIndex b = Some n -> a = b.
Proof.
  assert (Hcases : forall k m, arrayIndex k = Some m ->
            decimalValue 0 k = Some m /\ (k = [48%N] \/ hd_error k <> Some 48%N)).
  { intros k m H. unfold arrayIndex in H. destruct k as [|c rest]; [discriminate|].
    destruct (N.eqb_spec c 48) as [->|Hc].
    - destruct rest as [|c' rest]; [|discriminate].
      vm_compute in H. injection H as <-. split; [reflexivity|now left].
    - cbn [andb] in H.
      destruct (decimalValue 0 (c :: rest)) as [v|]; [|discriminate].
      destruct (N.ltb v 4294967295); [|discriminate].
      split; [exact H|right]. simpl. congruence. }
  assert (Hzero : forall k, decimalValue 0 k = Some 0%N ->
                            k = [48%N] \/ hd_error k <> Some 48%N -> k <> [] ->
                            k = [48%N]).
  { intros k Hk [E|Hh] Hne; [exact E|].
    apply decimalValue_zero in Hk. destruct k as [|c k]; [contradiction|].
    inversion Hk; subst. now elim Hh. }
  intros Ha Hb.
  assert (Hane : a <> []) by (intros ->; discriminate).
  assert (Hbne : b <> []) by (intros ->; discriminate).
  destruct (Hcases _ _ Ha) as [Hva Hca]. destruct (Hcases _ _ Hb) as [Hvb Hcb].
  destruct Hca as [->|Hha].
  - simpl in Hva. injection Hva as <-. symmetry. now apply Hzero.
  - destruct Hcb as [->|Hhb].
    + simpl in Hvb. injection Hvb as <-. now apply Hzero; [|right|].
    + eapply decimalValue_inj; eassumption.
Qed.

Lemma indexBefore_trans (a b c : jsstring) :
  indexBefore a b -> indexBefore b c -> indexBefore a c.
Proof.
  unfold indexBefore.
  destruct (arrayIndex a), (arrayIndex b), (arrayIndex c); try tauto. lia.
Qed.

Lemma indexBefore_irrefl (a : jsstring) : ~ indexBefore a a.
Proof. unfold indexBefore. destruct (arrayIndex a); [lia|tauto]. Qed.

Lemma sorted_NoDup (l : list jsstring) : StronglySorted indexBefore l -> NoDup l.
Proof.
  induction 1 as [|a l _ IH Hall]; constructor; [|exact IH].
  intros Hin. rewrite Forall_forall in Hall.
  exact (@indexBefore_irrefl a (Hall _ Hin)).
Qed.

(** *** The own properties *)

Lemma hasOwn_spec (props : list (jsstring * Snippet)) (key : jsstring) :
  hasOwn props key = true <-> In key (map fst props).
Proof.
  unfold hasOwn. rewrite existsb_exists, in_map_iff. split.
  - intros (entry & Hin & E). apply stringEq_spec in E. eauto.
  - intros (entry & E & Hin). exists entry. split; [exact Hin|now apply stringEq_spec].
Qed.

Lemma update_keys (props : list (jsstring * Snippet)) (key : jsstring) (value : Snippet) :
  map fst (update props key value) = map fst props.
Proof.
  unfold update. rewrite map_map. apply map_ext.
  intros entry. now destruct (stringEq (fst entry) key).
Qed.

Lemma update_In (props : list (jsstring * Snippet)) (key : jsstring) (value : Snippet)
    (k : jsstring) (v : Snippet) :
  In (k, v) (update props key value) -> (k = key /\ v = value) \/ In (k, v) props.
Proof.
  unfold update. rewrite in_map_iff. intros ([k' v'] & E & Hin). simpl in E.
  destruct (stringEq k' key) eqn:Ek.
  - apply stringEq_spec in Ek. injection E as <- <-. now left.
  - injection E as <- <-. now right.
Qed.

Lemma update_same (props : list (jsstring * Snippet)) (key : jsstring) (value : Snippet) :
  (forall v, In (key, v) props -> v = value) -> update props key value = props.
Proof.
  intros H. unfold update. rewrite <- (map_id props) at 2.
  apply map_ext_in. intros [k v] Hin. simpl.
  destruct (stringEq k key) eqn:Ek; [|reflexivity].
  apply stringEq_spec in Ek. subst k. now rewrite (H _ Hin).
Qed.

Lemma insertIndex_In (n : N) (entry other : jsstring * Snippet)
    (props : list (jsstring * Snippet)) :
  In other (insertIndex n entry props) <-> other = entry \/ In other props.
Proof.
  induction props as [|first rest IH]; simpl; [intuition congruence|].
  destruct (arrayIndex (fst first)) as [m|]; [destruct (N.ltb m n)|];
    simpl; rewrite ?IH; intuition congruence.
Qed.

(** A new array index goes to its place among the array indices. *)
Lemma insertIndex_keys (n : N) (key : jsstring) (value : Snippet)
    (named : list jsstring) :
  arrayIndex key = Some n ->
  Forall (fun k => arrayIndex k = None) named ->
  forall indexKeys props,
    map fst props = indexKeys ++ named ->
    Forall (fun k => arrayIndex k <> None) indexKeys ->
    StronglySorted indexBefore indexKeys ->
    ~ In key indexKeys ->
    exists indexKeys',
      map fst (insertIndex n (key, value) props) = indexKeys' ++ named /\
      StronglySorted indexBefore indexKeys' /\
      (forall k, In k indexKeys' <-> k = key \/ In k indexKeys).
Proof.
  intros Hkey Hnamed.
  induction indexKeys as [|k0 indexKeys IH]; intros props Hprops Hidx Hsorted Hnew.
  - exists [key]. split; [|split].
    + destruct props as [|[k v] rest]; [simpl in *; now rewrite <- Hprops|].
      cbn [app] in Hprops. cbn [insertIndex fst].
      assert (Hk : arrayIndex k = None).
      { rewrite <- Hprops in Hnamed. now inversion Hnamed. }
      rewrite Hk. simpl. now rewrite <- Hprops.
    + repeat constructor.
    + intros k. simpl. intuition congruence.
  - destruct props as [|[k v] rest]; [discriminate|].
    cbn [map fst app] in Hprops. injection Hprops as -> Hrest.
    inversion Hidx as [|? ? Hk0 Hidx']; subst.
    inversion Hsorted as [|? ? Hsorted' Hall]; subst.
    cbn [insertIndex fst].
    destruct (arrayIndex k0) as [m|] eqn:Em; [|contradiction].
    destruct (N.ltb_spec m n) as [Hlt|Hge].
    + destruct (IH rest Hrest Hidx' Hsorted') as (keys' & Hkeys & Hs & Hin).
      { intros H. apply Hnew. now right. }
      exists (k0 :: keys'). split; [|split].
      * simpl. now rewrite Hkeys.
      * constructor; [exact Hs|]. apply Forall_forall. intros k Hk.
        apply Hin in Hk. destruct Hk as [->|Hk].
        -- unfold indexBefore. now rewrite Em, Hkey.
        -- rewrite Forall_forall in Hall. now apply Hall.
      * intros k. simpl. rewrite Hin. tauto.
    + assert (Hnm : (n < m)%N).
      { destruct (N.eq_dec n m) as [->|Hne]; [|lia].
        exfalso. apply Hnew. left. eapply arrayIndex_inj; eassumption. }
      assert (Hfirst : indexBefore key k0).
      { unfold indexBefore. now rewrite Hkey, Em. }
      exists (key :: k0 :: indexKeys). split; [|split].
      * simpl. now rewrite Hrest.
      * constructor; [exact Hsorted|]. constructor; [exact Hfirst|].
        eapply Forall_impl; [|exact Hall].
        intros k Hk. eapply indexBefore_trans; eassumption.
      * intros k. simpl. intuition congruence.
Qed.

(** *** First occurrences *)

Lemma firstOccurrences_In (l : list jsstring) (k : jsstring) :
  In k (firstOccurrences l) <-> In k l.
Proof.
  unfold firstOccurrences. now rewrite <- in_rev, nodup_In, <- in_rev.
Qed.

Lemma firstOccurrences_NoDup (l : list jsstring) : NoDup (firstOccurrences l).
Proof. unfold firstOccurrences. apply NoDup_rev, NoDup_nodup. Qed.

Lemma firstOccurrences_old (l : list jsstring) (k : jsstring) :
  In k l -> firstOccurrences (l ++ [k]) = firstOccurrences l.
Proof.
  intros H. unfold firstOccurrences. rewrite rev_app_distr. cbn [rev app nodup].
  destruct (in_dec (list_eq_dec N.eq_dec) k (rev l)) as [_|Hn]; [reflexivity|].
  elim Hn. now apply in_rev in H.
Qed.

Lemma firstOccurrences_new (l : list jsstring) (k : jsstring) :
  ~ In k l -> firstOccurrences (l ++ [k]) = firstOccurrences l ++ [k].
Proof.
  intros H. unfold firstOccurrences. rewrite rev_app_distr. cbn [rev app nodup].
  destruct (in_dec (list_eq_dec N.eq_dec) k (rev l)) as [Hin|_]; [|reflexivity].
  elim H. now apply in_rev.
Qed.

(** *** The loop *)

Lemma isNamedKey_spec (key : jsstring) :
  isNamedKey key = true <-> arrayIndex key = None /\ key <> protoKey.
Proof.
  unfold isNamedKey. destruct (arrayIndex key).
  - split; [discriminate|intros [H _]; discriminate].
  - rewrite negb_true_iff, stringEq_false. split; [auto|tauto].
Qed.

Lemma parseHook_protoKey :
  parseHook protoKey = Done (mkParsedHook protoKey [] None).
Proof. reflexivity. Qed.

(** One more hook: the object after the assignment is the object of the
    hooks so far and of that hook. *)
Lemma setProp_SnippetsOf (hooks : list jsstring) (snippets : Snippets)
    (hook : jsstring) (parsedHook : ParsedHook) :
  SnippetsOf hooks snippets ->
  parseHook hook = Done parsedHook ->
  SnippetsOf (hooks ++ [hook]) (setProp snippets hook (snippetOf parsedHook)).
Proof.
  intros (indexKeys & Hkeys & Hindex & Hsorted & Hvalues & Hproto) Hparsed.
  assert (Hidx : Forall (fun k => arrayIndex k <> None) indexKeys).
  { apply Forall_forall. intros k Hk. now apply Hindex in Hk. }
  assert (Hnamed : Forall (fun k => arrayIndex k = None)
                     (firstOccurrences (filter isNamedKey hooks))).
  { apply Forall_forall. intros k Hk. apply firstOccurrences_In, filter_In in Hk.
    destruct Hk as [_ Hk]. apply isNamedKey_spec in Hk. tauto. }
  assert (Hsame : arrayIndex hook = None \/ In hook indexKeys ->
                  forall key, In key indexKeys <->
                              In key (hooks ++ [hook]) /\ arrayIndex key <> None).
  { intros Hh key. rewrite in_app_iff, Hindex. simpl. split; [tauto|].
    intros [[Hin|[<-|[]]] Hk]; [tauto|].
    destruct Hh as [Hh|Hh]; [congruence|]. now apply Hindex. }
  unfold setProp, SnippetsOf.
  rewrite filter_app, existsb_app. cbn [filter existsb].
  destruct (stringEq hook protoKey) eqn:Ehook.
  - apply stringEq_spec in Ehook. subst hook.
    rewrite parseHook_protoKey in Hparsed. injection Hparsed as <-.
    exists indexKeys. cbn [properties prototype].
    replace (isNamedKey protoKey) with false by reflexivity.
    rewrite app_nil_r, stringEq_refl, orb_true_r.
    split; [exact Hkeys|]. split; [apply Hsame; now left|].
    split; [exact Hsorted|]. split; [exact Hvalues|reflexivity].
  - apply stringEq_false in Ehook.
    replace (stringEq protoKey hook) with false
      by (symmetry; apply stringEq_false; congruence).
    rewrite orb_false_r. cbn [properties prototype].
    assert (Hnew : forall k v,
               (k = hook /\ v = snippetOf parsedHook) \/ In (k, v) (properties snippets) ->
               exists parsed, parseHook k = Done parsed /\ v = snippetOf parsed).
    { intros k v [[-> ->]|Hin]; [eauto|now apply Hvalues]. }
    unfold defineOwn.
    destruct (hasOwn (properties snippets) hook) eqn:Hown.
    + apply hasOwn_spec in Hown. rewrite Hkeys, in_app_iff in Hown.
      rewrite update_keys.
      assert (Hupdate : forall key value,
                 In (key, value) (update (properties snippets) hook (snippetOf parsedHook)) ->
                 exists parsed, parseHook key = Done parsed /\ value = snippetOf parsed).
      { intros key value Hin. apply Hnew. now apply update_In. }
      destruct (arrayIndex hook) as [n|] eqn:En.
      * assert (Hhook : In hook indexKeys).
        { destruct Hown as [H|H]; [exact H|].
          rewrite Forall_forall in Hnamed. apply Hnamed in H. congruence. }
        exists indexKeys.
        replace (isNamedKey hook) with false by (unfold isNamedKey; now rewrite En).
        rewrite app_nil_r.
        split; [exact Hkeys|]. split; [apply Hsame; now right|].
        split; [exact Hsorted|]. split; [exact Hupdate|exact Hproto].
      * assert (Hhook : In hook (filter isNamedKey hooks)).
        { destruct Hown as [H|H]; [|now apply firstOccurrences_In].
          apply Hindex in H. now elim (proj2 H). }
        exists indexKeys.
        replace (isNamedKey hook) with true
          by (symmetry; now apply isNamedKey_spec).
        rewrite (firstOccurrences_old _ _ Hhook).
        split; [exact Hkeys|]. split; [apply Hsame; now left|].
        split; [exact Hsorted|]. split; [exact Hupdate|exact Hproto].
    + assert (Hfresh : ~ In hook (map fst (properties snippets))).
      { intros H. apply hasOwn_spec in H. congruence. }
      rewrite Hkeys, in_app_iff in Hfresh.
      destruct (arrayIndex hook) as [n|] eqn:En.
      * destruct (@insertIndex_keys n hook (snippetOf parsedHook) _ En Hnamed
                    indexKeys (properties snippets) Hkeys Hidx Hsorted)
          as (keys' & Hkeys' & Hsorted' & Hin'); [tauto|].
        exists keys'.
        replace (isNamedKey hook) with false by (unfold isNamedKey; now rewrite En).
        rewrite app_nil_r.
        split; [exact Hkeys'|]. split; [|split; [exact Hsorted'|split; [|exact Hproto]]].
        -- intros key. rewrite Hin', in_app_iff, Hindex. simpl. split.
           ++ intros [->|[Hin Hk]]; [split; [tauto|congruence]|tauto].
           ++ intros [[Hin|[<-|[]]] Hk]; tauto.
        -- intros key value Hin. apply Hnew. apply insertIndex_In in Hin.
           destruct Hin as [[= -> ->]|Hin]; auto.
      * exists indexKeys.
        replace (isNamedKey hook) with true
          by (symmetry; now apply isNamedKey_spec).
        rewrite firstOccurrences_new
          by (intros H; apply Hfresh; right; now apply firstOccurrences_In).
        rewrite map_app, Hkeys, <- app_assoc.
        split; [reflexivity|]. split; [apply Hsame; now left|].
        split; [exact Hsorted|]. split; [|exact Hproto].
        intros key value Hin. apply Hnew. apply in_app_iff in Hin.
        destruct Hin as [Hin|[[= -> ->]|[]]]; auto.
Qed.

Lemma generateLoop_SnippetsOf (hooks : list jsstring) :
  forall done snippets,
    SnippetsOf done snippets ->
    exists result,
      generateLoop hooks snippets = Done result /\ SnippetsOf (done ++ hooks) result.
Proof.
  induction hooks as [|hook hooks IH]; intros done snippets H.
  - exists snippets. split; [reflexivity|now rewrite app_nil_r].
  - destruct (parseHook_total hook) as [parsedHook Hparsed].
    destruct (IH _ _ (@setProp_SnippetsOf _ _ _ _ H Hparsed)) as (result & Hrun & Hres).
    exists result. cbn [generateLoop]. rewrite Hparsed. cbn [bind].
    split; [exact Hrun|]. now rewrite <- app_assoc in Hres.
Qed.

Lemma generateLoop_app (l1 l2 : list jsstring) :
  forall snippets result,
    generateLoop l1 snippets = Done result ->
    generateLoop (l1 ++ l2) snippets = generateLoop l2 result.
Proof.
  induction l1 as [|hook l1 IH]; intros snippets result H; simpl in *.
  - now injection H as <-.
  - destruct (parseHook hook) as [parsedHook| |]; simpl in *; try discriminate.
    now apply IH.
Qed.

(** The keys of the object of a list of hooks: the hooks but [__proto__]. *)
Lemma SnippetsOf_keys (hooks : list jsstring) (snippets : Snippets) :
  SnippetsOf hooks snippets ->
  forall key,
    In key (map fst (properties snippets)) <-> In key hooks /\ key <> protoKey.
Proof.
  intros (indexKeys & Hkeys & Hindex & _) key.
  rewrite Hkeys, in_app_iff, Hindex, firstOccurrences_In, filter_In, isNamedKey_spec.
  split.
  - intros [[Hin Hk]|[Hin [Hk Hp]]]; split; try assumption.
    intros ->. now apply Hk.
  - intros [Hin Hp]. destruct (arrayIndex key) eqn:E; [left|right]; intuition congruence.
Qed.

Lemma SnippetsOf_NoDup (hooks : list jsstring) (snippets : Snippets) :
  SnippetsOf hooks snippets -> NoDup (map fst (properties snippets)).
Proof.
  intros (indexKeys & Hkeys & Hindex & Hsorted & _). rewrite Hkeys.
  apply NoDup_app; [now apply sorted_NoDup|apply firstOccurrences_NoDup|].
  intros key Hi Hn. apply Hindex in Hi.
  apply firstOccurrences_In, filter_In in Hn.
  destruct Hn as [_ Hn]. apply isNamedKey_spec in Hn. tauto.
Qed.

(** The hooks that an object holds already leave it as it is. *)
Lemma generateLoop_again (hooks done : list jsstring) (snippets : Snippets) :
  SnippetsOf done snippets ->
  incl hooks done ->
  generateLoop hooks snippets = Done snippets.
Proof.
  intros H. induction hooks as [|hook hooks IH]; intros Hincl; [reflexivity|].
  destruct (parseHook_total hook) as [parsedHook Hparsed].
  cbn [generateLoop]. rewrite Hparsed. cbn [bind].
  assert (Hhook : In hook done) by (apply Hincl; now left).
  assert (Hsame : setProp snippets hook (snippetOf parsedHook) = snippets).
  { pose proof (@SnippetsOf_keys _ _ H hook) as Hkey.
    destruct H as (indexKeys & Hkeys & Hindex & Hsorted & Hvalues & Hproto).
    unfold setProp. destruct (stringEq hook protoKey) eqn:Ehook.
    - apply stringEq_spec in Ehook. subst hook.
      rewrite parseHook_protoKey in Hparsed. injection Hparsed as <-.
      replace (existsb (stringEq protoKey) done) with true in Hproto.
      + destruct snippets as [proto props]. simpl in *. now subst proto.
      + symmetry. apply existsb_exists. exists protoKey.
        split; [exact Hhook|apply stringEq_refl].
    - apply stringEq_false in Ehook.
      unfold defineOwn.
      replace (hasOwn (properties snippets) hook) with true
        by (symmetry; apply hasOwn_spec, Hkey; now split).
      rewrite update_same.
      + now destruct snippets.
      + intros v Hv. destruct (Hvalues _ _ Hv) as (parsed & Hp & ->). congruence. }
  rewrite Hsame. apply IH. intros k Hk. apply Hincl. now right.
Qed.

(** [generateSnippets] never throws. The object it returns holds one
    property for every hook of the list but [__proto__], with the snippet of
    that hook as value; [Object.entries] goes through the hooks that are
    array indices first, in ascending order, and then through the other
    hooks in the order of their first occurrences; the hook [__proto__]
    makes its snippet the prototype of the object and adds no property; going
    through the list a second time changes nothing. *)
Theorem generateSnippets_entries :
  (forall hooks,
    exists snippets,
      generateSnippets hooks = Done snippets /\
      SnippetsOf hooks snippets /\
      (forall key,
          In key (map fst (properties snippets)) <->
          In key hooks /\ key <> js "__proto__") /\
      NoDup (map fst (properties snippets)) /\
      generateSnippets (hooks ++ hooks) = Done snippets) /\
  match generateSnippets [js "b"; js "1"; js "a"; js "10"; js "b"; js "9"; js "01"] with
  | Done snippets => map fst (properties snippets)
  | _ => []
  end = [js "1"; js "9"; js "10"; js "b"; js "a"; js "01"] /\
  generateSnippets [js "__proto__"] =
    Done (mkSnippets (Some (snippetOf (mkParsedHook (js "__proto__") [] None))) []) /\
  generateSnippets [js "void OnTick(float dt)"] =
    Done (mkSnippets None
            [(js "void OnTick(float dt)",
              mkSnippet (js "OnTick")
                (js "void OnTick(float dt param1)" ++ [LF] ++ js "{" ++ [LF] ++
                 js "    // Hook logic here" ++ [LF] ++ js "}")
                (js "Hook with parameters float dt param1"))]).
Proof.
  split; [|repeat split; vm_compute; reflexivity].
  intros hooks. unfold generateSnippets.
  assert (Hinit : SnippetsOf [] (mkSnippets None [])).
  { exists []. repeat split; try (simpl; tauto); try constructor. }
  destruct (@generateLoop_SnippetsOf hooks _ _ Hinit) as (snippets & Hrun & Hres).
  cbn [app] in Hres.
  exists snippets. split; [exact Hrun|]. split; [exact Hres|].
  split; [exact (@SnippetsOf_keys _ _ Hres)|]. split; [exact (@SnippetsOf_NoDup _ _ Hres)|].
  rewrite generateLoop_app with (result := snippets) by exact Hrun.
  apply generateLoop_again with (done := hooks); [exact Hres|apply incl_refl].
Qed.

(** ** The snippet of a hook under the analysis *)

Lemma split_incl (sep : char) (s piece : jsstring) (c : char) :
  In piece (split sep s) -> In c piece -> In c s.
Proof.
  revert piece. induction s as [|d s IH]; intros piece Hp Hc; simpl in Hp.
  - destruct Hp as [<-|[]]. exact Hc.
  - destruct (N.eqb d sep).
    + destruct Hp as [<-|Hp]; [contradiction|]. right. eauto.
    + destruct (split sep s) as [|first rest] eqn:Es.
      * now apply split_nonempty in Es.
      * destruct Hp as [<-|Hp].
        -- destruct Hc as [<-|Hc]; [now left|]. right. apply (IH first); [now left|exact Hc].
        -- right. apply (IH piece); [now right|exact Hc].
Qed.

Lemma join_In (sep : jsstring) (parts : list jsstring) (c : char) :
  In c (join sep parts) ->
  In c sep \/ exists part, In part parts /\ In c part.
Proof.
  induction parts as [|p parts IH]; intros H; [contradiction|].
  destruct parts as [|q parts].
  - right. exists p. split; [now left|exact H].
  - change (join sep (p :: q :: parts)) with (p ++ sep ++ join sep (q :: parts)) in H.
    apply in_app_or in H. destruct H as [H|H].
    + right. exists p. split; [now left|exact H].
    + apply in_app_or in H. destruct H as [H|H]; [now left|].
      destruct (IH H) as [Hs|(part & Hp & Hc)]; [now left|].
      right. exists part. split; [now right|exact Hc].
Qed.

Lemma join_first (sep p : jsstring) (parts : list jsstring) (c : char) :
  In c p -> In c (join sep (p :: parts)).
Proof.
  intros H. destruct parts as [|q parts]; [exact H|].
  change (join sep (p :: q :: parts)) with (p ++ sep ++ join sep (q :: parts)).
  apply in_or_app. now left.
Qed.

Lemma join_commas (parts : list jsstring) :
  length parts <= S (count_occ N.eq_dec (join (js ", ") parts) COMMA).
Proof.
  induction parts as [|p parts IH]; [simpl; lia|].
  destruct parts as [|q parts]; [simpl; lia|].
  change (join (js ", ") (p :: q :: parts))
    with (p ++ js ", " ++ join (js ", ") (q :: parts)).
  rewrite !count_occ_app.
  match goal with
  | |- context [count_occ ?dec (js ", ") ?c] =>
      change (count_occ dec (js ", ") c) with 1
  end.
  cbn [length] in *. unfold char in *. lia.
Qed.

Lemma digits_range (u : Decimal.uint) (c : char) :
  In c (digits u) -> (48 <= c <= 57)%N.
Proof.
  induction u; simpl; intros H; try contradiction;
    (destruct H as [<-|H]; [lia|auto]).
Qed.

Lemma namedParameters_length (parameters : list jsstring) :
  forall index, length (namedParameters index parameters) = length parameters.
Proof.
  induction parameters as [|p ps IH]; intros index; simpl; [reflexivity|].
  now rewrite IH.
Qed.

Lemma namedParameters_In (parameters : list jsstring) :
  forall index named,
    In named (namedParameters index parameters) ->
    exists param n,
      In param parameters /\ named = param ++ js " param" ++ numberToString n.
Proof.
  induction parameters as [|p ps IH]; intros index named H; simpl in H; [contradiction|].
  destruct H as [<-|H].
  - exists p, (index + 1). split; [now left|reflexivity].
  - destruct (IH _ _ H) as (param & n & Hp & E).
    exists param, n. split; [now right|exact E].
Qed.

Lemma parseParameters_chars (paramString : jsstring) (c : char) :
  c <> COMMA ->
  forall param,
    In param (parseParameters paramString) -> In c param -> In c paramString.
Proof.
  intros Hc param Hp Hin. rewrite parseParameters_pieces in Hp.
  apply in_map_iff in Hp. destruct Hp as (piece & <- & Hp).
  apply filter_In in Hp. destruct Hp as [Hp _].
  apply in_map_iff in Hp. destruct Hp as (raw & <- & Hraw).
  apply (split_incl COMMA paramString raw); [exact Hraw|].
  apply trim_incl.
  destruct (includes LT (trim raw)); [|exact Hin].
  unfold barsToCommas in Hin. apply in_map_iff in Hin.
  destruct Hin as (d & E & Hd).
  destruct (N.eqb d BAR); [congruence|now subst d].
Qed.

Lemma word_not_space (c : char) : isWord c = true -> atomMatches space c = false.
Proof.
  intros H. rewrite space_spec. destruct (isSpace c) eqn:E; [|reflexivity].
  apply space_not_wordOrDot in E.
  assert (atomMatches wordOrDot c = true) by (apply wordOrDot_spec; now left).
  congruence.
Qed.

(** The permissive regex of a name of word characters matches a plain
    declaration of that name, and captures its parameter text. *)
Lemma permissive_declaration (nm pl rest : jsstring) (i : nat) :
  Forall (fun c => isWord c = true) nm ->
  ~ In RPAREN pl ->
  matchHere (permissiveRegex nm)
    ((js "void " ++ nm ++ [LPAREN] ++ pl ++ [RPAREN]) ++ rest) i =
  Some (mkMatch i (js "void " ++ nm ++ [LPAREN] ++ pl ++ [RPAREN]) [pl]).
Proof.
  intros Hnm Hpl.
  enough (exists res,
    run (permissiveRegex nm) noCaps
      ((js "void " ++ nm ++ [LPAREN] ++ pl ++ [RPAREN]) ++ rest) i = Some res /\
    captures res = [pl] /\
    endIndex res = length (js "void " ++ nm ++ [LPAREN] ++ pl ++ [RPAREN]) + i)
    as (res & Hrun & Hcap & Hend).
  { unfold matchHere. rewrite Hrun, Hcap, Hend, Nat.add_sub.
    now rewrite firstn_exact. }
  eexists. split.
  - unfold permissiveRegex, methodStartTerms. rewrite <- !app_assoc.
    change (js "void " ++ nm ++ [LPAREN] ++ pl ++ [RPAREN] ++ rest)
      with (js "void" ++ SPACE :: nm ++ LPAREN :: pl ++ RPAREN :: rest).
    rewrite run_lits. cbn [app run].
    change (atomMatches space SPACE) with true. cbv iota.
    rewrite greedy_stop.
    2:{ destruct nm as [|c nm]; [reflexivity|].
        inversion Hnm; subst. now apply word_not_space. }
    rewrite run_lits. cbn [app run closed opened noCaps].
    rewrite greedy_stop by reflexivity.
    cbv beta. change (atomMatches (lit LPAREN) LPAREN) with true. cbv iota.
    apply greedy_take.
    { apply Forall_forall. intros c Hc. simpl. rewrite orb_false_r.
      destruct (N.eqb_spec c RPAREN) as [->|_]; [contradiction|reflexivity]. }
    rewrite greedy_stop by reflexivity.
    cbv beta iota. change (atomMatches (lit RPAREN) RPAREN) with true. cbv iota.
    reflexivity.
  - cbn [captures endIndex]. split.
    + f_equal. apply firstn_exact. lia.
    + repeat (rewrite length_app; cbn [length]).
      change (length (js "void")) with 4. change (length (js "void ")) with 5. lia.
Qed.

(** The pass counts at least as many parameters in the parameter list of a
    snippet as the hook has. *)
Lemma paramsList_count (parameters : list jsstring) :
  length parameters <=
  paramCount (trim (join (js ", ") (namedParameters 0 parameters))).
Proof.
  destruct parameters as [|p ps]; [simpl; lia|].
  set (pl := join (js ", ") (namedParameters 0 (p :: ps))).
  assert (Hp : In 112%N pl).
  { apply join_first. apply in_or_app. right. apply in_or_app. left.
    simpl. tauto. }
  assert (Hnil : trim pl <> []).
  { intros E. apply (count_occ_In N.eq_dec) in Hp.
    rewrite <- (@trim_count 112%N pl eq_refl), E in Hp. simpl in Hp. lia. }
  unfold paramCount. destruct (trim pl) as [|c t] eqn:Ht; [contradiction|].
  cbn [length Nat.ltb Nat.leb]. rewrite <- Ht.
  rewrite split_length, (@trim_count COMMA pl eq_refl).
  pose proof (join_commas (namedParameters 0 (p :: ps))) as Hj.
  rewrite namedParameters_length in Hj. exact Hj.
Qed.

Lemma name_word (clean fullName ws paramString : jsstring) :
  MethodShape clean fullName ws paramString ->
  Forall (fun c => isWord c = true) (last (split DOT fullName) []).
Proof.
  intros (_ & _ & Hname & _).
  destruct (last_split DOT fullName) as (pre & Hfull & Hno & _).
  rewrite Hfull in Hname. apply Forall_app in Hname. destruct Hname as [_ Hname].
  rewrite Forall_forall in *. intros c Hc.
  destruct (Hname c Hc) as [Hw| ->]; [exact Hw|contradiction].
Qed.

Lemma paramsList_no_paren (paramString : jsstring) :
  ~ In RPAREN paramString ->
  ~ In RPAREN (join (js ", ") (namedParameters 0 (parseParameters paramString))).
Proof.
  intros Hno Hin. apply join_In in Hin.
  destruct Hin as [Hin|(named & Hnamed & Hin)].
  - simpl in Hin. intuition discriminate.
  - apply namedParameters_In in Hnamed.
    destruct Hnamed as (param & n & Hparam & ->).
    apply in_app_or in Hin. destruct Hin as [Hin|Hin].
    + apply Hno. apply (parseParameters_chars paramString (c := RPAREN)) in Hparam;
        [exact Hparam|discriminate|exact Hin].
    + apply in_app_or in Hin. destruct Hin as [Hin|Hin].
      * simpl in Hin. intuition discriminate.
      * apply digits_range in Hin. unfold RPAREN in Hin. lia.
Qed.

(** The snippet of a hook passes the analysis of that hook: when the hook is
    of the shape of a signature and its parameter list holds no closing
    parenthesis, the body of its snippet, analysed with the hook as the only
    valid hook, gets no diagnostic, and exactly its declaration line is
    highlighted. *)
Theorem generated_snippet_not_flagged :
  forall (Position : Type) (positionAt : nat -> Position)
         (hook fullName ws paramString : jsstring),
    MethodShape (cleanSignature hook) fullName ws paramString ->
    ~ In RPAREN paramString ->
    exists parsedHook,
      parseHook hook = Done parsedHook /\
      analyzeDocument positionAt
        (mkTextDocument (js "csharp") (body (snippetOf parsedHook))) [] [hook] =
      Done (Some ([],
                  [mkRange (positionAt 0)
                     (positionAt
                        (length (js "void " ++ name parsedHook ++ [LPAREN] ++
                                 paramsListOf parsedHook ++ [RPAREN])))])).
Proof.
  intros Position positionAt hook fullName ws paramString Hshape Hno.
  pose proof (parseHook_of_shape _ Hshape) as Hparsed.
  pose proof (name_word Hshape) as Hnm.
  pose proof (@paramsList_no_paren paramString Hno) as Hpl.
  pose proof (paramsList_count (parseParameters paramString)) as Hcount.
  eexists. split; [exact Hparsed|].
  set (parsedHook := mkParsedHook _ _ _) in *.
  set (nm := last (split DOT fullName) []) in *.
  fold (paramsListOf parsedHook) in Hpl, Hcount.
  set (pl := paramsListOf parsedHook) in *.
  set (decl := js "void " ++ nm ++ [LPAREN] ++ pl ++ [RPAREN]).
  set (tail := [LF] ++ js "{" ++ [LF] ++ js "    // Hook logic here" ++ [LF] ++ js "}").
  assert (Hbody : body (snippetOf parsedHook) = decl ++ tail).
  { unfold snippetOf, decl, tail. cbn [body name parsedHook]. fold pl.
    now rewrite <- !app_assoc. }
  rewrite Hbody.
  set (m := mkMatch 0 decl [pl]).
  assert (Hm : matchHere (permissiveRegex nm) (decl ++ tail) 0 = Some m)
    by (apply permissive_declaration; assumption).
  assert (Hexec0 : exec (permissiveRegex nm) (decl ++ tail) 0 = Some m).
  { unfold exec. rewrite (proj2 (Nat.ltb_ge _ _)) by lia.
    rewrite skipn_O. now apply search_here. }
  assert (Hexec1 : exec (permissiveRegex nm) (decl ++ tail) (lastIndexAfter m) = None).
  { unfold exec, lastIndexAfter. cbn [index full m].
    rewrite (proj2 (Nat.ltb_ge _ _)) by (rewrite length_app; lia).
    rewrite skipn_exact by reflexivity.
    apply (search_no_first (lit 118%N)).
    intros c Hc. unfold tail in Hc. simpl in Hc.
    repeat (destruct Hc as [<-|Hc]; [reflexivity|]). contradiction. }
  assert (Hall : execAll (permissiveRegex nm) (decl ++ tail) = Done [m]).
  { apply execAll_complete with (fuel := 2). cbn [execLoop].
    rewrite Hexec0, Hexec1. reflexivity. }
  unfold analyzeDocument. cbn [languageId getText].
  replace (streq (js "csharp") (js "csharp")) with true by reflexivity.
  cbn [negb processDeprecated bind processValid].
  rewrite Hparsed. cbn [bind].
  rewrite (createRegexFromHook_permissive _ Hparsed). cbn [bind name parsedHook].
  fold nm. rewrite validLoop_spec with (ms := [m]).
  - cbn [bind flat_map map app]. unfold missingDiagnostics.
    replace (actualCount m) with (paramCount (trim pl)) by reflexivity.
    cbn [parameters parsedHook].
    rewrite (proj2 (Nat.ltb_ge _ _)) by exact Hcount.
    reflexivity.
  - exact Hall.
  - constructor; [now exists pl|constructor].
Qed.

Lemma generated_snippet_not_flagged_witness :
  exists parsedHook,
    parseHook (js "void OnPlayerChat(BasePlayer player, List<string> words)") =
      Done parsedHook /\
    analyzeDocument (fun n => n)
      (mkTextDocument (js "csharp") (body (snippetOf parsedHook))) []
      [js "void OnPlayerChat(BasePlayer player, List<string> words)"] =
    Done (Some ([],
                [mkRange 0
                   (length (js "void " ++ name parsedHook ++ [LPAREN] ++
                            paramsListOf parsedHook ++ [RPAREN]))])).
Proof.
  apply (generated_snippet_not_flagged (fun n => n)
           (js "void OnPlayerChat(BasePlayer player, List<string> words)")
           (fullName := js "OnPlayerChat") (ws := [])
           (paramString := js "BasePlayer player, List<string> words")).
  - concrete_shape.
  - vm_compute. intuition discriminate.
Defined.

(** ** The first declaration of a hook in a document *)

Lemma search_skip (a : Atom) (r : Regex) (pre s : jsstring) :
  (forall c, In c pre -> atomMatches a c = false) ->
  forall i,
    search (TAtom a QOne :: r) (pre ++ s) i =
    search (TAtom a QOne :: r) s (length pre + i).
Proof.
  induction pre as [|c pre IH]; intros Hpre i; [reflexivity|].
  cbn [app search]. unfold matchHere at 1. cbn [run].
  rewrite (Hpre c) by now left.
  rewrite IH by (intros d Hd; apply Hpre; now right).
  simpl. now rewrite Nat.add_succ_r.
Qed.

(** The permissive regex of a name of word characters matches a declaration
    of that name, whatever the whitespace after [void] and before the
    parenthesis, and captures the parameter text. *)
Lemma permissive_declaration_spaced (nm ws1 ws2 pl rest : jsstring) (i : nat) :
  nm <> [] ->
  Forall (fun c => isWord c = true) nm ->
  ws1 <> [] ->
  Forall (fun c => isSpace c = true) ws1 ->
  Forall (fun c => isSpace c = true) ws2 ->
  ~ In RPAREN pl ->
  matchHere (permissiveRegex nm)
    ((js "void" ++ ws1 ++ nm ++ ws2 ++ [LPAREN] ++ pl ++ [RPAREN]) ++ rest) i =
  Some (mkMatch i (js "void" ++ ws1 ++ nm ++ ws2 ++ [LPAREN] ++ pl ++ [RPAREN]) [pl]).
Proof.
  intros Hne Hnm Hne1 Hws1 Hws2 Hpl.
  enough (exists res,
    run (permissiveRegex nm) noCaps
      ((js "void" ++ ws1 ++ nm ++ ws2 ++ [LPAREN] ++ pl ++ [RPAREN]) ++ rest) i = Some res /\
    captures res = [pl] /\
    endIndex res =
      length (js "void" ++ ws1 ++ nm ++ ws2 ++ [LPAREN] ++ pl ++ [RPAREN]) + i)
    as (res & Hrun & Hcap & Hend).
  { unfold matchHere. rewrite Hrun, Hcap, Hend, Nat.add_sub.
    now rewrite firstn_exact. }
  destruct ws1 as [|w ws1]; [contradiction|].
  inversion Hws1 as [|? ? Hw Hws1']; subst.
  destruct nm as [|n0 nm]; [contradiction|].
  inversion Hnm as [|? ? Hn0 _]; subst.
  eexists. split.
  - unfold permissiveRegex, methodStartTerms. rewrite <- !app_assoc.
    rewrite run_lits. cbn [app run].
    rewrite space_spec, Hw.
    apply greedy_take.
    { eapply Forall_impl; [|exact Hws1']. intros c Hc. now rewrite space_spec. }
    rewrite greedy_stop by (now apply word_not_space).
    change (n0 :: nm ++ ws2 ++ LPAREN :: pl ++ RPAREN :: rest)
      with ((n0 :: nm) ++ ws2 ++ LPAREN :: pl ++ RPAREN :: rest).
    rewrite run_lits. cbn [app run closed opened noCaps].
    apply greedy_take.
    { eapply Forall_impl; [|exact Hws2]. intros c Hc. now rewrite space_spec. }
    rewrite greedy_stop by reflexivity.
    cbv beta. change (atomMatches (lit LPAREN) LPAREN) with true. cbv iota.
    apply greedy_take.
    { apply Forall_forall. intros c Hc. simpl. rewrite orb_false_r.
      destruct (N.eqb_spec c RPAREN) as [->|_]; [contradiction|reflexivity]. }
    rewrite greedy_stop by reflexivity.
    cbv beta iota. change (atomMatches (lit RPAREN) RPAREN) with true. cbv iota.
    reflexivity.
  - cbn [captures endIndex]. split.
    + f_equal. apply firstn_exact. lia.
    + repeat (rewrite length_app; cbn [length]).
      change (length (js "void")) with 4. lia.
Qed.

(** The first declaration of a valid hook in a document is found: when no
    [v] stands before it, the first occurrence that the permissive regex of
    the hook finds is that declaration, from [void] to its closing
    parenthesis, with the whole parameter text captured. *)
Theorem first_declaration_found :
  forall hook parsedHook before ws1 ws2 captured after ms,
    parseHook hook = Done parsedHook ->
    name parsedHook <> [] ->
    Forall (fun c => isWord c = true) (name parsedHook) ->
    ws1 <> [] ->
    Forall (fun c => isSpace c = true) ws1 ->
    Forall (fun c => isSpace c = true) ws2 ->
    ~ In RPAREN captured ->
    ~ In 118%N before ->
    occurrences hook true
      (before ++
       (js "void" ++ ws1 ++ name parsedHook ++ ws2 ++ [LPAREN] ++ captured ++ [RPAREN]) ++
       after) ms ->
    exists others,
      ms = mkMatch (length before)
             (js "void" ++ ws1 ++ name parsedHook ++ ws2 ++ [LPAREN] ++ captured ++ [RPAREN])
             [captured] :: others.
Proof.
  intros hook parsedHook before ws1 ws2 captured after ms
    Hparsed Hne Hnm Hne1 Hws1 Hws2 Hcap Hv (regex & Hre & Hms).
  rewrite (createRegexFromHook_permissive _ Hparsed) in Hre. injection Hre as <-.
  unfold execAll in Hms. cbn [execLoop] in Hms.
  match type of Hms with
  | context [exec ?r ?t 0] =>
      assert (Hexec : exec r t 0 =
                      Some (mkMatch (length before)
                              (js "void" ++ ws1 ++ name parsedHook ++ ws2 ++
                               [LPAREN] ++ captured ++ [RPAREN]) [captured]))
  end.
  { unfold exec. rewrite (proj2 (Nat.ltb_ge _ _)) by lia. rewrite skipn_O.
    change (permissiveRegex (name parsedHook))
      with (TAtom (lit 118%N) QOne ::
            tl (permissiveRegex (name parsedHook))).
    rewrite search_skip.
    - apply search_here. rewrite Nat.add_0_r.
      change (TAtom (lit 118%N) QOne :: tl (permissiveRegex (name parsedHook)))
        with (permissiveRegex (name parsedHook)).
      now apply permissive_declaration_spaced.
    - intros c Hc. destruct (atomMatches (lit 118%N) c) eqn:E; [|reflexivity].
      apply lit_spec in E. now subst c. }
  rewrite Hexec in Hms.
  match type of Hms with
  | context [execLoop ?f ?r ?t ?li] => destruct (execLoop f r t li) as [others| |]
  end; simpl in Hms; try discriminate.
  injection Hms as <-. now exists others.
Qed.

Lemma first_declaration_found_witness :
  exists others,
    [mkMatch 13 (js "void  OnTick (float dt)") [js "float dt"]] =
    mkMatch (length (js "class Plug { "))
      (js "void" ++ js "  " ++ js "OnTick" ++ js " " ++ [LPAREN] ++ js "float dt" ++
       [RPAREN])
      [js "float dt"] :: others.
Proof.
  apply first_declaration_found
    with (hook := js "void OnTick()")
         (parsedHook := mkParsedHook (js "OnTick") [] None)
         (after := js " { } }").
  - reflexivity.
  - discriminate.
  - concrete_Forall.
  - discriminate.
  - concrete_Forall.
  - concrete_Forall.
  - vm_compute. intuition discriminate.
  - vm_compute. intuition discriminate.
  - occurrences_concrete.
Defined.

(** ** What a strict match looks like *)

Lemma run_paramTerms_inv (param : jsstring) (r : Regex) :
  forall caps s i res,
    run (paramTerms param ++ r) caps s i = Some res ->
    exists text s',
      s = text ++ s' /\ ParamText param text /\
      run r caps s' (length text + i) = Some res.
Proof.
  intros caps s i res H. unfold paramTerms in H. rewrite <- app_assoc in H.
  apply run_lits_inv in H. destruct H as (s1 & -> & H).
  cbn [app run] in H.
  destruct s1 as [|w s1]; [discriminate|].
  destruct (atomMatches space w) eqn:Hw; [|discriminate].
  apply greedy_inv in H. destruct H as (ws & s2 & -> & Hws & H).
  destruct s2 as [|d s2]; [discriminate|].
  destruct (atomMatches word d) eqn:Hd; [|discriminate].
  apply greedy_inv in H. destruct H as (ds & s3 & -> & Hds & H).
  exists (typeToken param ++ (w :: ws) ++ (d :: ds)), s3.
  split; [|split].
  - unfold typeToken. rewrite <- ?app_assoc. cbn [app]. rewrite <- ?app_assoc.
    reflexivity.
  - exists (w :: ws), (d :: ds). split; [reflexivity|].
    split; [discriminate|]. split; [apply spaces_spec; now constructor|].
    split; [discriminate|].
    assert (Hword : forall c, atomMatches word c = true -> isWord c = true).
    { intros c Hc. unfold word in Hc. simpl in Hc. now rewrite orb_false_r in Hc. }
    constructor; [now apply Hword|].
    eapply Forall_impl; [|exact Hds]. exact Hword.
  - unfold typeToken. repeat (rewrite length_app; cbn [length]).
    match type of H with
    | run _ _ _ ?n = _ =>
        match goal with
        | |- run _ _ _ ?k = _ => replace k with n by lia
        end
    end.
    exact H.
Qed.

Lemma run_commaTerms_inv (r : Regex) :
  forall caps s i res,
    run (commaTerms ++ r) caps s i = Some res ->
    exists text s',
      s = text ++ s' /\ CommaText text /\
      run r caps s' (length text + i) = Some res.
Proof.
  intros caps s i res H. unfold commaTerms in H. cbn [app run] in H.
  apply greedy_inv in H. destruct H as (ws1 & s1 & -> & Hws1 & H).
  destruct s1 as [|c s1]; [discriminate|].
  destruct (atomMatches (lit COMMA) c) eqn:Hc; [|discriminate].
  apply lit_spec in Hc. subst c.
  apply greedy_inv in H. destruct H as (ws2 & s2 & -> & Hws2 & H).
  exists (ws1 ++ [COMMA] ++ ws2), s2. split; [|split].
  - rewrite <- ?app_assoc. reflexivity.
  - exists ws1, ws2. split; [reflexivity|]. split; now apply spaces_spec.
  - repeat (rewrite length_app; cbn [length]).
    match type of H with
    | run _ _ _ ?n = _ =>
        match goal with
        | |- run _ _ _ ?k = _ => replace k with n by lia
        end
    end.
    exact H.
Qed.

Lemma run_paramsTerms_inv (parameters : list jsstring) (r : Regex) :
  parameters <> [] ->
  forall caps s i res,
    run (joinTerms commaTerms (map paramTerms parameters) ++ r) caps s i = Some res ->
    exists text s',
      s = text ++ s' /\ ParamsText parameters text /\
      run r caps s' (length text + i) = Some res.
Proof.
  induction parameters as [|param rest IH]; intros Hne caps s i res H;
    [contradiction|].
  destruct rest as [|next rest].
  - cbn [map joinTerms] in H. apply run_paramTerms_inv in H.
    destruct H as (text & s' & -> & Hp & H). exists text, s'. auto.
  - change (joinTerms commaTerms (map paramTerms (param :: next :: rest)))
      with (paramTerms param ++ commaTerms ++
            joinTerms commaTerms (map paramTerms (next :: rest))) in H.
    rewrite <- !app_assoc in H.
    apply run_paramTerms_inv in H. destruct H as (first & s1 & -> & Hfirst & H).
    apply run_commaTerms_inv in H. destruct H as (comma & s2 & -> & Hcomma & H).
    apply IH in H; [|discriminate]. destruct H as (others & s3 & -> & Hothers & H).
    exists (first ++ comma ++ others), s3. split; [|split].
    + now rewrite <- !app_assoc.
    + cbn [ParamsText]. exists first, comma, others. auto.
    + rewrite !length_app.
      match type of H with
      | run _ _ _ ?n = _ =>
          match goal with
          | |- run _ _ _ ?k = _ => replace k with n by lia
          end
      end.
      exact H.
Qed.

Lemma run_methodStart_inv (nm : jsstring) (r : Regex) :
  forall caps s i res,
    run (methodStartTerms nm ++ r) caps s i = Some res ->
    exists ws1 ws2 s',
      s = (js "void" ++ ws1 ++ nm ++ ws2 ++ [LPAREN]) ++ s' /\
      ws1 <> [] /\
      Forall (fun c => isSpace c = true) ws1 /\
      Forall (fun c => isSpace c = true) ws2 /\
      run r caps s' (length (js "void" ++ ws1 ++ nm ++ ws2 ++ [LPAREN]) + i) = Some res.
Proof.
  intros caps s i res H. unfold methodStartTerms in H. rewrite <- !app_assoc in H.
  apply run_lits_inv in H. destruct H as (s1 & -> & H).
  cbn [app run] in H.
  destruct s1 as [|w s1]; [discriminate|].
  destruct (atomMatches space w) eqn:Hw; [|discriminate].
  apply greedy_inv in H. destruct H as (ws & s2 & -> & Hws & H).
  apply run_lits_inv in H. destruct H as (s3 & -> & H).
  cbn [app run] in H.
  apply greedy_inv in H. destruct H as (ws2 & s4 & -> & Hws2 & H).
  destruct s4 as [|c s5]; [discriminate|].
  destruct (atomMatches (lit LPAREN) c) eqn:Hc; [|discriminate].
  apply lit_spec in Hc. subst c.
  exists (w :: ws), ws2, s5. split; [|split; [discriminate|split; [|split]]].
  - rewrite <- ?app_assoc. cbn [app]. rewrite <- ?app_assoc. reflexivity.
  - apply spaces_spec. now constructor.
  - now apply spaces_spec.
  - repeat (rewrite length_app; cbn [length]).
    match type of H with
    | run _ _ _ ?n = _ =>
        match goal with
        | |- run _ _ _ ?k = _ => replace k with n by lia
        end
    end.
    exact H.
Qed.

(** A strict match: the declaration of the name with the type tokens of the
    parameters, in their order. *)
Lemma strict_match (nm : jsstring) (parameters : list jsstring)
    (s : jsstring) (i : nat) (m : Match) :
  matchHere (strictRegex nm parameters) s i = Some m ->
  exists ws1 ws2 ws3 args ws4 rest,
    s = (js "void" ++ ws1 ++ nm ++ ws2 ++ [LPAREN] ++ ws3 ++ args ++ ws4 ++ [RPAREN])
        ++ rest /\
    m = mkMatch i
          (js "void" ++ ws1 ++ nm ++ ws2 ++ [LPAREN] ++ ws3 ++ args ++ ws4 ++ [RPAREN])
          [] /\
    ws1 <> [] /\
    Forall (fun c => isSpace c = true) ws1 /\
    Forall (fun c => isSpace c = true) ws2 /\
    Forall (fun c => isSpace c = true) ws3 /\
    Forall (fun c => isSpace c = true) ws4 /\
    ParamsText parameters args.
Proof.
  unfold matchHere.
  destruct (run (strictRegex nm parameters) noCaps s i) as [res|] eqn:H; [|discriminate].
  intros [= <-].
  assert (Hgoal : exists ws1 ws2 ws3 args ws4 rest,
    s = (js "void" ++ ws1 ++ nm ++ ws2 ++ [LPAREN] ++ ws3 ++ args ++ ws4 ++ [RPAREN])
        ++ rest /\
    endIndex res =
      length (js "void" ++ ws1 ++ nm ++ ws2 ++ [LPAREN] ++ ws3 ++ args ++ ws4 ++ [RPAREN])
      + i /\
    captures res = [] /\
    ws1 <> [] /\
    Forall (fun c => isSpace c = true) ws1 /\
    Forall (fun c => isSpace c = true) ws2 /\
    Forall (fun c => isSpace c = true) ws3 /\
    Forall (fun c => isSpace c = true) ws4 /\
    ParamsText parameters args).
  { unfold strictRegex in H. destruct parameters as [|param rest].
    - apply run_methodStart_inv in H.
      destruct H as (ws1 & ws2 & s1 & -> & Hne & Hws1 & Hws2 & H).
      cbn [run] in H.
      apply greedy_inv in H. destruct H as (ws3 & s2 & -> & Hws3 & H).
      destruct s2 as [|c s3]; [discriminate|].
      destruct (atomMatches (lit RPAREN) c) eqn:Hc; [|discriminate].
      apply lit_spec in Hc. subst c. injection H as <-.
      exists ws1, ws2, ws3, [], [], s3. cbn [endIndex captures closed noCaps].
      split; [|split; [|repeat split; auto using spaces_spec]].
      + rewrite <- ?app_assoc. cbn [app]. rewrite <- ?app_assoc. reflexivity.
      + repeat (rewrite length_app; cbn [length]).
        change (length (js "void")) with 4. unfold jsstring, char in *. lia.
    - apply run_methodStart_inv in H.
      destruct H as (ws1 & ws2 & s1 & -> & Hne & Hws1 & Hws2 & H).
      cbn [app run] in H.
      apply greedy_inv in H. destruct H as (ws3 & s2 & -> & Hws3 & H).
      apply run_paramsTerms_inv in H; [|discriminate].
      destruct H as (args & s3 & -> & Hargs & H).
      cbn [run] in H.
      apply greedy_inv in H. destruct H as (ws4 & s4 & -> & Hws4 & H).
      destruct s4 as [|c s5]; [discriminate|].
      destruct (atomMatches (lit RPAREN) c) eqn:Hc; [|discriminate].
      apply lit_spec in Hc. subst c. injection H as <-.
      exists ws1, ws2, ws3, args, ws4, s5. cbn [endIndex captures closed noCaps].
      split; [|split; [|repeat split; auto using spaces_spec]].
      + rewrite <- ?app_assoc. cbn [app]. rewrite <- ?app_assoc. reflexivity.
      + repeat (rewrite length_app; cbn [length]).
        change (length (js "void")) with 4. unfold jsstring, char in *. lia. }
  destruct Hgoal as (ws1 & ws2 & ws3 & args & ws4 & rest & -> & Hend & Hcap & Hrest).
  exists ws1, ws2, ws3, args, ws4, rest. split; [reflexivity|]. split; [|exact Hrest].
  rewrite Hend, Hcap, Nat.add_sub. now rewrite firstn_exact.
Qed.

(** Every occurrence that the strict regex of a hook finds, and so every
    diagnostic of a deprecated hook, is a declaration of the parsed name
    whose parameters carry the type tokens of the hook, in their order. *)
Theorem strict_occurrences :
  forall hook parsedHook text ms,
    parseHook hook = Done parsedHook ->
    occurrences hook false text ms ->
    Forall (StrictOccurrence parsedHook text) ms.
Proof.
  intros hook parsedHook text ms H (regex & Hre & Hms).
  rewrite (createRegexFromHook_strict _ H) in Hre. injection Hre as <-.
  eapply execLoop_Forall; [|exact Hms].
  intros m Hm. apply strict_match in Hm.
  destruct Hm as (ws1 & ws2 & ws3 & args & ws4 & rest & Hs & Hm & Hrest).
  exists ws1, ws2, ws3, args, ws4, rest.
  rewrite Hm in *. cbn [index full groups] in *. tauto.
Qed.

Lemma strict_occurrences_witness :
  Forall (StrictOccurrence
            (mkParsedHook (js "OnHit") [js "BasePlayer player"; js "HitInfo info"] None)
            (js "x void OnHit( BasePlayer p ,HitInfo i) { }"))
    [mkMatch 2 (js "void OnHit( BasePlayer p ,HitInfo i)") []].
Proof.
  apply strict_occurrences
    with (hook := js "void OnHit(BasePlayer player, HitInfo info)").
  - reflexivity.
  - occurrences_concrete.
Defined.

(** ** A declaration with the types of a hook is a strict match *)

Lemma space_not_word (c : char) : isSpace c = true -> isWord c = false.
Proof.
  intros H. destruct (isWord c) eqn:E; [|reflexivity].
  apply word_not_space in E. rewrite space_spec in E. congruence.
Qed.

Lemma word_atom (c : char) : atomMatches word c = isWord c.
Proof. unfold word. simpl. now rewrite orb_false_r. Qed.

Lemma spaces_atom (s : jsstring) :
  Forall (fun c => isSpace c = true) s ->
  Forall (fun c => atomMatches space c = true) s.
Proof. apply Forall_impl. intros c Hc. now rewrite space_spec. Qed.

Lemma words_atom (s : jsstring) :
  Forall (fun c => isWord c = true) s ->
  Forall (fun c => atomMatches word c = true) s.
Proof. apply Forall_impl. intros c Hc. now rewrite word_atom. Qed.

(** The type token of a trimmed parameter starts with a code unit that is
    no whitespace. *)
Lemma typeToken_head (param : jsstring) :
  param <> [] -> trim param = param ->
  exists c rest, typeToken param = c :: rest /\ isSpace c = false.
Proof.
  intros Hne Htrim. apply trimmed_inv in Htrim. destruct Htrim as [Hstart _].
  pose proof (dropWhile_head isSpace param) as Hhead.
  unfold trimStart in Hstart. rewrite Hstart in Hhead.
  destruct param as [|c param]; [contradiction|].
  unfold typeToken. cbn [split].
  destruct (N.eqb_spec c SPACE) as [->|_]; [discriminate|].
  destruct (split SPACE param) as [|piece rest]; cbn [hd]; eauto.
Qed.

Lemma parseHook_typeTokens (hook : jsstring) (parsedHook : ParsedHook) :
  parseHook hook = Done parsedHook ->
  Forall (fun param => exists c rest, typeToken param = c :: rest /\ isSpace c = false)
    (parameters parsedHook).
Proof.
  intros H.
  assert (Htrimmed : Forall (fun param => param <> [] /\ trim param = param)
                       (parameters parsedHook)).
  { destruct (parseHook_cases hook) as [(f & w & p & Hshape)|[_ Hd]].
    - rewrite (parseHook_of_shape _ Hshape) in H. injection H as <-.
      apply parseParameters_trimmed.
    - rewrite Hd in H. injection H as <-. constructor. }
  eapply Forall_impl; [|exact Htrimmed].
  intros param [Hne Htrim]. now apply typeToken_head.
Qed.

Lemma run_paramTerms (param : jsstring) (r : Regex) :
  forall text caps s i res,
    ParamText param text ->
    match s with [] => True | c :: _ => isWord c = false end ->
    run r caps s (length text + i) = Some res ->
    run (paramTerms param ++ r) caps (text ++ s) i = Some res.
Proof.
  intros text caps s i res (ws & ident & -> & Hne & Hws & Hine & Hident) Hs H.
  destruct ws as [|w ws]; [contradiction|].
  inversion Hws as [|? ? Hw Hws']; subst.
  destruct ident as [|d ident]; [contradiction|].
  inversion Hident as [|? ? Hd Hident']; subst.
  unfold paramTerms. fold (typeToken param).
  rewrite <- !app_assoc. rewrite run_lits. cbn [app run].
  rewrite space_spec, Hw.
  apply greedy_take; [now apply spaces_atom|].
  rewrite greedy_stop by (now apply word_not_space).
  cbn [run]. rewrite word_atom, Hd.
  apply greedy_take; [now apply words_atom|].
  rewrite greedy_stop by (destruct s; [exact I|now rewrite word_atom]).
  repeat (rewrite length_app in H; cbn [length] in H).
  match type of H with
  | run _ _ _ ?n = _ =>
      match goal with
      | |- run _ _ _ ?k = _ => replace k with n by lia
      end
  end.
  exact H.
Qed.

Lemma run_commaTerms (r : Regex) :
  forall text caps s i res,
    CommaText text ->
    match s with [] => True | c :: _ => isSpace c = false end ->
    run r caps s (length text + i) = Some res ->
    run (commaTerms ++ r) caps (text ++ s) i = Some res.
Proof.
  intros text caps s i res (ws1 & ws2 & -> & Hws1 & Hws2) Hs H.
  unfold commaTerms. rewrite <- !app_assoc. cbn [app run].
  apply greedy_take; [now apply spaces_atom|].
  rewrite greedy_stop by reflexivity.
  cbn [run]. change (atomMatches (lit COMMA) COMMA) with true. cbv iota.
  apply greedy_take; [now apply spaces_atom|].
  rewrite greedy_stop by (destruct s; [exact I|now rewrite space_spec]).
  repeat (rewrite length_app in H; cbn [length] in H).
  match type of H with
  | run _ _ _ ?n = _ =>
      match goal with
      | |- run _ _ _ ?k = _ => replace k with n by lia
      end
  end.
  exact H.
Qed.

Lemma CommaText_head (comma s : jsstring) :
  CommaText comma ->
  match comma ++ s with [] => True | c :: _ => isWord c = false end.
Proof.
  intros (ws1 & ws2 & -> & Hws1 & _).
  destruct Hws1 as [|c ws1 Hc _]; [reflexivity|]. now apply space_not_word.
Qed.

Lemma ParamsText_head (param : jsstring) (rest : list jsstring) (text s : jsstring) :
  (exists c tail, typeToken param = c :: tail /\ isSpace c = false) ->
  ParamsText (param :: rest) text ->
  match text ++ s with [] => True | c :: _ => isSpace c = false end.
Proof.
  intros (c & tail & Htoken & Hc) H.
  assert (Hfirst : exists first others, text = first ++ others /\ ParamText param first).
  { destruct rest as [|next rest].
    - exists text, []. now rewrite app_nil_r.
    - destruct H as (first & comma & others & -> & Hfirst & _). eauto. }
  destruct Hfirst as (first & others & -> & ws & ident & -> & _).
  rewrite Htoken. exact Hc.
Qed.

Lemma run_paramsTerms (parameters : list jsstring) (r : Regex) :
  parameters <> [] ->
  Forall (fun param => exists c rest, typeToken param = c :: rest /\ isSpace c = false)
    parameters ->
  forall text caps s i res,
    ParamsText parameters text ->
    match s with [] => True | c :: _ => isWord c = false end ->
    run r caps s (length text + i) = Some res ->
    run (joinTerms commaTerms (map paramTerms parameters) ++ r) caps (text ++ s) i =
    Some res.
Proof.
  induction parameters as [|param rest IH]; intros Hne Hgood text caps s i res Ht Hs H;
    [contradiction|].
  inversion Hgood as [|? ? Hparam Hrest]; subst.
  destruct rest as [|next rest].
  - cbn [map joinTerms]. now apply run_paramTerms.
  - change (joinTerms commaTerms (map paramTerms (param :: next :: rest)))
      with (paramTerms param ++ commaTerms ++
            joinTerms commaTerms (map paramTerms (next :: rest))).
    destruct Ht as (first & comma & others & -> & Hfirst & Hcomma & Hothers).
    rewrite <- !app_assoc.
    apply run_paramTerms; [exact Hfirst|now apply CommaText_head|].
    apply run_commaTerms; [exact Hcomma| |].
    + inversion Hrest as [|? ? Hnext _]; subst.
      now apply ParamsText_head with (param := next) (rest := rest).
    + apply IH; [discriminate|exact Hrest|exact Hothers|exact Hs|].
      rewrite !length_app in H.
      match type of H with
      | run _ _ _ ?n = _ =>
          match goal with
          | |- run _ _ _ ?k = _ => replace k with n by lia
          end
      end.
      exact H.
Qed.

Lemma run_methodStart (nm ws1 ws2 : jsstring) (r : Regex) :
  nm <> [] ->
  Forall (fun c => isWord c = true) nm ->
  ws1 <> [] ->
  Forall (fun c => isSpace c = true) ws1 ->
  Forall (fun c => isSpace c = true) ws2 ->
  forall caps s i res,
    run r caps s (length (js "void" ++ ws1 ++ nm ++ ws2 ++ [LPAREN]) + i) = Some res ->
    run (methodStartTerms nm ++ r) caps
      ((js "void" ++ ws1 ++ nm ++ ws2 ++ [LPAREN]) ++ s) i = Some res.
Proof.
  intros Hne Hnm Hne1 Hws1 Hws2 caps s i res H.
  destruct ws1 as [|w ws1]; [contradiction|].
  inversion Hws1 as [|? ? Hw Hws1']; subst.
  destruct nm as [|n0 nm]; [contradiction|].
  inversion Hnm as [|? ? Hn0 _]; subst.
  unfold methodStartTerms. rewrite <- !app_assoc.
  rewrite run_lits. cbn [app run].
  rewrite space_spec, Hw.
  apply greedy_take; [now apply spaces_atom|].
  rewrite greedy_stop by (now apply word_not_space).
  change (n0 :: nm ++ ws2 ++ LPAREN :: s) with ((n0 :: nm) ++ ws2 ++ LPAREN :: s).
  rewrite run_lits. cbn [app run].
  apply greedy_take; [now apply spaces_atom|].
  rewrite greedy_stop by reflexivity.
  cbn [run]. change (atomMatches (lit LPAREN) LPAREN) with true. cbv iota.
  repeat (rewrite length_app in H; cbn [length] in H).
  change (length (js "void")) with 4 in *.
  match type of H with
  | run _ _ _ ?n = _ =>
      match goal with
      | |- run _ _ _ ?k = _ => replace k with n by (cbn [length]; lia)
      end
  end.
  exact H.
Qed.

Lemma run_close (ws rest : jsstring) (caps : Caps) (i : nat) :
  Forall (fun c => isSpace c = true) ws ->
  run [TAtom space QStar; TAtom (lit RPAREN) QOne] caps (ws ++ [RPAREN] ++ rest) i =
  Some (mkResult (S (length ws + i)) (closed caps)).
Proof.
  intros Hws. cbn [run]. apply greedy_take; [now apply spaces_atom|].
  rewrite greedy_stop by reflexivity.
  cbn [app]. change (atomMatches (lit RPAREN) RPAREN) with true. reflexivity.
Qed.

(** The strict regex of a name of word characters matches a declaration of
    that name whose parameters have the type tokens of the parsed
    parameters. *)
Lemma strict_declaration (nm : jsstring) (parameters : list jsstring)
    (ws1 ws2 ws3 args ws4 rest : jsstring) (i : nat) :
  nm <> [] ->
  Forall (fun c => isWord c = true) nm ->
  ws1 <> [] ->
  Forall (fun c => isSpace c = true) ws1 ->
  Forall (fun c => isSpace c = true) ws2 ->
  Forall (fun c => isSpace c = true) ws3 ->
  Forall (fun c => isSpace c = true) ws4 ->
  Forall (fun param => exists c tail, typeToken param = c :: tail /\ isSpace c = false)
    parameters ->
  ParamsText parameters args ->
  matchHere (strictRegex nm parameters)
    ((js "void" ++ ws1 ++ nm ++ ws2 ++ [LPAREN] ++ ws3 ++ args ++ ws4 ++ [RPAREN])
     ++ rest) i =
  Some (mkMatch i
          (js "void" ++ ws1 ++ nm ++ ws2 ++ [LPAREN] ++ ws3 ++ args ++ ws4 ++ [RPAREN])
          []).
Proof.
  intros Hne Hnm Hne1 Hws1 Hws2 Hws3 Hws4 Hgood Hargs.
  enough (Hrun :
    run (strictRegex nm parameters) noCaps
      ((js "void" ++ ws1 ++ nm ++ ws2 ++ [LPAREN] ++ ws3 ++ args ++ ws4 ++ [RPAREN])
       ++ rest) i =
    Some (mkResult
            (length (js "void" ++ ws1 ++ nm ++ ws2 ++ [LPAREN] ++ ws3 ++ args ++ ws4 ++
                     [RPAREN]) + i) [])).
  { unfold matchHere. rewrite Hrun. cbn [endIndex captures].
    rewrite Nat.add_sub. now rewrite firstn_exact. }
  replace ((js "void" ++ ws1 ++ nm ++ ws2 ++ [LPAREN] ++ ws3 ++ args ++ ws4 ++ [RPAREN])
           ++ rest)
    with ((js "void" ++ ws1 ++ nm ++ ws2 ++ [LPAREN]) ++
          ws3 ++ args ++ ws4 ++ [RPAREN] ++ rest)
    by (rewrite <- ?app_assoc; cbn [app]; rewrite <- ?app_assoc; reflexivity).
  assert (Hlen :
    length (js "void" ++ ws1 ++ nm ++ ws2 ++ [LPAREN] ++ ws3 ++ args ++ ws4 ++ [RPAREN]) + i =
    S (length ws4 + (length args + (length ws3 +
       (length (js "void" ++ ws1 ++ nm ++ ws2 ++ [LPAREN]) + i))))).
  { repeat (rewrite length_app; cbn [length]). unfold jsstring, char in *. lia. }
  rewrite Hlen.
  unfold strictRegex. destruct parameters as [|param others].
  - cbn [ParamsText] in Hargs. subst args.
    apply run_methodStart; try assumption.
    cbn [app length Nat.add].
    replace (ws3 ++ ws4 ++ RPAREN :: rest) with ((ws3 ++ ws4) ++ [RPAREN] ++ rest)
      by (now rewrite <- app_assoc).
    rewrite run_close by (apply Forall_app; now split).
    cbn [closed noCaps]. f_equal. f_equal. rewrite length_app. lia.
  - apply run_methodStart; try assumption.
    cbn [app run].
    apply greedy_take; [now apply spaces_atom|].
    inversion Hgood as [|? ? Hparam _]; subst.
    rewrite greedy_stop.
    2:{ pose proof (@ParamsText_head param others args (ws4 ++ RPAREN :: rest) Hparam Hargs) as Hh.
        destruct (args ++ ws4 ++ RPAREN :: rest); [exact I|now rewrite space_spec]. }
    apply run_paramsTerms; [discriminate|exact Hgood|exact Hargs| |].
    + destruct Hws4 as [|c ws4 Hc _]; [reflexivity|]. now apply space_not_word.
    + change (ws4 ++ RPAREN :: rest) with (ws4 ++ [RPAREN] ++ rest).
      rewrite run_close by assumption. reflexivity.
Qed.

(** A deprecated hook that is declared is found. When the parsed name is a
    non-empty run of word characters, a declaration of it whose parameters
    have the type tokens of the hook, in their order, each followed by
    whitespace and an identifier, is the first occurrence that the strict
    regex finds when no [v] stands before it, whatever the optional
    whitespace. *)
Theorem deprecated_declaration_found :
  forall hook parsedHook before ws1 ws2 ws3 args ws4 after ms,
    parseHook hook = Done parsedHook ->
    name parsedHook <> [] ->
    Forall (fun c => isWord c = true) (name parsedHook) ->
    ws1 <> [] ->
    Forall (fun c => isSpace c = true) ws1 ->
    Forall (fun c => isSpace c = true) ws2 ->
    Forall (fun c => isSpace c = true) ws3 ->
    Forall (fun c => isSpace c = true) ws4 ->
    ParamsText (parameters parsedHook) args ->
    ~ In 118%N before ->
    occurrences hook false
      (before ++
       (js "void" ++ ws1 ++ name parsedHook ++ ws2 ++ [LPAREN] ++
        ws3 ++ args ++ ws4 ++ [RPAREN]) ++
       after) ms ->
    exists others,
      ms = mkMatch (length before)
             (js "void" ++ ws1 ++ name parsedHook ++ ws2 ++ [LPAREN] ++
              ws3 ++ args ++ ws4 ++ [RPAREN])
             [] :: others.
Proof.
  intros hook parsedHook before ws1 ws2 ws3 args ws4 after ms
    Hparsed Hne Hnm Hne1 Hws1 Hws2 Hws3 Hws4 Hargs Hv (regex & Hre & Hms).
  rewrite (createRegexFromHook_strict _ Hparsed) in Hre. injection Hre as <-.
  unfold execAll in Hms. cbn [execLoop] in Hms.
  match type of Hms with
  | context [exec ?r ?t 0] =>
      assert (Hexec : exec r t 0 =
                      Some (mkMatch (length before)
                              (js "void" ++ ws1 ++ name parsedHook ++ ws2 ++
                               [LPAREN] ++ ws3 ++ args ++ ws4 ++ [RPAREN]) []))
  end.
  { unfold exec. rewrite (proj2 (Nat.ltb_ge _ _)) by lia. rewrite skipn_O.
    assert (Hshape : strictRegex (name parsedHook) (parameters parsedHook) =
                     TAtom (lit 118%N) QOne ::
                     tl (strictRegex (name parsedHook) (parameters parsedHook))).
    { unfold strictRegex. now destruct (parameters parsedHook). }
    rewrite Hshape, search_skip.
    - apply search_here. rewrite Nat.add_0_r, <- Hshape.
      apply strict_declaration; try assumption.
      exact (parseHook_typeTokens _ Hparsed).
    - intros c Hc. destruct (atomMatches (lit 118%N) c) eqn:E; [|reflexivity].
      apply lit_spec in E. now subst c. }
  rewrite Hexec in Hms.
  match type of Hms with
  | context [execLoop ?f ?r ?t ?li] => destruct (execLoop f r t li) as [others| |]
  end; simpl in Hms; try discriminate.
  injection Hms as <-. now exists others.
Qed.

Lemma deprecated_declaration_found_witness :
  exists others,
    [mkMatch 13 (js "void OnHit ( BasePlayer p ,HitInfo i)") []] =
    mkMatch (length (js "class Plug { "))
      (js "void" ++ js " " ++ js "OnHit" ++ js " " ++ [LPAREN] ++
       js " " ++ js "BasePlayer p ,HitInfo i" ++ [] ++ [RPAREN])
      [] :: others.
Proof.
  apply deprecated_declaration_found
    with (hook := js "void OnHit(BasePlayer player, HitInfo info)")
         (parsedHook :=
            mkParsedHook (js "OnHit") [js "BasePlayer player"; js "HitInfo info"] None)
         (after := js " { } }").
  - reflexivity.
  - discriminate.
  - concrete_Forall.
  - discriminate.
  - concrete_Forall.
  - concrete_Forall.
  - concrete_Forall.
  - constructor.
  - exists (js "BasePlayer p"), (js " ,"), (js "HitInfo i").
    split; [reflexivity|]. split; [|split].
    + exists (js " "), (js "p"). split; [reflexivity|].
      split; [discriminate|]. split; [concrete_Forall|].
      split; [discriminate|concrete_Forall].
    + exists (js " "), []. split; [reflexivity|]. split; [concrete_Forall|constructor].
    + exists (js " "), (js "i"). split; [reflexivity|].
      split; [discriminate|]. split; [concrete_Forall|].
      split; [discriminate|concrete_Forall].
  - vm_compute. intuition discriminate.
  - occurrences_concrete.
Defined.

(** ** The count of the second pass *)

(** The count that the pass compares is the count on every comma. *)
Lemma actualCount_everyCommaCount (m : Match) :
  actualCount m =
  match group m 1 with
  | Some captured => everyCommaCount captured
  | None => 0
  end.
Proof.
  unfold actualCount. destruct (group m 1) as [captured|]; [|reflexivity].
  unfold paramCount, everyCommaCount.
  destruct (trim captured) as [|c t]; [reflexivity|].
  cbn [length Nat.ltb Nat.leb]. apply split_length.
Qed.

Lemma splitTopLevel_length (s : jsstring) :
  forall depth, length (splitTopLevel depth s) <= S (count_occ N.eq_dec s COMMA).
Proof.
  induction s as [|c s IH]; intros depth; [simpl; lia|].
  cbn [splitTopLevel count_occ].
  destruct (N.eqb_spec c COMMA) as [->|Hc].
  - destruct (N.eq_dec COMMA COMMA) as [_|Hn]; [|contradiction].
    destruct (Nat.eqb depth 0); cbn [andb].
    + cbn [length]. specialize (IH depth). lia.
    + match goal with
      | |- context [splitTopLevel ?d s] =>
          specialize (IH d); destruct (splitTopLevel d s)
      end; simpl in *; lia.
  - cbn [andb]. destruct (N.eq_dec c COMMA) as [E|_]; [contradiction|].
    match goal with
    | |- context [splitTopLevel ?d s] =>
        specialize (IH d); destruct (splitTopLevel d s)
    end; simpl in *; lia.
Qed.

Lemma splitTopLevel_no_comma (s : jsstring) :
  ~ In COMMA s -> forall depth, splitTopLevel depth s = [s].
Proof.
  induction s as [|c s IH]; intros Hs depth; [reflexivity|].
  cbn [splitTopLevel].
  destruct (N.eqb_spec c COMMA) as [->|_]; [exfalso; apply Hs; now left|].
  cbn [andb]. rewrite IH; [reflexivity|]. intros H. apply Hs. now right.
Qed.

(** The count on every comma is never below the count on top-level
    commas. *)
Lemma topLevelCount_le_everyCommaCount (captured : jsstring) :
  topLevelCount captured <= everyCommaCount captured.
Proof.
  unfold topLevelCount, everyCommaCount.
  pose proof (@trim_count COMMA captured eq_refl) as Hcount.
  destruct (trim captured) as [|c t] eqn:Ht.
  - assert (Hno : ~ In COMMA captured).
    { intros H. apply (count_occ_In N.eq_dec) in H. simpl in Hcount.
      unfold char, jsstring in *. lia. }
    rewrite (@splitTopLevel_no_comma captured Hno). cbn [map filter]. now rewrite Ht.
  - rewrite Hcount.
    pose proof (filter_length_le (fun piece => 0 <? length piece)
                  (map trim (splitTopLevel 0 captured))) as Hf.
    rewrite length_map in Hf.
    pose proof (splitTopLevel_length captured 0).
    unfold char, jsstring in *. lia.
Qed.

(** C4 (as the code has it). For every occurrence of a valid hook that the
    permissive regex finds, the pass emits the warning that cites the
    expected signature exactly when the count of the captured text on every
    comma is less than the number of parameters of the parsed hook, and it
    adds the range of the occurrence to the highlighted ranges in either
    case; an occurrence with two parameters of a hook with one is not
    flagged. The count on every comma is never below the count on top-level
    commas, so a warning is only emitted when the top-level count is less
    than expected as well. *)
Theorem valid_pass_missing_parameters :
  (forall (Position : Type) (positionAt : nat -> Position)
          (validHooks : list jsstring) (text : jsstring)
          (diagnostics : list (Diagnostic Position))
          (validHookRanges : list (Range Position)),
      exists found,
        Forall2 (fun hook pm =>
                   parseHook hook = Done (fst pm) /\
                   occurrences hook true text (snd pm) /\
                   Forall (fun m => exists captured, group m 1 = Some captured) (snd pm))
          validHooks found /\
        processValid positionAt validHooks text (diagnostics, validHookRanges) =
        Done (diagnostics ++
                flat_map (fun '(hook, (parsedHook, ms)) =>
                            flat_map (fun m =>
                                        if match group m 1 with
                                           | Some captured => everyCommaCount captured
                                           | None => 0
                                           end <? length (parameters parsedHook)
                                        then [mkDiagnostic (matchRange positionAt m)
                                                (js "Hook " ++ [DQUOTE] ++ name parsedHook ++
                                                 [DQUOTE] ++ js " has missing parameters." ++
                                                 [LF] ++ js "Expected: " ++ hook)
                                                Warning analyzerSource]
                                        else []) ms)
                  (combine validHooks found),
              validHookRanges ++
                flat_map (fun pm => map (matchRange positionAt) (snd pm)) found)) /\
  (forall captured, topLevelCount captured <= everyCommaCount captured) /\
  analyzeDocument (fun n => n)
    (mkTextDocument (js "csharp") (js "void Foo(int a, int b) { }"))
    [] [js "void Foo(int x)"] =
  Done (Some ([], [mkRange 0 22])) /\
  analyzeDocument (fun n => n)
    (mkTextDocument (js "csharp") (js "void Foo() { }"))
    [] [js "void Foo(int x)"] =
  Done (Some ([mkDiagnostic (mkRange 0 10)
                 (js "Hook " ++ [DQUOTE] ++ js "Foo" ++ [DQUOTE] ++
                  js " has missing parameters." ++ [LF] ++
                  js "Expected: void Foo(int x)")
                 Warning analyzerSource],
              [mkRange 0 10])).
Proof.
  split; [|split; [exact topLevelCount_le_everyCommaCount|split; vm_compute; reflexivity]].
  intros Position positionAt validHooks text diagnostics validHookRanges.
  destruct (processValid_spec positionAt text validHooks diagnostics validHookRanges)
    as (found & Hfound & Hrun).
  exists found. split.
  - eapply Forall2_impl; [|exact Hfound].
    intros hook pm [Hparsed Hocc]. split; [exact Hparsed|]. split; [exact Hocc|].
    eapply Forall_impl; [|exact (permissive_occurrences Hparsed Hocc)].
    intros m Hm. apply permissive_group in Hm. destruct Hm as (captured & Hg & _).
    exists captured. unfold group. now rewrite Hg.
  - rewrite Hrun. do 3 f_equal.
    apply flat_map_ext. intros [hook [parsedHook ms]].
    apply flat_map_ext. intros m.
    unfold missingDiagnostics, missingDiagnostic, missingMessage.
    now rewrite actualCount_everyCommaCount.
Qed.

(** C4 (the claim fails). With the count on top-level commas the warning
    is not emitted whenever the count is less than expected: the captured
    text of ["void Foo(Dictionary<string, int> map)"] holds one top-level
    parameter, the hook has two, and the pass emits no warning, since the
    count on every comma is two. *)
Lemma missing_warning_not_top_level :
  topLevelCount (js "Dictionary<string, int> map") = 1 /\
  parseHook (js "void Foo(int x, int y)") =
    Done (mkParsedHook (js "Foo") [js "int x"; js "int y"] None) /\
  occurrences (js "void Foo(int x, int y)") true
    (js "void Foo(Dictionary<string, int> map)")
    [mkMatch 0 (js "void Foo(Dictionary<string, int> map)")
       [js "Dictionary<string, int> map"]] /\
  analyzeDocument (fun n => n)
    (mkTextDocument (js "csharp") (js "void Foo(Dictionary<string, int> map)"))
    [] [js "void Foo(int x, int y)"] =
  Done (Some ([], [mkRange 0 37])).
Proof.
  split; [vm_compute; reflexivity|]. split; [vm_compute; reflexivity|].
  split; [occurrences_concrete|vm_compute; reflexivity].
Qed.

(** ** The cleaning of a signature *)

Lemma stripPrefix_inv (p : jsstring) :
  forall s s', stripPrefix p s = Some s' -> s = p ++ s'.
Proof.
  induction p as [|a p IH]; intros s s' H; simpl in H.
  - now injection H as <-.
  - destruct s as [|c s]; [discriminate|].
    destruct (N.eqb_spec c a) as [->|_]; [|discriminate].
    simpl. f_equal. now apply IH.
Qed.

Lemma run_lits_prefix (p : jsstring) (r : Regex) :
  forall caps s i,
    run (lits p ++ r) caps s i =
    match stripPrefix p s with
    | Some s' => run r caps s' (length p + i)
    | None => None
    end.
Proof.
  induction p as [|a p IH]; intros caps s i; [reflexivity|].
  cbn [lits map app run stripPrefix]. fold (lits p).
  destruct s as [|c s]; [reflexivity|].
  replace (atomMatches (lit a) c) with (N.eqb c a)
    by (simpl; now rewrite orb_false_r).
  destruct (N.eqb c a); [|reflexivity].
  rewrite IH. simpl. now rewrite Nat.add_succ_r.
Qed.

(** Whitespace at the end of a pattern takes the whole run. *)
Lemma greedy_spaces_end (caps : Caps) (s : jsstring) :
  forall i,
  exists ws,
    s = ws ++ dropWhile isSpace s /\
    greedy space (run [] caps) s i = Some (mkResult (length ws + i) (closed caps)).
Proof.
  induction s as [|c s IH]; intros i.
  - exists []. split; reflexivity.
  - cbn [greedy dropWhile]. rewrite space_spec.
    destruct (isSpace c).
    + destruct (IH (S i)) as (ws & Hs & Hg). rewrite Hg.
      exists (c :: ws). split; [simpl; now f_equal|].
      simpl. now rewrite Nat.add_succ_r.
    + exists []. split; reflexivity.
Qed.

(** The replace of [cleanSignature] strips one leading [void] with the
    whitespace after it. *)
Lemma replace_void (s : jsstring) :
  replaceFirst voidRe (fun _ => []) s = stripVoid s.
Proof.
  unfold voidRe. rewrite replaceFirst_anchored.
  unfold matchHere, stripVoid. cbn [run Nat.eqb].
  rewrite run_lits_prefix.
  destruct (stripPrefix (js "void") s) as [s'|] eqn:Hp; [|reflexivity].
  apply stripPrefix_inv in Hp. subst s.
  destruct s' as [|c rest]; [reflexivity|].
  cbn [run]. rewrite space_spec.
  destruct (isSpace c); [|reflexivity].
  match goal with
  | |- context [greedy space ?k rest ?i] =>
      destruct (greedy_spaces_end noCaps rest i) as (ws & Hrest & Hg);
      change k with (run [] noCaps)
  end.
  rewrite Hg. cbn [endIndex captures full app].
  rewrite Nat.sub_0_r.
  rewrite Hrest at 1 2.
  replace (js "void" ++ c :: ws ++ dropWhile isSpace rest)
    with ((js "void" ++ c :: ws) ++ dropWhile isSpace rest)
    by (rewrite <- app_assoc; reflexivity).
  rewrite firstn_exact by (rewrite length_app; simpl; lia).
  now rewrite skipn_exact.
Qed.

Lemma cleanSignature_cleaned (hookSignature : jsstring) :
  cleanSignature hookSignature = cleaned hookSignature.
Proof. apply replace_void. Qed.

(** C5. [parseHook] returns a result for every input string and never
    throws; when the cleaned input, which is the input without the
    whitespace around it and without one leading [void] and the whitespace
    after it, is not of the shape <dotted-identifier>(<parameter-list>), the
    result is the cleaned input as name with no parameters, as for
    ["not a signature"], with or without [void] and whitespace around it,
    and for the empty input. *)
Theorem parseHook_never_throws :
  (forall hookSignature,
      (exists parsed, parseHook hookSignature = Done parsed) /\
      ((forall fullName ws paramString,
           ~ MethodShape (cleaned hookSignature) fullName ws paramString) ->
       parseHook hookSignature =
       Done (mkParsedHook (cleaned hookSignature) [] None))) /\
  parseHook (js "not a signature") = Done (mkParsedHook (js "not a signature") [] None) /\
  parseHook ([TAB] ++ js " void  not a signature " ++ [LF]) =
    Done (mkParsedHook (js "not a signature") [] None) /\
  parseHook [] = Done (mkParsedHook [] [] None).
Proof.
  split; [|repeat split; reflexivity].
  intros hookSignature. split.
  - apply parseHook_total.
  - rewrite <- cleanSignature_cleaned. apply parseHook_degraded.
Qed.

Lemma parseHook_never_throws_witness :
  parseHook (js " void  Foo(int x) { } ") =
  Done (mkParsedHook (js "Foo(int x) { }") [] None).
Proof.
  apply (proj2 (proj1 parseHook_never_throws (js " void  Foo(int x) { } "))).
  intros fullName ws paramString H.
  apply methodRe_complete in H. vm_compute in H. discriminate.
Defined.
